(** * Snake game and Game-of-Life demo: a shallow embedding

    The two Python programs of the workspace are embedded as Rocq functions:

    - [Snake]: [snake_game.py], the [SnakeGame] object with its per-tick
      [update], the input handler, food and power-up placement, the
      high-score bookkeeping, the main loop and the drawing;
    - [Life]: [sandbox_demo.py], [create_grid], [count_neighbors],
      [next_generation], [print_grid] and the main loop.

    Python integers are unbounded, hence [Z].  Python lists are [list]s, read
    with stdpp's lookup and written with stdpp's insert, the range checks of
    Python written out.  A call that raises or that loops for ever is made
    explicit in the [result] type. *)

From stdpp Require Import base numbers list strings.

Local Open Scope Z_scope.

(** ** Results of running Python code *)

Inductive exn : Type :=
| IndexError
| ValueError
| ZeroDivisionError.

(** [Ok a]: the call returns [a]; [Raise e]: it raises [e]; [OutOfFuel]: the
    loop was still running when the fuel of the model ran out. *)
Inductive result (A : Type) : Type :=
| Ok (a : A)
| Raise (e : exn)
| OutOfFuel.

Arguments Ok {A} a.
Arguments Raise {A} e.
Arguments OutOfFuel {A}.

#[export] Instance result_ret : MRet result := λ A a, Ok a.

#[export] Instance result_bind : MBind result := λ A B f m,
  match m with
  | Ok a => f a
  | Raise e => Raise e
  | OutOfFuel => OutOfFuel
  end.

(** A [for] loop whose body may raise: the body is run on the elements from
    left to right and the first failure ends the loop. *)
Fixpoint for_each {A St : Type} (body : St → A → result St) (s : St)
    (l : list A) : result St :=
  match l with
  | [] => Ok s
  | a :: l' => s' ← body s a; for_each body s' l'
  end.

(** ** The random source

    The module-level generator of Python's [random] is a sequence of raw
    draws and a cursor into it.  Every call consumes one draw. *)

Record Rng : Type := mkRng { draws : nat → Z; cursor : nat }.

Definition next_draw (r : Rng) : Z * Rng :=
  (draws r (cursor r), mkRng (draws r) (S (cursor r))).

(** [random.randint(a, b)]: an integer of the closed range [a..b]. *)
Definition randint (a b : Z) (r : Rng) : Z * Rng :=
  let '(d, r') := next_draw r in (a + d `mod` (b - a + 1), r').

(** [random.random() < num/den]: the float of [0, 1) is a draw taken in
    [den]-ths. *)
Definition random_lt (num den : Z) (r : Rng) : bool * Rng :=
  let '(d, r') := next_draw r in (bool_decide (d `mod` den < num), r').

(** [random.choice] on the non-empty list [x :: xs]. *)
Definition random_choice {A : Type} (x : A) (xs : list A) (r : Rng) : A * Rng :=
  let '(d, r') := next_draw r in
  (nth (Z.to_nat (d `mod` Z.of_nat (length (x :: xs)))) (x :: xs) x, r').

(** A generator that replays the list [l], then draws [0] for ever. *)
Definition replay (l : list Z) : Rng := mkRng (λ n, nth n l 0) 0.

(** ** Python strings *)

(** A Python string, as the list of its code points. *)
Abbreviation str := (list Z).

(** A literal made of ASCII characters. *)
Definition text (s : string) : str :=
  (λ a, Z.of_N (Ascii.N_of_ascii a)) <$> String.list_ascii_of_string s.

(** [str(n)] for an integer [n]. *)
Fixpoint digits (u : Decimal.uint) : str :=
  match u with
  | Decimal.Nil => []
  | Decimal.D0 u => 48 :: digits u
  | Decimal.D1 u => 49 :: digits u
  | Decimal.D2 u => 50 :: digits u
  | Decimal.D3 u => 51 :: digits u
  | Decimal.D4 u => 52 :: digits u
  | Decimal.D5 u => 53 :: digits u
  | Decimal.D6 u => 54 :: digits u
  | Decimal.D7 u => 55 :: digits u
  | Decimal.D8 u => 56 :: digits u
  | Decimal.D9 u => 57 :: digits u
  end.

Definition py_str (n : Z) : str :=
  match Z.to_int n with
  | Decimal.Pos u => digits u
  | Decimal.Neg u => text "-" ++ digits u
  end.

Module Snake.

(** ** Configuration (snake_game.py, lines 12-17) *)

Definition WINDOW_WIDTH : Z := 800.
Definition WINDOW_HEIGHT : Z := 600.
Definition CELL_SIZE : Z := 20.
Definition GRID_WIDTH : Z := WINDOW_WIDTH `div` CELL_SIZE.
Definition GRID_HEIGHT : Z := WINDOW_HEIGHT `div` CELL_SIZE.
Definition FPS : Z := 12.

(** ** Data model *)

Definition Pos : Type := Z * Z.

#[export] Instance Pos_eq_dec : EqDecision Pos.
Proof. unfold Pos. apply _. Defined.

Inductive Direction : Type := UP | DOWN | LEFT | RIGHT.

(** [Direction.value] *)
Definition value (d : Direction) : Z * Z :=
  match d with
  | UP => (0, -1)
  | DOWN => (0, 1)
  | LEFT => (-1, 0)
  | RIGHT => (1, 0)
  end.

Inductive GameState : Type := PLAYING | PAUSED | GAME_OVER | NEW_HIGH_SCORE.

(** The three tags ['speed'], ['score'], ['invincible'] of [PowerUp.type]. *)
Inductive PowerUpType : Type := speed_type | score_type | invincible_type.

(** [PowerUp]; its [color] only serves the drawing code. *)
Record PowerUp : Type := mkPowerUp {
  pu_x : Z;
  pu_y : Z;
  pu_type : PowerUpType;
  lifetime : Z
}.

(** [PowerUp.__init__] *)
Definition new_powerup (x y : Z) (t : PowerUpType) : PowerUp :=
  mkPowerUp x y t 300.

(** [PowerUp.update]: the aged power-up and whether it stays. *)
Definition powerup_update (p : PowerUp) : PowerUp * bool :=
  let p' := mkPowerUp (pu_x p) (pu_y p) (pu_type p) (lifetime p - 1) in
  (p', bool_decide (lifetime p' > 0)).

#[export] Instance Direction_eq_dec : EqDecision Direction.
Proof. solve_decision. Defined.
#[export] Instance GameState_eq_dec : EqDecision GameState.
Proof. solve_decision. Defined.
#[export] Instance PowerUpType_eq_dec : EqDecision PowerUpType.
Proof. solve_decision. Defined.
#[export] Instance PowerUp_eq_dec : EqDecision PowerUp.
Proof. solve_decision. Defined.

(** The fields of a [SnakeGame] object, without the screen and the clock,
    followed by the two pieces of the process it reads and writes: the
    content of [high_score.txt] ([None] when the file is missing or does not
    hold an integer) and the random generator. *)
Record SnakeGame : Type := mkGame {
  snake : list Pos;
  direction : Direction;
  food : Pos;
  powerups : list PowerUp;
  score : Z;
  high_score : Z;
  state : GameState;
  invincible : bool;
  invincible_timer : Z;
  speed : Z;
  high_score_txt : option Z;
  rng : Rng
}.

Definition set_snake (v : list Pos) (g : SnakeGame) : SnakeGame :=
  mkGame v (direction g) (food g) (powerups g) (score g) (high_score g)
    (state g) (invincible g) (invincible_timer g) (speed g)
    (high_score_txt g) (rng g).
Definition set_direction (v : Direction) (g : SnakeGame) : SnakeGame :=
  mkGame (snake g) v (food g) (powerups g) (score g) (high_score g)
    (state g) (invincible g) (invincible_timer g) (speed g)
    (high_score_txt g) (rng g).
Definition set_food (v : Pos) (g : SnakeGame) : SnakeGame :=
  mkGame (snake g) (direction g) v (powerups g) (score g) (high_score g)
    (state g) (invincible g) (invincible_timer g) (speed g)
    (high_score_txt g) (rng g).
Definition set_powerups (v : list PowerUp) (g : SnakeGame) : SnakeGame :=
  mkGame (snake g) (direction g) (food g) v (score g) (high_score g)
    (state g) (invincible g) (invincible_timer g) (speed g)
    (high_score_txt g) (rng g).
Definition set_score (v : Z) (g : SnakeGame) : SnakeGame :=
  mkGame (snake g) (direction g) (food g) (powerups g) v (high_score g)
    (state g) (invincible g) (invincible_timer g) (speed g)
    (high_score_txt g) (rng g).
Definition set_high_score (v : Z) (g : SnakeGame) : SnakeGame :=
  mkGame (snake g) (direction g) (food g) (powerups g) (score g) v
    (state g) (invincible g) (invincible_timer g) (speed g)
    (high_score_txt g) (rng g).
Definition set_state (v : GameState) (g : SnakeGame) : SnakeGame :=
  mkGame (snake g) (direction g) (food g) (powerups g) (score g) (high_score g)
    v (invincible g) (invincible_timer g) (speed g)
    (high_score_txt g) (rng g).
Definition set_invincible (v : bool) (g : SnakeGame) : SnakeGame :=
  mkGame (snake g) (direction g) (food g) (powerups g) (score g) (high_score g)
    (state g) v (invincible_timer g) (speed g)
    (high_score_txt g) (rng g).
Definition set_invincible_timer (v : Z) (g : SnakeGame) : SnakeGame :=
  mkGame (snake g) (direction g) (food g) (powerups g) (score g) (high_score g)
    (state g) (invincible g) v (speed g)
    (high_score_txt g) (rng g).
Definition set_speed (v : Z) (g : SnakeGame) : SnakeGame :=
  mkGame (snake g) (direction g) (food g) (powerups g) (score g) (high_score g)
    (state g) (invincible g) (invincible_timer g) v
    (high_score_txt g) (rng g).
Definition set_high_score_txt (v : option Z) (g : SnakeGame) : SnakeGame :=
  mkGame (snake g) (direction g) (food g) (powerups g) (score g) (high_score g)
    (state g) (invincible g) (invincible_timer g) (speed g)
    v (rng g).
Definition set_rng (v : Rng) (g : SnakeGame) : SnakeGame :=
  mkGame (snake g) (direction g) (food g) (powerups g) (score g) (high_score g)
    (state g) (invincible g) (invincible_timer g) (speed g)
    (high_score_txt g) v.

(** ** Placement of food and power-ups *)

(** [generate_food]: the [while True] loop draws a cell and returns the
    first one that is not on the snake.  One unit of fuel is one turn of the
    loop. *)
Fixpoint generate_food (fuel : nat) (body : list Pos) (r : Rng)
  : result (Pos * Rng) :=
  match fuel with
  | O => OutOfFuel
  | S fuel' =>
      let '(x, r1) := randint 0 (GRID_WIDTH - 1) r in
      let '(y, r2) := randint 0 (GRID_HEIGHT - 1) r1 in
      if bool_decide ((x, y) ∉ body) then Ok ((x, y), r2)
      else generate_food fuel' body r2
  end.

(** [generate_powerup]: [random.random()] is always drawn, the length test
    comes second in the [and]; a single cell is tried. *)
Definition generate_powerup (g : SnakeGame) : SnakeGame :=
  let '(lucky, r0) := random_lt 3 10 (rng g) in
  let g := set_rng r0 g in
  if lucky && bool_decide (length (powerups g) < 2)%nat then
    let '(x, r1) := randint 0 (GRID_WIDTH - 1) (rng g) in
    let '(y, r2) := randint 0 (GRID_HEIGHT - 1) r1 in
    let g := set_rng r2 g in
    if bool_decide ((x, y) ∉ snake g) && bool_decide ((x, y) ≠ food g) then
      let '(powerup_type, r3) :=
        random_choice speed_type [score_type; invincible_type] (rng g) in
      set_powerups (powerups g ++ [new_powerup x y powerup_type]) (set_rng r3 g)
    else g
  else g.

(** ** High score *)

(** [load_high_score]: any failure of the read or of [int] gives [0]. *)
Definition load_high_score (g : SnakeGame) : Z :=
  default 0 (high_score_txt g).

(** [save_high_score]: the game after the call and the returned flag. *)
Definition save_high_score (g : SnakeGame) : SnakeGame * bool :=
  if bool_decide (score g > high_score g) then
    let g := set_high_score (score g) g in
    (set_high_score_txt (Some (high_score g)) g, true)
  else (g, false).

(** [game_over] *)
Definition game_over (g : SnakeGame) : SnakeGame :=
  let '(g, new_high) := save_high_score g in
  set_state (if new_high then NEW_HIGH_SCORE else GAME_OVER) g.

(** [reset_game]: every field of the object is assigned; the file and the
    generator are those of [g]. *)
Definition reset_game (fuel : nat) (g : SnakeGame) : result SnakeGame :=
  let g := set_snake [(GRID_WIDTH `div` 2, GRID_HEIGHT `div` 2)] g in
  let g := set_direction RIGHT g in
  '(f, r) ← generate_food fuel (snake g) (rng g);
  let g := set_food f (set_rng r g) in
  let g := set_powerups [] g in
  let g := set_score 0 g in
  let g := set_high_score (load_high_score g) g in
  let g := set_state PLAYING g in
  let g := set_invincible false g in
  let g := set_invincible_timer 0 g in
  Ok (set_speed FPS g).

(** [SnakeGame.__init__]: [reset_game] on a fresh object, in a process whose
    high-score file holds [file] and whose generator is [r]. *)
Definition new_game (fuel : nat) (file : option Z) (r : Rng) : result SnakeGame :=
  reset_game fuel (mkGame [] RIGHT (0, 0) [] 0 0 PLAYING false 0 0 file r).

(** ** Input (handle_input) *)

(** The keys the handler tells apart; [K_other] is any other key. *)
Inductive Key : Type :=
| K_ESCAPE | K_UP | K_DOWN | K_LEFT | K_RIGHT | K_p | K_r | K_RETURN | K_q
| K_other.

(** The events of [pygame.event.get()], by [event.type]. *)
Inductive Event : Type :=
| QUIT
| KEYDOWN (key : Key)
| OTHER_EVENT.

#[export] Instance Key_eq_dec : EqDecision Key.
Proof. solve_decision. Defined.

(** The outcome of one turn of the [for event] loop: [Return b] leaves
    [handle_input] with the value [b], [Next] goes on with the next event. *)
Inductive Flow : Type :=
| Return (b : bool)
| Next.

(** The body of the [for event] loop. *)
Definition handle_event (fuel : nat) (g : SnakeGame) (event : Event)
  : result (Flow * SnakeGame) :=
  match event with
  | QUIT => Ok (Return false, g)
  | KEYDOWN key =>
      if bool_decide (key = K_ESCAPE) then Ok (Return false, g)
      else if bool_decide (state g = PLAYING) then
        if bool_decide (key = K_UP) && bool_decide (direction g ≠ DOWN) then
          Ok (Next, set_direction UP g)
        else if bool_decide (key = K_DOWN) && bool_decide (direction g ≠ UP) then
          Ok (Next, set_direction DOWN g)
        else if bool_decide (key = K_LEFT) && bool_decide (direction g ≠ RIGHT) then
          Ok (Next, set_direction LEFT g)
        else if bool_decide (key = K_RIGHT) && bool_decide (direction g ≠ LEFT) then
          Ok (Next, set_direction RIGHT g)
        else if bool_decide (key = K_p) then
          Ok (Next, set_state PAUSED g)
        else Ok (Next, g)
      else if bool_decide (state g ∈ [GAME_OVER; NEW_HIGH_SCORE]) then
        if bool_decide (key = K_r) || bool_decide (key = K_RETURN) then
          g' ← reset_game fuel g; Ok (Next, g')
        else if bool_decide (key = K_q) || bool_decide (key = K_ESCAPE) then
          Ok (Return false, g)
        else Ok (Next, g)
      else if bool_decide (state g = PAUSED) && bool_decide (key = K_p) then
        Ok (Next, set_state PLAYING g)
      else Ok (Next, g)
  | OTHER_EVENT => Ok (Next, g)
  end.

(** [handle_input] on the events drained by [pygame.event.get()]: the value
    returned ([False] to leave the main loop) and the game. *)
Fixpoint handle_input (fuel : nat) (events : list Event) (g : SnakeGame)
  : result (bool * SnakeGame) :=
  match events with
  | [] => Ok (true, g)
  | event :: events' =>
      '(flow, g') ← handle_event fuel g event;
      match flow with
      | Return b => Ok (b, g')
      | Next => handle_input fuel events' g'
      end
  end.

(** ** The per-tick update *)

(** The wall test of lines 143-144. *)
Definition outside_grid (new_head : Pos) : bool :=
  bool_decide (new_head.1 < 0) || bool_decide (new_head.1 >= GRID_WIDTH) ||
  bool_decide (new_head.2 < 0) || bool_decide (new_head.2 >= GRID_HEIGHT).

(** Line 149. *)
Definition wrap (new_head : Pos) : Pos :=
  (new_head.1 `mod` GRID_WIDTH, new_head.2 `mod` GRID_HEIGHT).

(** [list.remove]: the first element equal to [x] is removed, [ValueError]
    when there is none.  A [PowerUp] has no [__eq__], Python compares the
    objects by identity; the loop below removes the power-ups on the head in
    list order, so the object removed is always the first of its value. *)
Fixpoint list_remove {A : Type} `{EqDecision A} (x : A) (l : list A)
  : result (list A) :=
  match l with
  | [] => Raise ValueError
  | y :: l' =>
      if bool_decide (x = y) then Ok l'
      else l'' ← list_remove x l'; Ok (y :: l'')
  end.

(** [self.snake.pop()]: the snake without its last segment. *)
Definition list_pop {A : Type} (l : list A) : result (list A) :=
  match l with
  | [] => Raise IndexError
  | _ => Ok (removelast l)
  end.

(** Lines 158-164: food collision, after [new_head] was inserted. *)
Definition check_food (fuel : nat) (new_head : Pos) (g : SnakeGame)
  : result SnakeGame :=
  if bool_decide (new_head = food g) then
    let g := set_score (score g + 10) g in
    '(f, r) ← generate_food fuel (snake g) (rng g);
    let g := set_food f (set_rng r g) in
    Ok (generate_powerup g)
  else
    body ← list_pop (snake g);
    Ok (set_snake body g).

(** Lines 168-176: the body of the loop over the copy [self.powerups[:]]. *)
Definition collect (new_head : Pos) (g : SnakeGame) (powerup : PowerUp)
  : result SnakeGame :=
  if bool_decide (new_head = (pu_x powerup, pu_y powerup)) then
    let g :=
      match pu_type powerup with
      | speed_type => set_speed (speed g + 2) g
      | score_type => set_score (score g + 50) g
      | invincible_type => set_invincible_timer 300 (set_invincible true g)
      end in
    rest ← list_remove powerup (powerups g);
    Ok (set_powerups rest g)
  else Ok g.

(** Lines 167-176. *)
Definition check_powerups (new_head : Pos) (g : SnakeGame) : result SnakeGame :=
  for_each (collect new_head) g (powerups g).

(** Lines 179-182. *)
Definition update_invincible_timer (g : SnakeGame) : SnakeGame :=
  if invincible g then
    let g := set_invincible_timer (invincible_timer g - 1) g in
    if bool_decide (invincible_timer g <= 0) then set_invincible false g else g
  else g.

(** Line 185: every power-up is aged, those that report [False] are
    dropped. *)
Definition update_powerups (g : SnakeGame) : SnakeGame :=
  set_powerups
    (fst <$> filter (λ pb, snd pb = true) (powerup_update <$> powerups g)) g.

(** Lines 138-140: the cell in front of the head. *)
Definition next_head (d : Direction) (head : Pos) : Pos :=
  let '(head_x, head_y) := head in
  let '(dx, dy) := value d in
  (head_x + dx, head_y + dy).

(** Lines 156-185: the move to [new_head], once no collision ended the
    tick. *)
Definition move (fuel : nat) (new_head : Pos) (g : SnakeGame)
  : result SnakeGame :=
  let g := set_snake (new_head :: snake g) g in
  g ← check_food fuel new_head g;
  g ← check_powerups new_head g;
  let g := update_invincible_timer g in
  Ok (update_powerups g).

(** [update].  [self.snake[0]] raises on an empty list. *)
Definition update (fuel : nat) (g : SnakeGame) : result SnakeGame :=
  if bool_decide (state g ≠ PLAYING) then Ok g
  else
    match snake g with
    | [] => Raise IndexError
    | head :: _ =>
        let new_head := next_head (direction g) head in
        if outside_grid new_head && negb (invincible g) then Ok (game_over g)
        else
          let new_head :=
            if outside_grid new_head then wrap new_head else new_head in
          if bool_decide (new_head ∈ snake g) && negb (invincible g) then
            Ok (game_over g)
          else move fuel new_head g
    end.

(** One turn of the loop of [run], up to the drawing: the flag [running] and
    the game. *)
Definition tick (fuel : nat) (events : list Event) (g : SnakeGame)
  : result (bool * SnakeGame) :=
  '(running, g) ← handle_input fuel events g;
  g ← update fuel g;
  Ok (running, g).

(** The loop of [run] on the events of its first turns, one list of drained
    events a turn: the flag [running] and the game when the turns are used
    up or the loop is left. *)
Fixpoint run (fuel : nat) (inputs : list (list Event)) (g : SnakeGame)
  : result (bool * SnakeGame) :=
  match inputs with
  | [] => Ok (true, g)
  | events :: inputs' =>
      '(running, g') ← tick fuel events g;
      if running : bool then run fuel inputs' g' else Ok (false, g')
  end.

(** The games the program can be in between two calls of its main loop:
    those of a fresh [SnakeGame()], closed under [handle_input] on any
    drained events, as long as it answers [True], and under [update]. *)
Inductive reachable : SnakeGame → Prop :=
| reachable_new fuel file r g :
    new_game fuel file r = Ok g → reachable g
| reachable_input fuel events g g' :
    reachable g → handle_input fuel events g = Ok (true, g') → reachable g'
| reachable_update fuel g g' :
    reachable g → update fuel g = Ok g' → reachable g'.

(** ** Drawing (snake_game.py, lines 19-31 and 191-245) *)

Definition Color : Type := Z * Z * Z.

Definition BLACK : Color := (0, 0, 0).
Definition GREEN : Color := (0, 255, 0).
Definition RED : Color := (255, 0, 0).
Definition BLUE : Color := (0, 100, 255).
Definition WHITE : Color := (255, 255, 255).
Definition YELLOW : Color := (255, 255, 0).
Definition PURPLE : Color := (128, 0, 128).
Definition ORANGE : Color := (255, 165, 0).

(** [pygame.font.Font(None, size)] *)
Record Font : Type := mkFont { font_size : Z }.

Definition FONT_LARGE : Font := mkFont 74.
Definition FONT_MEDIUM : Font := mkFont 48.
Definition FONT_SMALL : Font := mkFont 36.

(** [pygame.Rect(left, top, width, height)] *)
Record Rect : Type := mkRect {
  rect_left : Z;
  rect_top : Z;
  rect_width : Z;
  rect_height : Z
}.

(** The calls [draw] makes on the screen, in the order it makes them:
    [screen.fill(color)], [pygame.draw.rect(screen, color, rect, width)]
    with [width] 0 when it is not given, [screen.blit(font.render(text,
    True, color), dest)] and [pygame.display.flip()]. *)
Inductive Call : Type :=
| screen_fill (color : Color)
| draw_rect (color : Color) (rect : Rect) (width : Z)
| blit_text (font : Font) (text : str) (color : Color) (dest : Z * Z)
| display_flip.

#[export] Instance Font_eq_dec : EqDecision Font.
Proof. solve_decision. Defined.
#[export] Instance Rect_eq_dec : EqDecision Rect.
Proof. solve_decision. Defined.
#[export] Instance Call_eq_dec : EqDecision Call.
Proof. unfold Color. solve_decision. Defined.

(** [PowerUp.color], set by [PowerUp.__init__] from the type. *)
Definition powerup_color (p : PowerUp) : Color :=
  match pu_type p with
  | speed_type => ORANGE
  | score_type => YELLOW
  | invincible_type => PURPLE
  end.

(** The rectangle of the cell [(x, y)]. *)
Definition cell_rect (x y : Z) : Rect :=
  mkRect (x * CELL_SIZE) (y * CELL_SIZE) CELL_SIZE CELL_SIZE.

(** The body of the loop over [enumerate(self.snake)]. *)
Definition draw_segment (color : Color) (i : nat) (segment : Pos) : list Call :=
  let rect := cell_rect segment.1 segment.2 in
  draw_rect color rect 0 ::
  (if bool_decide (i = 0%nat) then [draw_rect WHITE rect 2] else []).

(** The body of the loop over [self.powerups]. *)
Definition draw_powerup (powerup : PowerUp) : list Call :=
  let rect := cell_rect (pu_x powerup) (pu_y powerup) in
  [draw_rect (powerup_color powerup) rect 0; draw_rect WHITE rect 2].

(** [draw] *)
Definition draw (g : SnakeGame) : list Call :=
  [screen_fill BLACK] ++
  (if bool_decide (state g = PLAYING) || bool_decide (state g = PAUSED) then
     let color := if invincible g then BLUE else GREEN in
     mjoin (imap (draw_segment color) (snake g)) ++
     [draw_rect RED (cell_rect (food g).1 (food g).2) 0] ++
     mjoin (draw_powerup <$> powerups g) ++
     [blit_text FONT_SMALL (text "Score: " ++ py_str (score g)) WHITE (10, 10)] ++
     [blit_text FONT_SMALL (text "High: " ++ py_str (high_score g)) WHITE
        (WINDOW_WIDTH - 150, 10)] ++
     (if invincible g then
        [blit_text FONT_SMALL (text "INVINCIBLE!") YELLOW
           (WINDOW_WIDTH `div` 2 - 60, 10)]
      else []) ++
     (if bool_decide (state g = PAUSED) then
        [blit_text FONT_LARGE (text "PAUSED") WHITE
           (WINDOW_WIDTH `div` 2 - 100, WINDOW_HEIGHT `div` 2)]
      else [])
   else if bool_decide (state g = GAME_OVER) then
     [blit_text FONT_LARGE (text "GAME OVER") RED
        (WINDOW_WIDTH `div` 2 - 150, WINDOW_HEIGHT `div` 2 - 50);
      blit_text FONT_MEDIUM (text "R to restart, Q to quit") WHITE
        (WINDOW_WIDTH `div` 2 - 140, WINDOW_HEIGHT `div` 2 + 20)]
   else if bool_decide (state g = NEW_HIGH_SCORE) then
     [blit_text FONT_LARGE (text "NEW HIGH SCORE!") YELLOW
        (WINDOW_WIDTH `div` 2 - 200, WINDOW_HEIGHT `div` 2 - 50);
      blit_text FONT_MEDIUM (py_str (high_score g)) WHITE
        (WINDOW_WIDTH `div` 2 - 30, WINDOW_HEIGHT `div` 2);
      blit_text FONT_MEDIUM (text "R to restart, Q to quit") WHITE
        (WINDOW_WIDTH `div` 2 - 140, WINDOW_HEIGHT `div` 2 + 50)]
   else []) ++
  [display_flip].

End Snake.

Module Life.

(** ** Python list and integer operations used by sandbox_demo.py *)

(** An index as Python reads it: a negative one counts from the end. *)
Definition py_position {A : Type} (l : list A) (i : Z) : result nat :=
  let n := Z.of_nat (length l) in
  let j := if bool_decide (i < 0) then i + n else i in
  if bool_decide (0 ≤ j < n) then Ok (Z.to_nat j) else Raise IndexError.

(** [l[i]] *)
Definition py_index {A : Type} (l : list A) (i : Z) : result A :=
  j ← py_position l i;
  match l !! j with
  | Some a => Ok a
  | None => Raise IndexError
  end.

(** [l[i] = v] *)
Definition py_store {A : Type} (l : list A) (i : Z) (v : A) : result (list A) :=
  j ← py_position l i;
  Ok (<[j := v]> l).

(** [a % b] on integers: the result has the sign of [b]. *)
Definition py_mod (a b : Z) : result Z :=
  if bool_decide (b = 0) then Raise ZeroDivisionError else Ok (a `mod` b).

(** [range(n)] *)
Definition range (n : Z) : list Z := seqZ 0 n.

(** ** The automaton *)

Abbreviation Grid := (list (list Z)).

(** The body of the two nested loops of [count_neighbors]. *)
Definition add_neighbor (grid : Grid) (width height x y dx : Z)
    (count : Z) (dy : Z) : result Z :=
  if bool_decide (dx = 0) && bool_decide (dy = 0) then Ok count
  else
    nx ← py_mod (x + dx) width;
    ny ← py_mod (y + dy) height;
    row ← py_index grid ny;
    cell ← py_index row nx;
    Ok (count + cell).

(** [count_neighbors] *)
Definition count_neighbors (grid : Grid) (x y : Z) : result Z :=
  row0 ← py_index grid 0;
  let width := Z.of_nat (length row0) in
  let height := Z.of_nat (length grid) in
  for_each
    (λ count dx,
       for_each (add_neighbor grid width height x y dx) count [-1; 0; 1])
    0 [-1; 0; 1].

(** [new_grid[y][x] = v].  The rows of [new_grid] are distinct lists (they
    come from a list comprehension), so that the store changes row [y] only. *)
Definition store_cell (new_grid : Grid) (y x : Z) (v : Z) : result Grid :=
  row ← py_index new_grid y;
  row' ← py_store row x v;
  py_store new_grid y row'.

(** The body of the two nested loops of [next_generation]: [grid] is only
    read, [new_grid] is only written. *)
Definition next_cell (grid : Grid) (y : Z) (new_grid : Grid) (x : Z)
  : result Grid :=
  neighbors ← count_neighbors grid x y;
  row ← py_index grid y;
  cell ← py_index row x;
  if bool_decide (cell = 1) && bool_decide (neighbors ∈ [2; 3]) then
    store_cell new_grid y x 1
  else if bool_decide (cell = 0) && bool_decide (neighbors = 3) then
    store_cell new_grid y x 1
  else Ok new_grid.

(** [next_generation] *)
Definition next_generation (grid : Grid) : result Grid :=
  row0 ← py_index grid 0;
  let width := Z.of_nat (length row0) in
  let height := Z.of_nat (length grid) in
  let new_grid := replicate (Z.to_nat height) (replicate (Z.to_nat width) 0) in
  for_each
    (λ new_grid y, for_each (next_cell grid y) new_grid (range width))
    new_grid (range height).

(** ** Configuration (sandbox_demo.py, lines 11-16) *)

Definition WIDTH : Z := 60.
Definition HEIGHT : Z := 15.
Definition GENERATIONS : Z := 20.

(** ['█'], U+2588, and ['░'], U+2591. *)
Definition ALIVE : str := [9608].
Definition DEAD : str := [9617].

(** A list comprehension whose element expression draws from the random
    generator: the elements are computed from left to right. *)
Fixpoint comprehension {A B : Type} (f : A → Rng → B * Rng) (l : list A)
    (r : Rng) : list B * Rng :=
  match l with
  | [] => ([], r)
  | a :: l' =>
      let '(b, r1) := f a r in
      let '(bs, r2) := comprehension f l' r1 in
      (b :: bs, r2)
  end.

(** [create_grid] *)
Definition create_grid (width height : Z) (r : Rng) : Grid * Rng :=
  comprehension
    (λ _ r, comprehension (λ _ r, random_choice 0 [1] r) (range width) r)
    (range height) r.

(** [ALIVE if cell else DEAD]: an integer is true when it is not [0]. *)
Definition glyph (cell : Z) : str :=
  if bool_decide (cell ≠ 0) then ALIVE else DEAD.

(** [print_grid]: the lines written, one for each row. *)
Definition print_grid (grid : Grid) : list str :=
  (λ row, concat (glyph <$> row)) <$> grid.

(** [f"Generation {gen + 1}/{GENERATIONS}"] *)
Definition banner (gen : Z) : str :=
  text "Generation " ++ py_str (gen + 1) ++ text "/" ++ py_str GENERATIONS.

(** The body of the main loop (lines 61-66): the lines written so far and
    the grid.  When [next_generation] raises, the program ends there. *)
Definition generation (st : list str * Grid) (gen : Z)
  : result (list str * Grid) :=
  let '(out, grid) := st in
  let out := out ++ [banner gen] in
  let out := out ++ print_grid grid in
  let out := out ++ [concat (replicate (Z.to_nat WIDTH) (text "-"))] in
  let out := out ++ [[]] in
  grid ← next_generation grid;
  Ok (out, grid).

(** The main program from the creation of the grid to the end of its loop
    (lines 59-66): the lines written by the loop and the last grid. *)
Definition demo (r : Rng) : result (list str * Grid) :=
  let '(grid, _) := create_grid WIDTH HEIGHT r in
  for_each generation ([], grid) (range GENERATIONS).

End Life.

(** * The properties, in the words of the specification *)

Module SnakeSpec.
Import Snake.

(** The four outcomes of the collision resolver. *)
Inductive Collision : Type := WallHit | WallWrap | SelfHit | Clear.

#[export] Instance Collision_eq_dec : EqDecision Collision.
Proof. solve_decision. Defined.

(** The resolver: the wall is checked before the body; a head that wraps is
    the head of an invincible snake, which the body does not stop. *)
Definition classify (nextHead : Pos) (body : list Pos) (inv : bool) : Collision :=
  if outside_grid nextHead then (if inv then WallWrap else WallHit)
  else if bool_decide (nextHead ∈ body) && negb inv then SelfHit
  else Clear.

(** The cell the head lands on: wrapped when it left the grid. *)
Definition landing (nextHead : Pos) : Pos :=
  if outside_grid nextHead then wrap nextHead else nextHead.

(** The tick ends the game. *)
Definition hit (c : Collision) : bool :=
  match c with WallHit | SelfHit => true | WallWrap | Clear => false end.

Definition in_grid (p : Pos) : Prop :=
  0 ≤ p.1 < GRID_WIDTH ∧ 0 ≤ p.2 < GRID_HEIGHT.

(** The direction a key asks for. *)
Definition requested (key : Key) : option Direction :=
  match key with
  | K_UP => Some UP
  | K_DOWN => Some DOWN
  | K_LEFT => Some LEFT
  | K_RIGHT => Some RIGHT
  | _ => None
  end.

Definition reverse_of (d : Direction) : Direction :=
  match d with UP => DOWN | DOWN => UP | LEFT => RIGHT | RIGHT => LEFT end.

(** The cell drawn at turn [k] of the loop of [generate_food] started on the
    generator [r]. *)
Definition drawn_cell (r : Rng) (k : nat) : Pos :=
  (draws r (cursor r + 2 * k)%nat `mod` GRID_WIDTH,
   draws r (cursor r + 2 * k + 1)%nat `mod` GRID_HEIGHT).

(** Food placement, when the head lands on the food, finds a free cell
    within the fuel. *)
Definition food_placed (fuel : nat) (new_head : Pos) (g : SnakeGame) : Prop :=
  new_head = food g →
  ∃ k, (k < fuel)%nat ∧ drawn_cell (rng g) k ∉ new_head :: snake g.

(** The power-ups lying on a cell. *)
Definition on_cell (c : Pos) (p : PowerUp) : Prop := c = (pu_x p, pu_y p).

#[export] Instance on_cell_dec c p : Decision (on_cell c p).
Proof. unfold on_cell. apply _. Defined.

(** The bonus of the score power-ups lying on [c]: 50 each. *)
Definition score_bonus (c : Pos) (ps : list PowerUp) : Z :=
  50 * Z.of_nat
         (length (filter (λ p, on_cell c p ∧ pu_type p = score_type) ps)).

(** The effect of a power-up lying on the head, its removal from the list
    left aside. *)
Definition effect (c : Pos) (g : SnakeGame) (p : PowerUp) : SnakeGame :=
  if bool_decide (on_cell c p) then
    match pu_type p with
    | speed_type => set_speed (speed g + 2) g
    | score_type => set_score (score g + 50) g
    | invincible_type => set_invincible_timer 300 (set_invincible true g)
    end
  else g.

(** The generator after one turn of the loop of [generate_food]. *)
Definition after_turn (r : Rng) : Rng := mkRng (draws r) (S (S (cursor r))).

(** A board whose 40 x 30 cells are all on the snake, column after column,
    up and down in turn. *)
Definition full_board : list Pos :=
  x ← seqZ 0 GRID_WIDTH;
  (if Z.even x then id else reverse) ((λ y, (x, y)) <$> seqZ 0 GRID_HEIGHT).

(** [a] is the cell next to [b] in some direction, on the torus. *)
Definition torus_step (a b : Pos) : Prop := ∃ d, a = wrap (next_head d b).

(** Every segment is next to the one that follows it. *)
Fixpoint torus_path (l : list Pos) : Prop :=
  match l with
  | a :: l' => match l' with b :: _ => torus_step a b | [] => True end
               ∧ torus_path l'
  | [] => True
  end.

(** What holds of the game between two calls of the main loop; [bound] is
    the largest lifetime of a power-up and the largest value of the
    invincibility timer. *)
Record ticking (bound : Z) (g : SnakeGame) : Prop := mkTicking {
  tk_snake : snake g ≠ [] ∧ Forall in_grid (snake g);
  tk_path : torus_path (snake g);
  tk_food : in_grid (food g) ∧ food g ∉ snake g;
  tk_powerups :
    (length (powerups g) ≤ 2)%nat ∧
    Forall (λ p, in_grid (pu_x p, pu_y p) ∧ 0 < lifetime p ≤ bound) (powerups g);
  tk_timer :
    if invincible g then 0 < invincible_timer g ≤ bound
    else invincible_timer g = 0;
  tk_high : high_score g = load_high_score g;
  tk_score :
    ∃ k, 0 ≤ k ∧ score g = 10 * (Z.of_nat (length (snake g)) - 1) + 50 * k;
  tk_speed : ∃ j, 0 ≤ j ∧ speed g = FPS + 2 * j;
  tk_over :
    (state g = GAME_OVER → score g ≤ high_score g) ∧
    (state g = NEW_HIGH_SCORE →
       score g = high_score g ∧ high_score_txt g = Some (score g))
}.

Definition invariant (g : SnakeGame) : Prop := ticking 299 g.

(** An event that [handle_input] passes over in the state [s], a state
    other than [PLAYING]. *)
Definition ignored (s : GameState) (e : Event) : Prop :=
  match e with
  | QUIT => False
  | OTHER_EVENT => True
  | KEYDOWN key =>
      key ≠ K_ESCAPE ∧
      match s with
      | PLAYING => False
      | PAUSED => key ≠ K_p
      | GAME_OVER | NEW_HIGH_SCORE => key ∉ [K_r; K_RETURN; K_q]
      end
  end.

(** No power-up lies under the snake. *)
Definition powerups_clear (g : SnakeGame) : Prop :=
  ∀ p, p ∈ powerups g → (pu_x p, pu_y p) ∉ snake g.

(** The events that can make [handle_input] answer [False]. *)
Definition quitting (e : Event) : Prop :=
  e = QUIT ∨ e = KEYDOWN K_ESCAPE ∨ e = KEYDOWN K_q.

(** The rectangle is one cell of the window. *)
Definition on_screen (rect : Rect) : Prop :=
  0 ≤ rect_left rect ∧ rect_left rect + rect_width rect ≤ WINDOW_WIDTH ∧
  0 ≤ rect_top rect ∧ rect_top rect + rect_height rect ≤ WINDOW_HEIGHT ∧
  rect_width rect = CELL_SIZE ∧ rect_height rect = CELL_SIZE ∧
  rect_left rect `mod` CELL_SIZE = 0 ∧ rect_top rect `mod` CELL_SIZE = 0.

End SnakeSpec.

(** * Concrete games *)

Module SnakeExamples.
Import Snake.

(** A paused game. *)
Definition paused_game : SnakeGame :=
  mkGame [(20, 15)] RIGHT (3, 4) [mkPowerUp 7 7 speed_type 120] 10 50 PAUSED
    true 42 12 (Some 50) (replay []).

(** A game whose head is about to leave the grid on the left. *)
Definition edge_game (inv : bool) : SnakeGame :=
  mkGame [(0, 2); (1, 2)] LEFT (5, 5) [mkPowerUp 7 7 speed_type 120] 10 50
    PLAYING inv 42 12 (Some 50) (replay []).

(** A game that ends on a score equal to the high score. *)
Definition tie_game : SnakeGame :=
  mkGame [(0, 2); (1, 2)] LEFT (5, 5) [] 50 50 PLAYING false 0 12 (Some 50)
    (replay []).

(** Three meals in a row, then a turn up and a turn left: the snake lies on
    a square of four cells and the key [K_DOWN] has just been handled; the
    cell below the head is the one of the tail. *)
Definition square_draws : list Z := [21; 15; 22; 15; 9; 23; 15; 9; 0; 0; 9].
Definition square_inputs : list (list Event) :=
  [[]; []; []; [KEYDOWN K_UP]; [KEYDOWN K_LEFT]].
Definition square_turned : SnakeGame :=
  mkGame [(22, 14); (23, 14); (23, 15); (22, 15)] LEFT (0, 0) [] 30 0 PLAYING
    false 0 12 None (mkRng (draws (replay square_draws)) 11).
Definition square_game : SnakeGame := set_direction DOWN square_turned.

(** Four meals in a row, the first of which spawns an invincibility
    power-up at (25, 15); the power-up is taken, then the snake, five cells
    long, turns up, left, and the key [K_DOWN] has just been handled: the
    cell below the head is the fourth segment. *)
Definition loop_draws : list Z :=
  [21; 15; 22; 15; 0; 25; 15; 2; 23; 15; 9; 24; 15; 9; 0; 0; 9].
Definition loop_inputs : list (list Event) :=
  [[]; []; []; []; []; [KEYDOWN K_UP]; [KEYDOWN K_LEFT]].
Definition loop_turned : SnakeGame :=
  mkGame [(24, 14); (25, 14); (25, 15); (24, 15); (23, 15)] LEFT (0, 0) [] 40
    0 PLAYING true 297 12 None (mkRng (draws (replay loop_draws)) 17).
Definition loop_game : SnakeGame := set_direction DOWN loop_turned.

(** Two meals in a row; the first spawns a score power-up at (23, 15), the
    second puts the new food on that very cell. *)
Definition bonus_draws : list Z :=
  [21; 15; 22; 15; 0; 23; 15; 1; 23; 15; 9; 0; 0; 9].
Definition bonus_game : SnakeGame :=
  mkGame [(22, 15); (21, 15); (20, 15)] RIGHT (23, 15)
    [mkPowerUp 23 15 score_type 298] 20 0 PLAYING false 0 12 None
    (mkRng (draws (replay bonus_draws)) 11).

(** [square_game] after the update that runs its head into its tail. *)
Definition square_over : SnakeGame := game_over square_game.

End SnakeExamples.

Module LifeSpec.
Import Life.

(** The content of cell [(x, y)]; [0] outside the grid. *)
Definition cell_at (grid : Grid) (x y : Z) : Z :=
  default 0 (row ← grid !! Z.to_nat y; row !! Z.to_nat x).

Definition width (grid : Grid) : Z := Z.of_nat (length (default [] (head grid))).
Definition height (grid : Grid) : Z := Z.of_nat (length grid).

(** A grid as [create_grid] makes it and [next_generation] keeps it: at
    least one row, all rows of one length, every cell [0] or [1]. *)
Definition well_formed (grid : Grid) : Prop :=
  grid ≠ [] ∧
  Forall (λ row, Z.of_nat (length row) = width grid) grid ∧
  Forall (Forall (λ cell, cell = 0 ∨ cell = 1)) grid.

Definition alive (grid : Grid) (x y : Z) : bool :=
  bool_decide (cell_at grid x y = 1).

(** The eight offsets around a cell. *)
Definition offsets : list (Z * Z) :=
  [(-1, -1); (-1, 0); (-1, 1); (0, -1); (0, 1); (1, -1); (1, 0); (1, 1)].

(** The number of live cells among the eight toroidal neighbours. *)
Definition live_neighbors (grid : Grid) (x y : Z) : Z :=
  Z.of_nat (length (filter
    (λ d, alive grid ((x + d.1) `mod` width grid) ((y + d.2) `mod` height grid) = true)
    offsets)).

(** The rule: alive with 2 or 3 live neighbours, or dead with exactly 3. *)
Definition rule (a : bool) (n : Z) : bool :=
  if a then bool_decide (n = 2 ∨ n = 3) else bool_decide (n = 3).

(** The content of cell [(x, y)] in the next generation, by the rule. *)
Definition next_state (grid : Grid) (x y : Z) : Z :=
  if rule (alive grid x y) (live_neighbors grid x y) then 1 else 0.

Definition in_range (grid : Grid) (x y : Z) : Prop :=
  0 ≤ x < width grid ∧ 0 ≤ y < height grid.

(** [new_grid] has the dimensions of [grid]. *)
Definition shaped (grid new_grid : Grid) : Prop :=
  length new_grid = length grid ∧
  Forall (λ row, Z.of_nat (length row) = width grid) new_grid.

(** The state of [new_grid] in the course of the loops: the cells of [done]
    hold their next state, every other cell still holds [0] or holds its
    next state already. *)
Definition painted (grid new_grid : Grid) (done : Z → Z → Prop) : Prop :=
  shaped grid new_grid ∧
  ∀ x y, in_range grid x y →
    (done x y → cell_at new_grid x y = next_state grid x y) ∧
    (cell_at new_grid x y = 0 ∨ cell_at new_grid x y = next_state grid x y).

(** A vertical blinker on a 5 x 5 grid. *)
Definition blinker : Grid :=
  [[0; 0; 0; 0; 0];
   [0; 0; 1; 0; 0];
   [0; 0; 1; 0; 0];
   [0; 0; 1; 0; 0];
   [0; 0; 0; 0; 0]].

(** Every cell is [0] or [1]. *)
Definition binary (grid : Grid) : Prop :=
  Forall (Forall (λ cell, cell = 0 ∨ cell = 1)) grid.

(** The grid moved on the torus: cell [(x, y)] of the result is cell
    [(x + kx, y + ky)] of [grid], modulo its dimensions. *)
Definition shift (kx ky : nat) (grid : Grid) : Grid :=
  rotate ky (rotate kx <$> grid).

(** The grid of [h] rows of [w] cells that all hold [c]. *)
Definition uniform (w h : nat) (c : Z) : Grid := replicate h (replicate w c).

(** The lines the main loop writes for the generation [gen]: the banner,
    the grid, a ruler and an empty line. *)
Definition block (gen : Z) (grid : Grid) : list str :=
  banner gen :: print_grid grid
    ++ [concat (replicate (Z.to_nat WIDTH) (text "-")); []].

(** The rows of [grid] are at least as long as the first one. *)
Definition rows_reach (grid : Grid) : Prop :=
  Forall (λ row, width grid ≤ Z.of_nat (length row)) grid.

(** The call returns or raises [IndexError]. *)
Definition index_only {A} (m : result A) : Prop :=
  match m with
  | Ok _ => True
  | Raise e => e = IndexError
  | OutOfFuel => False
  end.

End LifeSpec.

(** * Proofs: the snake game *)

Module SnakeProofs.
Import Snake SnakeSpec SnakeExamples.

(** ** Unfolding [update] *)

Lemma update_not_playing fuel g : state g ≠ PLAYING → update fuel g = Ok g.
Proof. intros Hs. unfold update. by rewrite bool_decide_eq_true_2. Qed.

(** While playing, [update] is the resolver followed by the move. *)
Lemma update_playing fuel g h t :
  state g = PLAYING → snake g = h :: t →
  update fuel g =
    if hit (classify (next_head (direction g) h) (snake g) (invincible g))
    then Ok (game_over g)
    else move fuel (landing (next_head (direction g) h)) g.
Proof.
  intros Hs Hb. unfold update, classify, landing.
  rewrite bool_decide_eq_false_2 by (intros Hn; by apply Hn).
  rewrite Hb. set (nh := next_head (direction g) h).
  destruct (outside_grid nh), (invincible g); simpl; try done;
    by destruct (bool_decide _).
Qed.

(** ** What [game_over] changes *)

Lemma game_over_frame g :
  let g' := game_over g in
  snake g' = snake g ∧ direction g' = direction g ∧ food g' = food g ∧
  powerups g' = powerups g ∧ score g' = score g ∧
  invincible g' = invincible g ∧ invincible_timer g' = invincible_timer g ∧
  speed g' = speed g ∧ rng g' = rng g.
Proof.
  unfold game_over, save_high_score. by destruct (bool_decide _).
Qed.

Lemma game_over_state g :
  state (game_over g) ∈ [GAME_OVER; NEW_HIGH_SCORE].
Proof.
  unfold game_over, save_high_score.
  destruct (bool_decide _); simpl; repeat constructor.
Qed.

Lemma game_over_not_playing g : state (game_over g) ≠ PLAYING.
Proof.
  unfold game_over, save_high_score. by destruct (bool_decide _).
Qed.

(** ** The power-up loop *)

Lemma list_remove_middle {A} `{EqDecision A} (x : A) l1 l2 :
  x ∉ l1 → list_remove x (l1 ++ x :: l2) = Ok (l1 ++ l2).
Proof.
  induction l1 as [|y l1 IH]; simpl; intros Hx.
  - by rewrite bool_decide_eq_true_2.
  - apply not_elem_of_cons in Hx as [Hxy Hx].
    rewrite bool_decide_eq_false_2 by done. by rewrite IH.
Qed.

Lemma effect_set_powerups c ps g p :
  effect c (set_powerups ps g) p = set_powerups ps (effect c g p).
Proof. unfold effect. destruct (bool_decide _); [by destruct (pu_type p)|done]. Qed.

Lemma foldl_effect_set_powerups c ps l g :
  foldl (effect c) (set_powerups ps g) l = set_powerups ps (foldl (effect c) g l).
Proof.
  revert g. induction l as [|p l IH]; intros g; simpl; [done|].
  by rewrite effect_set_powerups, IH.
Qed.

Lemma effect_powerups c g p : powerups (effect c g p) = powerups g.
Proof. unfold effect. destruct (bool_decide _); [by destruct (pu_type p)|done]. Qed.

Lemma collect_on c g p pre l :
  on_cell c p → powerups g = pre ++ p :: l →
  Forall (λ p, ¬ on_cell c p) pre →
  collect c g p = Ok (set_powerups (pre ++ l) (effect c g p)).
Proof.
  intros Hon Hps Hpre. unfold collect, effect.
  rewrite !bool_decide_eq_true_2 by done.
  assert (Hrm : ∀ g', powerups g' = powerups g →
             list_remove p (powerups g') = Ok (pre ++ l)).
  { intros g' ->. rewrite Hps. apply list_remove_middle.
    intros Hin. rewrite Forall_forall in Hpre. by apply (Hpre p Hin). }
  destruct (pu_type p); by rewrite Hrm.
Qed.

Lemma effect_off c g p : ¬ on_cell c p → effect c g p = g.
Proof. intros Hoff. unfold effect. by rewrite bool_decide_eq_false_2. Qed.

Lemma collect_off c g p : ¬ on_cell c p → collect c g p = Ok g.
Proof. intros Hoff. unfold collect. by rewrite bool_decide_eq_false_2. Qed.

Lemma for_each_collect c l : ∀ pre g,
  powerups g = pre ++ l → Forall (λ p, ¬ on_cell c p) pre →
  for_each (collect c) g l =
    Ok (set_powerups (pre ++ filter (λ p, ¬ on_cell c p) l)
          (foldl (effect c) g l)).
Proof.
  induction l as [|p l IH]; intros pre g Hps Hpre; cbn [for_each foldl].
  - rewrite app_nil_r in *. rewrite <- Hps. by destruct g.
  - destruct (decide (on_cell c p)) as [Hon|Hoff].
    + rewrite (collect_on c g p pre l) by done.
      rewrite filter_cons_False by (by intros Hn; apply Hn).
      cbn [mbind result_bind].
      rewrite (IH pre) by done.
      by rewrite foldl_effect_set_powerups.
    + rewrite collect_off by done.
      rewrite filter_cons_True by done.
      cbn [mbind result_bind].
      rewrite (IH (pre ++ [p])).
      * rewrite <- app_assoc. simpl. by rewrite (effect_off c g p).
      * by rewrite <- app_assoc.
      * apply Forall_app. split; [done|]. by constructor.
Qed.

Lemma check_powerups_spec c g :
  check_powerups c g =
    Ok (set_powerups (filter (λ p, ¬ on_cell c p) (powerups g))
          (foldl (effect c) g (powerups g))).
Proof. unfold check_powerups. by apply (for_each_collect c _ []). Qed.

(** ** Food placement *)

(** One turn of the loop draws the cell [drawn_cell r 0]. *)
Lemma draw_turn r :
  randint 0 (GRID_WIDTH - 1) r =
    ((drawn_cell r 0).1, mkRng (draws r) (S (cursor r))) ∧
  randint 0 (GRID_HEIGHT - 1) (mkRng (draws r) (S (cursor r))) =
    ((drawn_cell r 0).2, after_turn r).
Proof.
  unfold randint, next_draw, drawn_cell, after_turn. simpl.
  replace (cursor r + 0)%nat with (cursor r) by lia.
  replace (cursor r + 1)%nat with (S (cursor r)) by lia.
  by replace (GRID_WIDTH - 1 - 0 + 1) with GRID_WIDTH by lia.
Qed.

Lemma generate_food_step fuel body r :
  generate_food (S fuel) body r =
    if bool_decide (drawn_cell r 0 ∉ body) then Ok (drawn_cell r 0, after_turn r)
    else generate_food fuel body (after_turn r).
Proof.
  destruct (draw_turn r) as [Hx Hy]. cbn [generate_food].
  rewrite Hx, Hy. by destruct (drawn_cell r 0).
Qed.

Lemma drawn_cell_after r k : drawn_cell (after_turn r) k = drawn_cell r (S k).
Proof.
  unfold drawn_cell, after_turn. cbn [draws cursor].
  f_equal; f_equal; f_equal; lia.
Qed.

Lemma drawn_cell_in_grid r k : in_grid (drawn_cell r k).
Proof.
  unfold in_grid, drawn_cell. simpl.
  split; apply Z.mod_pos_bound; reflexivity.
Qed.

(** What [generate_food] returns is a cell of the grid off the body. *)
Lemma generate_food_sound fuel : ∀ body r p r',
  generate_food fuel body r = Ok (p, r') → (p ∉ body) ∧ in_grid p.
Proof.
  induction fuel as [|fuel IH]; intros body r p r'; [done|].
  rewrite generate_food_step. case_bool_decide as Hfree.
  - intros [= <- <-]. split; [done|apply drawn_cell_in_grid].
  - apply IH.
Qed.

(** It returns the first drawn cell that is free. *)
Lemma generate_food_first fuel : ∀ body r k,
  (k < fuel)%nat → drawn_cell r k ∉ body →
  ∃ j r', (j ≤ k)%nat ∧ generate_food fuel body r = Ok (drawn_cell r j, r') ∧
          ∀ i, (i < j)%nat → drawn_cell r i ∈ body.
Proof.
  induction fuel as [|fuel IH]; intros body r k Hk Hfree; [lia|].
  rewrite generate_food_step. case_bool_decide as H0.
  - exists 0%nat, (after_turn r). split; [lia|]. split; [done|]. lia.
  - destruct k as [|k]; [done|].
    destruct (IH body (after_turn r) k) as (j & r' & Hj & Hgen & Hbefore).
    { lia. } { by rewrite drawn_cell_after. }
    exists (S j), r'. rewrite <- drawn_cell_after. split; [lia|].
    split; [done|]. intros [|i] Hi.
    + done.
    + rewrite <- drawn_cell_after. apply Hbefore. lia.
Qed.

Lemma generate_food_returns fuel body r k :
  (k < fuel)%nat → drawn_cell r k ∉ body →
  ∃ p r', generate_food fuel body r = Ok (p, r').
Proof.
  intros Hk Hfree.
  destruct (generate_food_first fuel body r k Hk Hfree) as (j & r' & _ & H & _).
  eauto.
Qed.

(** ** The phases of the move *)

Lemma generate_powerup_frame g :
  let g' := generate_powerup g in
  snake g' = snake g ∧ direction g' = direction g ∧ food g' = food g ∧
  score g' = score g ∧ high_score g' = high_score g ∧ state g' = state g ∧
  invincible g' = invincible g ∧ invincible_timer g' = invincible_timer g ∧
  speed g' = speed g ∧ high_score_txt g' = high_score_txt g.
Proof.
  unfold generate_powerup.
  destruct (random_lt _ _ _) as [lucky r0].
  destruct (lucky && _); [|done]. cbn [rng set_rng].
  destruct (randint _ _ _) as [x r1]. destruct (randint _ _ _) as [y r2].
  destruct (_ && _); [|done].
  by destruct (random_choice _ _ _).
Qed.

(** A power-up is only ever spawned off the snake. *)
Lemma generate_powerup_powerups g :
  powerups (generate_powerup g) = powerups g ∨
  ∃ p, powerups (generate_powerup g) = powerups g ++ [p] ∧
       ((pu_x p, pu_y p) ∉ snake g) ∧ (pu_x p, pu_y p) ≠ food g ∧
       lifetime p = 300.
Proof.
  unfold generate_powerup.
  destruct (random_lt _ _ _) as [lucky r0].
  destruct (lucky && _); [|by left]. cbn [rng set_rng].
  destruct (randint _ _ _) as [x r1]. destruct (randint _ _ _) as [y r2].
  destruct (bool_decide ((x, y) ∉ _)) eqn:Hs; [|by left].
  destruct (bool_decide ((x, y) ≠ _)) eqn:Hf; [|by left].
  apply bool_decide_eq_true in Hs, Hf. cbn [andb].
  destruct (random_choice _ _ _) as [t r3]. right.
  by exists (new_powerup x y t).
Qed.

Lemma score_bonus_app c l1 l2 :
  score_bonus c (l1 ++ l2) = score_bonus c l1 + score_bonus c l2.
Proof. unfold score_bonus. rewrite filter_app, length_app. lia. Qed.

Lemma foldl_effect_frame c l : ∀ g,
  let g' := foldl (effect c) g l in
  snake g' = snake g ∧ direction g' = direction g ∧ food g' = food g ∧
  high_score g' = high_score g ∧ state g' = state g ∧
  high_score_txt g' = high_score_txt g ∧ rng g' = rng g ∧
  score g' = score g + score_bonus c l.
Proof.
  induction l as [|p l IH]; intros g; simpl.
  { unfold score_bonus. simpl. repeat split; lia. }
  destruct (IH (effect c g p)) as (-> & -> & -> & -> & -> & -> & -> & ->).
  change (p :: l) with ([p] ++ l). rewrite score_bonus_app.
  unfold effect, score_bonus at 2. rewrite (filter_cons _ p []).
  case_bool_decide as Hon.
  - destruct (pu_type p) eqn:Ht; simpl;
      (destruct (decide _) as [[_ Hty]|Hn];
       [try discriminate Hty|try (exfalso; by apply Hn)]);
      simpl; repeat split; lia.
  - rewrite decide_False by (by intros [? _]). simpl. repeat split; lia.
Qed.

Lemma update_invincible_timer_frame g :
  let g' := update_invincible_timer g in
  snake g' = snake g ∧ direction g' = direction g ∧ food g' = food g ∧
  powerups g' = powerups g ∧ score g' = score g ∧
  high_score g' = high_score g ∧ state g' = state g ∧
  high_score_txt g' = high_score_txt g ∧ rng g' = rng g.
Proof.
  unfold update_invincible_timer.
  destruct (invincible g); [|done]. by destruct (bool_decide _).
Qed.

Lemma update_powerups_frame g :
  let g' := update_powerups g in
  snake g' = snake g ∧ direction g' = direction g ∧ food g' = food g ∧
  score g' = score g ∧ high_score g' = high_score g ∧ state g' = state g ∧
  invincible g' = invincible g ∧ invincible_timer g' = invincible_timer g ∧
  speed g' = speed g ∧ high_score_txt g' = high_score_txt g ∧ rng g' = rng g.
Proof. done. Qed.

(** The part of the move that follows the food check leaves the snake, the
    food and the state alone and adds the bonus of the power-ups under the
    head. *)
Lemma after_food c g :
  ∃ g', (g1 ← check_powerups c g;
         Ok (update_powerups (update_invincible_timer g1))) = Ok g' ∧
    snake g' = snake g ∧ food g' = food g ∧ state g' = state g ∧
    direction g' = direction g ∧ high_score g' = high_score g ∧
    high_score_txt g' = high_score_txt g ∧ rng g' = rng g ∧
    score g' = score g + score_bonus c (powerups g).
Proof.
  rewrite check_powerups_spec. cbn [mbind result_bind].
  eexists. split; [done|].
  set (g1 := set_powerups _ _).
  destruct (update_invincible_timer_frame g1)
    as (Hs & Hd & Hf & _ & Hsc & Hh & Hst & Htxt & Hr).
  cbn [update_powerups snake food state score set_powerups direction
       high_score high_score_txt rng].
  rewrite Hs, Hd, Hf, Hsc, Hh, Hst, Htxt, Hr. subst g1.
  cbn [snake food state score set_powerups direction
       high_score high_score_txt rng].
  by destruct (foldl_effect_frame c (powerups g) g)
    as (-> & -> & -> & -> & -> & -> & -> & ->).
Qed.

Lemma score_bonus_off c p : ¬ on_cell c p → score_bonus c [p] = 0.
Proof.
  intros Hoff. unfold score_bonus.
  by rewrite filter_cons_False by (by intros [? _]).
Qed.

(** The move, when the food check finds a free cell. *)
Lemma move_found fuel c g :
  (c = food g → ∃ f r, generate_food fuel (c :: snake g) (rng g) = Ok (f, r)) →
  ∃ g', move fuel c g = Ok g' ∧ state g' = state g ∧
    direction g' = direction g ∧
    (c = food g →
       snake g' = c :: snake g ∧
       score g' = score g + 10 + score_bonus c (powerups g) ∧
       (food g' ∉ snake g') ∧ in_grid (food g')) ∧
    (c ≠ food g →
       snake g' = removelast (c :: snake g) ∧ food g' = food g ∧
       score g' = score g + score_bonus c (powerups g)).
Proof.
  intros Hfound. unfold move, check_food.
  cbn [food set_snake snake rng score set_score].
  case_bool_decide as Hfood.
  - destruct (Hfound Hfood) as (f & r & Hgen).
    destruct (generate_food_sound _ _ _ _ _ Hgen) as [Hf Hgrid].
    rewrite Hgen. cbn [mbind result_bind].
    set (g1 := set_food f _).
    destruct (generate_powerup_frame g1)
      as (Hs & Hd & Hfd & Hsc & _ & Hst & _).
    destruct (after_food c (generate_powerup g1))
      as (g' & -> & Hs' & Hf' & Hst' & Hd' & _ & _ & _ & Hsc').
    exists g'. split; [done|].
    rewrite Hs', Hf', Hst', Hd', Hsc', Hs, Hd, Hfd, Hsc, Hst. subst g1.
    cbn [snake food state score direction set_food set_rng set_score set_snake].
    split; [done|]. split; [done|]. split; [|done]. intros _.
    split; [done|]. split; [|done].
    destruct (generate_powerup_powerups
                (set_food f (set_rng r (set_score (score g + 10)
                   (set_snake (c :: snake g) g)))))
        as [->|(p & -> & Hoff & _)]; [done|].
    cbn [powerups snake set_food set_rng set_score set_snake] in *.
    rewrite score_bonus_app, score_bonus_off; [lia|].
    intros Hon. apply Hoff. rewrite <- Hon. by left.
  - cbn [list_pop mbind result_bind].
    destruct (after_food c (set_snake (removelast (c :: snake g))
                              (set_snake (c :: snake g) g)))
      as (g' & -> & Hs' & Hf' & Hst' & Hd' & _ & _ & _ & Hsc').
    exists g'. split; [done|]. by rewrite Hs', Hf', Hst', Hd', Hsc'.
Qed.

Lemma move_spec fuel c g :
  food_placed fuel c g →
  ∃ g', move fuel c g = Ok g' ∧ state g' = state g ∧
    direction g' = direction g ∧
    (c = food g →
       snake g' = c :: snake g ∧
       score g' = score g + 10 + score_bonus c (powerups g) ∧
       (food g' ∉ snake g') ∧ in_grid (food g')) ∧
    (c ≠ food g →
       snake g' = removelast (c :: snake g) ∧ food g' = food g ∧
       score g' = score g + score_bonus c (powerups g)).
Proof.
  intros Hplaced. apply move_found. intros Hfood.
  destruct (Hplaced Hfood) as (k & Hk & Hfree).
  by apply (generate_food_returns fuel _ _ k).
Qed.

(** A move that returns has found its food. *)
Lemma move_state fuel c g g' : move fuel c g = Ok g' → state g' = state g.
Proof.
  intros Hmove. destruct (move_found fuel c g) as (g1 & Hg1 & Hst & _).
  - intros Hfood. revert Hmove. unfold move, check_food.
    cbn [food set_snake snake rng score set_score].
    rewrite bool_decide_eq_true_2 by done.
    destruct (generate_food _ _ _) as [[f r]| |];
      cbn [mbind result_bind]; [eauto|done|done].
  - rewrite Hmove in Hg1. by injection Hg1 as ->.
Qed.

(** ** Reachable games *)

Lemma tick_inv fuel events g b g' :
  tick fuel events g = Ok (b, g') →
  ∃ g0, handle_input fuel events g = Ok (b, g0) ∧ update fuel g0 = Ok g'.
Proof.
  unfold tick.
  destruct (handle_input fuel events g) as [[b0 g0]| |];
    cbn [mbind result_bind]; try done.
  destruct (update fuel g0) as [g1| |] eqn:Hup;
    cbn [mbind result_bind]; try done.
  intros [= <- <-]. eauto.
Qed.

Lemma reachable_run fuel inputs : ∀ g g',
  reachable g → run fuel inputs g = Ok (true, g') → reachable g'.
Proof.
  induction inputs as [|events inputs IH]; intros g g' Hg; cbn [run].
  - by intros [= <-].
  - destruct (tick fuel events g) as [[b g1]| |] eqn:Htick;
      cbn [mbind result_bind]; try done.
    destruct b; [|done].
    apply tick_inv in Htick as (g0 & Hin & Hup).
    apply IH. eapply reachable_update; [|exact Hup].
    eapply reachable_input; [exact Hg|exact Hin].
Qed.

Lemma reachable_from_new fuel file r inputs g0 g :
  new_game fuel file r = Ok g0 → run fuel inputs g0 = Ok (true, g) →
  reachable g.
Proof.
  intros Hnew Hrun. apply (reachable_run fuel inputs g0); [|done].
  by apply (reachable_new fuel file r).
Qed.

Lemma square_game_reachable : reachable square_game.
Proof.
  apply (reachable_input 1 [KEYDOWN K_DOWN] square_turned).
  - eapply (reachable_from_new 1 None (replay square_draws) square_inputs).
    + vm_compute. reflexivity.
    + vm_compute. reflexivity.
  - vm_compute. reflexivity.
Qed.

Lemma loop_game_reachable : reachable loop_game.
Proof.
  apply (reachable_input 1 [KEYDOWN K_DOWN] loop_turned).
  - eapply (reachable_from_new 1 None (replay loop_draws) loop_inputs).
    + vm_compute. reflexivity.
    + vm_compute. reflexivity.
  - vm_compute. reflexivity.
Qed.

Lemma bonus_game_reachable : reachable bonus_game.
Proof.
  eapply (reachable_from_new 1 None (replay bonus_draws) [[]; []]).
  - vm_compute. reflexivity.
  - vm_compute. reflexivity.
Qed.

(** ** Facts on the collision resolver *)

Lemma hit_cases c body inv :
  hit (classify c body inv) = true ↔ classify c body inv ∈ [WallHit; SelfHit].
Proof.
  split.
  - destruct (classify c body inv); try done; intros _.
    + apply list_elem_of_here.
    + apply list_elem_of_further, list_elem_of_here.
  - intros Hc. destruct (classify c body inv); try done;
      repeat (apply elem_of_cons in Hc as [Hc|Hc]; [discriminate Hc|]);
      by apply elem_of_nil in Hc.
Qed.

(** A vulnerable snake that is not stopped moves inside the grid to a cell
    off its body. *)
Lemma clear_vulnerable c body :
  hit (classify c body false) = false →
  outside_grid c = false ∧ landing c = c ∧ c ∉ body.
Proof.
  unfold classify, landing. destruct (outside_grid c); [done|].
  case_bool_decide; [done|]. done.
Qed.

Lemma NoDup_removelast {A} (l : list A) : NoDup l → NoDup (removelast l).
Proof.
  destruct l as [|a l]; [done|]. intros Hnd.
  assert (Hne : a :: l ≠ []) by done.
  rewrite (app_removelast_last a Hne) in Hnd.
  by apply NoDup_app in Hnd as [Hnd _].
Qed.

Lemma length_removelast_cons {A} (a : A) l :
  length (removelast (a :: l)) = length l.
Proof.
  revert a. induction l as [|b l IH]; intros a; [done|].
  change (removelast (a :: b :: l)) with (a :: removelast (b :: l)).
  cbn [length]. by rewrite IH.
Qed.

Lemma score_bonus_none c ps :
  (∀ p, p ∈ ps → on_cell c p → pu_type p ≠ score_type) → score_bonus c ps = 0.
Proof.
  intros Hnone. unfold score_bonus.
  replace (filter _ ps) with (@nil PowerUp); [done|].
  symmetry. induction ps as [|p ps IH]; [done|].
  rewrite filter_cons_False.
  - apply IH. intros q Hq. apply Hnone. by right.
  - intros [Hon Hty]. apply (Hnone p); [by left|done|done].
Qed.

(** Every cell of the grid is on [full_board]. *)
Lemma full_board_full p : in_grid p → p ∈ full_board.
Proof.
  destruct p as [x y]. intros [Hx Hy]. simpl in Hx, Hy.
  unfold full_board. apply list_elem_of_bind. exists x. split.
  - assert (Hin : (x, y) ∈ (λ y0, (x, y0)) <$> seqZ 0 GRID_HEIGHT).
    { apply list_elem_of_fmap. exists y. split; [done|].
      apply elem_of_seqZ. lia. }
    destruct (Z.even x); [done|]. by apply elem_of_reverse.
  - apply elem_of_seqZ. lia.
Qed.

(** ** The claims *)

(** C10.  Outside [PLAYING] the per-tick update changes nothing: whenever the
    state is [PAUSED], [GAME_OVER] or [NEW_HIGH_SCORE], [update] returns the
    very game it was given, so that the snake, the direction, the food, the
    score, the power-ups with their lifetimes, the invincible flag and its
    timer are all unchanged. *)
Theorem update_noop_outside_playing fuel g :
  state g ∈ [PAUSED; GAME_OVER; NEW_HIGH_SCORE] → update fuel g = Ok g.
Proof.
  intros Hs. apply update_not_playing. intros Hp. rewrite Hp in Hs.
  repeat (apply elem_of_cons in Hs as [Hs|Hs]; [discriminate Hs|]).
  by apply elem_of_nil in Hs.
Qed.

Lemma update_noop_outside_playing_witness :
  state paused_game ∈ [PAUSED; GAME_OVER; NEW_HIGH_SCORE] ∧
  update 0 paused_game = Ok paused_game.
Proof.
  assert (H : state paused_game ∈ [PAUSED; GAME_OVER; NEW_HIGH_SCORE])
    by apply list_elem_of_here.
  split; [exact H|]. exact (update_noop_outside_playing 0 paused_game H).
Defined.

(** C5.  The high-score update is strict: [game_over] stores and writes the
    score exactly when it is greater than the high score loaded before, and
    the state is then [NEW_HIGH_SCORE]; otherwise (a tie included) the high
    score and the file are unchanged and the state is [GAME_OVER].  Every
    update that leaves [PLAYING] is such a call of [game_over]. *)
Theorem high_score_update_strict g :
  (score g > high_score g →
     state (game_over g) = NEW_HIGH_SCORE ∧
     high_score (game_over g) = score g ∧
     high_score_txt (game_over g) = Some (score g)) ∧
  (score g ≤ high_score g →
     state (game_over g) = GAME_OVER ∧
     high_score (game_over g) = high_score g ∧
     high_score_txt (game_over g) = high_score_txt g) ∧
  (∀ fuel g', state g = PLAYING → update fuel g = Ok g' →
     state g' ≠ PLAYING → g' = game_over g).
Proof.
  split; [|split].
  - intros Hgt. unfold game_over, save_high_score.
    by rewrite bool_decide_eq_true_2.
  - intros Hle. unfold game_over, save_high_score.
    by rewrite bool_decide_eq_false_2 by lia.
  - intros fuel g' Hs Hup Hend.
    destruct (snake g) as [|h t] eqn:Hb.
    { revert Hup. unfold update.
      rewrite bool_decide_eq_false_2 by (intros Hn; by apply Hn).
      by rewrite Hb. }
    rewrite (update_playing fuel g h t Hs Hb) in Hup.
    destruct (hit _); [by injection Hup|].
    apply move_state in Hup. congruence.
Qed.

(** A tie is no new high score: the game that ends on 50 points with a
    high score of 50 goes to [GAME_OVER], high score and file unchanged. *)
Example tie_keeps_high_score :
  update 0 tie_game = Ok (set_state GAME_OVER tie_game).
Proof. reflexivity. Qed.

(** C6.  A key that asks for the exact reverse of the current direction is
    rejected while playing: the event changes nothing, the direction in
    particular, and the handler goes on with the next event. *)
Theorem reversal_rejected fuel g key events :
  state g = PLAYING → requested key = Some (reverse_of (direction g)) →
  handle_event fuel g (KEYDOWN key) = Ok (Next, g) ∧
  handle_input fuel (KEYDOWN key :: events) g = handle_input fuel events g.
Proof.
  intros Hs Hr.
  assert (He : handle_event fuel g (KEYDOWN key) = Ok (Next, g)).
  { unfold handle_event. rewrite Hs.
    destruct key; try discriminate Hr;
      destruct (direction g); try discriminate Hr; reflexivity. }
  split; [done|]. cbn [handle_input]. by rewrite He.
Qed.

Lemma reversal_rejected_witness :
  state (edge_game false) = PLAYING ∧
  requested K_RIGHT = Some (reverse_of (direction (edge_game false))) ∧
  handle_event 0 (edge_game false) (KEYDOWN K_RIGHT)
    = Ok (Next, edge_game false) ∧
  handle_input 0 [KEYDOWN K_RIGHT; KEYDOWN K_UP] (edge_game false)
    = handle_input 0 [KEYDOWN K_UP] (edge_game false).
Proof.
  split; [reflexivity|]. split; [reflexivity|].
  exact (reversal_rejected 0 (edge_game false) K_RIGHT [KEYDOWN K_UP]
           eq_refl eq_refl).
Defined.

(** C7.  A tick classified [WallHit] or [SelfHit] stops after the state
    transition: the state becomes [GAME_OVER] or [NEW_HIGH_SCORE] and the
    snake, the food, the score and the power-ups with their lifetimes, as
    well as the direction, the invincibility fields, the speed and the
    random generator, are those of before the tick. *)
Theorem collision_stops_tick fuel g h t :
  state g = PLAYING → snake g = h :: t →
  classify (next_head (direction g) h) (snake g) (invincible g)
    ∈ [WallHit; SelfHit] →
  ∃ g', update fuel g = Ok g' ∧ state g' ∈ [GAME_OVER; NEW_HIGH_SCORE] ∧
    snake g' = snake g ∧ food g' = food g ∧ score g' = score g ∧
    powerups g' = powerups g ∧ direction g' = direction g ∧
    invincible g' = invincible g ∧
    invincible_timer g' = invincible_timer g ∧ speed g' = speed g ∧
    rng g' = rng g.
Proof.
  intros Hs Hb Hc. apply hit_cases in Hc.
  exists (game_over g). rewrite (update_playing fuel g h t Hs Hb), Hc.
  split; [done|]. split; [apply game_over_state|].
  destruct (game_over_frame g) as (? & ? & ? & ? & ? & ? & ? & ? & ?).
  repeat split; done.
Qed.

Lemma collision_stops_tick_witness :
  state (edge_game false) = PLAYING ∧
  snake (edge_game false) = (0, 2) :: [(1, 2)] ∧
  classify (next_head (direction (edge_game false)) (0, 2))
    (snake (edge_game false)) (invincible (edge_game false))
    ∈ [WallHit; SelfHit] ∧
  ∃ g', update 0 (edge_game false) = Ok g' ∧
    state g' ∈ [GAME_OVER; NEW_HIGH_SCORE] ∧
    snake g' = snake (edge_game false) ∧ food g' = food (edge_game false) ∧
    score g' = score (edge_game false) ∧
    powerups g' = powerups (edge_game false) ∧
    direction g' = direction (edge_game false) ∧
    invincible g' = invincible (edge_game false) ∧
    invincible_timer g' = invincible_timer (edge_game false) ∧
    speed g' = speed (edge_game false) ∧ rng g' = rng (edge_game false).
Proof.
  assert (Hc : classify (next_head (direction (edge_game false)) (0, 2))
                 (snake (edge_game false)) (invincible (edge_game false))
               ∈ [WallHit; SelfHit]) by apply list_elem_of_here.
  split; [reflexivity|]. split; [reflexivity|]. split; [exact Hc|].
  exact (collision_stops_tick 0 (edge_game false) (0, 2) [(1, 2)]
           eq_refl eq_refl Hc).
Defined.

(** C4.  A candidate head outside the grid is handled according to the
    invincible flag alone: with the flag off the tick ends the game
    ([GAME_OVER] or [NEW_HIGH_SCORE]); with the flag on the game goes on
    and the new head is the candidate with both coordinates taken modulo
    the grid dimensions. *)
Theorem wall_depends_on_invincible fuel g h t :
  state g = PLAYING → snake g = h :: t →
  outside_grid (next_head (direction g) h) = true →
  (invincible g = false →
     ∃ g', update fuel g = Ok g' ∧ state g' ∈ [GAME_OVER; NEW_HIGH_SCORE]) ∧
  (invincible g = true →
   food_placed fuel (wrap (next_head (direction g) h)) g →
     ∃ g', update fuel g = Ok g' ∧ state g' = PLAYING ∧
       head (snake g') = Some (wrap (next_head (direction g) h)) ∧
       wrap (next_head (direction g) h) =
         ((next_head (direction g) h).1 `mod` GRID_WIDTH,
          (next_head (direction g) h).2 `mod` GRID_HEIGHT)).
Proof.
  intros Hs Hb Hout. rewrite (update_playing fuel g h t Hs Hb).
  unfold classify, landing. rewrite Hout. split.
  - intros ->. exists (game_over g). split; [done|apply game_over_state].
  - intros -> Hplaced. cbn [hit].
    destruct (move_spec fuel _ g Hplaced)
      as (g' & Hmove & Hst & _ & Heat & Hpass).
    exists g'. split; [done|]. split; [congruence|]. split; [|done].
    destruct (decide (wrap (next_head (direction g) h) = food g)) as [He|Hne].
    + destruct (Heat He) as (-> & _). done.
    + destruct (Hpass Hne) as (-> & _). by rewrite Hb.
Qed.

Lemma wall_depends_on_invincible_witness :
  state (edge_game true) = PLAYING ∧
  outside_grid (next_head (direction (edge_game true)) (0, 2)) = true ∧
  (∃ g', update 0 (edge_game false) = Ok g' ∧
     state g' ∈ [GAME_OVER; NEW_HIGH_SCORE]) ∧
  (∃ g', update 0 (edge_game true) = Ok g' ∧ state g' = PLAYING ∧
     head (snake g') = Some (39, 2)).
Proof.
  split; [reflexivity|]. split; [reflexivity|]. split.
  - exact (proj1 (wall_depends_on_invincible 0 (edge_game false) (0, 2)
                    [(1, 2)] eq_refl eq_refl eq_refl) eq_refl).
  - destruct (proj2 (wall_depends_on_invincible 0 (edge_game true) (0, 2)
                       [(1, 2)] eq_refl eq_refl eq_refl) eq_refl)
      as (g' & Hup & Hst & Hhead & _).
    + intros Hfood. discriminate Hfood.
    + exists g'. split; [exact Hup|]. split; [exact Hst|exact Hhead].
Defined.

(** C1, as the code has it.  The self-collision test looks at every
    segment, the tail included: a vulnerable snake whose candidate head,
    inside the grid, is the cell of its tail is classified [SelfHit] and the
    tick ends the game. *)
Theorem tail_is_self_collision fuel g h t :
  state g = PLAYING → invincible g = false → snake g = h :: t →
  outside_grid (next_head (direction g) h) = false →
  last (snake g) = Some (next_head (direction g) h) →
  classify (next_head (direction g) h) (snake g) (invincible g) = SelfHit ∧
  update fuel g = Ok (game_over g) ∧
  state (game_over g) ∈ [GAME_OVER; NEW_HIGH_SCORE].
Proof.
  intros Hs Hinv Hb Hin Hlast.
  assert (Hc : classify (next_head (direction g) h) (snake g) (invincible g)
               = SelfHit).
  { unfold classify. rewrite Hin, Hinv.
    rewrite bool_decide_eq_true_2; [done|].
    apply last_Some in Hlast as [l' ->].
    apply elem_of_app. right. apply list_elem_of_here. }
  split; [done|]. split; [|apply game_over_state].
  by rewrite (update_playing fuel g h t Hs Hb), Hc.
Qed.

Lemma tail_is_self_collision_witness :
  state square_game = PLAYING ∧ invincible square_game = false ∧
  outside_grid (next_head (direction square_game) (22, 14)) = false ∧
  last (snake square_game) = Some (next_head (direction square_game) (22, 14)) ∧
  classify (next_head (direction square_game) (22, 14)) (snake square_game)
    (invincible square_game) = SelfHit ∧
  update 0 square_game = Ok (game_over square_game) ∧
  state (game_over square_game) ∈ [GAME_OVER; NEW_HIGH_SCORE].
Proof.
  split; [reflexivity|]. split; [reflexivity|]. split; [reflexivity|].
  split; [reflexivity|].
  exact (tail_is_self_collision 0 square_game (22, 14)
           [(23, 14); (23, 15); (22, 15)] eq_refl eq_refl eq_refl eq_refl
           eq_refl).
Defined.

(** C1 fails as stated: in the reachable game [square_game] the snake is not
    invincible, the candidate head (22, 15) is the cell of the tail and of
    no other segment, the food is elsewhere, and yet the move is a
    [SelfHit] and the game leaves [PLAYING]. *)
Lemma tail_move_ends_game :
  reachable square_game ∧
  state square_game = PLAYING ∧ invincible square_game = false ∧
  next_head (direction square_game) (22, 14) = (22, 15) ∧
  (22, 15) ≠ food square_game ∧
  last (snake square_game) = Some (22, 15) ∧
  ((22, 15) ∉ removelast (snake square_game)) ∧
  classify (22, 15) (snake square_game) (invincible square_game) = SelfHit ∧
  ∃ g', update 1 square_game = Ok g' ∧ state g' = NEW_HIGH_SCORE.
Proof.
  split; [apply square_game_reachable|].
  split; [reflexivity|]. split; [reflexivity|]. split; [reflexivity|].
  split; [discriminate|]. split; [reflexivity|].
  split; [apply (bool_decide_unpack _); vm_compute; exact I|].
  split; [reflexivity|].
  eexists. split; [vm_compute; reflexivity|reflexivity].
Qed.

(** C2, as the code has it.  A tick that does not end the game keeps the
    snake free of duplicates whenever the cell the head lands on is not on
    the snake, which is the case of every such tick of a vulnerable
    snake. *)
Theorem no_duplicates_preserved fuel g h t :
  state g = PLAYING → snake g = h :: t → NoDup (snake g) →
  hit (classify (next_head (direction g) h) (snake g) (invincible g)) = false →
  invincible g = false ∨ landing (next_head (direction g) h) ∉ snake g →
  food_placed fuel (landing (next_head (direction g) h)) g →
  ∃ g', update fuel g = Ok g' ∧ state g' = PLAYING ∧ NoDup (snake g').
Proof.
  intros Hs Hb Hnd Hclear Hoff Hplaced.
  assert (Hfree : landing (next_head (direction g) h) ∉ snake g).
  { destruct Hoff as [Hinv|Hfree]; [|done]. rewrite Hinv in Hclear.
    destruct (clear_vulnerable _ _ Hclear) as (_ & -> & Hfree). done. }
  rewrite (update_playing fuel g h t Hs Hb), Hclear.
  destruct (move_spec fuel _ g Hplaced) as (g' & Hmove & Hst & _ & Heat & Hpass).
  exists g'. split; [done|]. split; [congruence|].
  assert (Hnd' : NoDup (landing (next_head (direction g) h) :: snake g))
    by by apply NoDup_cons.
  destruct (decide (landing (next_head (direction g) h) = food g)) as [He|Hne].
  - by destruct (Heat He) as (-> & _).
  - destruct (Hpass Hne) as (-> & _). by apply NoDup_removelast.
Qed.

Lemma no_duplicates_preserved_witness :
  state bonus_game = PLAYING ∧ NoDup (snake bonus_game) ∧
  hit (classify (next_head (direction bonus_game) (22, 15)) (snake bonus_game)
         (invincible bonus_game)) = false ∧
  invincible bonus_game = false ∧
  food_placed 1 (landing (next_head (direction bonus_game) (22, 15)))
    bonus_game ∧
  ∃ g', update 1 bonus_game = Ok g' ∧ state g' = PLAYING ∧ NoDup (snake g').
Proof.
  assert (Hnd : NoDup (snake bonus_game))
    by (apply (bool_decide_unpack _); vm_compute; exact I).
  assert (Hplaced : food_placed 1
            (landing (next_head (direction bonus_game) (22, 15))) bonus_game).
  { intros _. exists 0%nat. split; [lia|].
    apply (bool_decide_unpack _); vm_compute; exact I. }
  split; [reflexivity|]. split; [exact Hnd|]. split; [reflexivity|].
  split; [reflexivity|]. split; [exact Hplaced|].
  exact (no_duplicates_preserved 1 bonus_game (22, 15) [(21, 15); (20, 15)]
           eq_refl eq_refl Hnd eq_refl (or_introl eq_refl) Hplaced).
Defined.

(** C2 fails as stated: the reachable game [loop_game] is invincible, its
    snake has no duplicates, the update completes and stays [PLAYING], and
    the snake then holds the cell (24, 15) twice. *)
Lemma invincible_snake_overlaps :
  reachable loop_game ∧ state loop_game = PLAYING ∧
  invincible loop_game = true ∧ NoDup (snake loop_game) ∧
  ∃ g', update 1 loop_game = Ok g' ∧ state g' = PLAYING ∧
    snake g' = [(24, 15); (24, 14); (25, 14); (25, 15); (24, 15)] ∧
    ¬ NoDup (snake g').
Proof.
  split; [apply loop_game_reachable|].
  split; [reflexivity|]. split; [reflexivity|].
  split; [apply (bool_decide_unpack _); vm_compute; exact I|].
  eexists. split; [vm_compute; reflexivity|].
  split; [reflexivity|]. split; [reflexivity|].
  cbn [snake]. intros [Hn _]%NoDup_cons. apply Hn.
  do 3 apply list_elem_of_further. apply list_elem_of_here.
Qed.

(** C3, as the code has it.  On a tick that does not end the game: if the
    head lands on the food, the snake grows by one segment, a new food
    position inside the grid and off the snake is produced, and the score
    grows by 10 plus 50 for each score power-up lying on that cell, hence by
    exactly 10 when there is none; otherwise the length of the snake is
    unchanged. *)
Theorem tick_food_postcondition fuel g h t :
  state g = PLAYING → snake g = h :: t →
  hit (classify (next_head (direction g) h) (snake g) (invincible g)) = false →
  food_placed fuel (landing (next_head (direction g) h)) g →
  ∃ g', update fuel g = Ok g' ∧ state g' = PLAYING ∧
    (landing (next_head (direction g) h) = food g →
       length (snake g') = S (length (snake g)) ∧
       score g' = score g + 10
                  + score_bonus (landing (next_head (direction g) h))
                      (powerups g) ∧
       ((∀ p, p ∈ powerups g →
           on_cell (landing (next_head (direction g) h)) p →
           pu_type p ≠ score_type) → score g' = score g + 10) ∧
       (food g' ∉ snake g') ∧ in_grid (food g')) ∧
    (landing (next_head (direction g) h) ≠ food g →
       length (snake g') = length (snake g)).
Proof.
  intros Hs Hb Hclear Hplaced.
  rewrite (update_playing fuel g h t Hs Hb), Hclear.
  destruct (move_spec fuel _ g Hplaced) as (g' & Hmove & Hst & _ & Heat & Hpass).
  exists g'. split; [done|]. split; [congruence|]. split.
  - intros He. destruct (Heat He) as (Hsn & Hsc & Hf & Hgrid).
    split; [by rewrite Hsn|]. split; [done|]. split; [|done].
    intros Hnone. rewrite Hsc, (score_bonus_none _ _ Hnone). lia.
  - intros Hne. destruct (Hpass Hne) as (-> & _).
    by rewrite length_removelast_cons.
Qed.

Lemma tick_food_postcondition_witness :
  state bonus_game = PLAYING ∧
  hit (classify (next_head (direction bonus_game) (22, 15)) (snake bonus_game)
         (invincible bonus_game)) = false ∧
  food_placed 1 (landing (next_head (direction bonus_game) (22, 15)))
    bonus_game ∧
  ∃ g', update 1 bonus_game = Ok g' ∧ state g' = PLAYING ∧
    length (snake g') = 4%nat ∧ score g' = 80 ∧ (food g' ∉ snake g').
Proof.
  assert (Hplaced : food_placed 1
            (landing (next_head (direction bonus_game) (22, 15))) bonus_game).
  { intros _. exists 0%nat. split; [lia|].
    apply (bool_decide_unpack _); vm_compute; exact I. }
  split; [reflexivity|]. split; [reflexivity|]. split; [exact Hplaced|].
  destruct (tick_food_postcondition 1 bonus_game (22, 15) [(21, 15); (20, 15)]
              eq_refl eq_refl eq_refl Hplaced)
    as (g' & Hup & Hst & Heat & _).
  destruct (Heat eq_refl) as (Hlen & Hsc & _ & Hfood & _).
  exists g'. split; [exact Hup|]. split; [exact Hst|].
  split; [exact Hlen|]. split; [exact Hsc|exact Hfood].
Defined.

(** C3 fails as stated: in the reachable game [bonus_game] the head lands on
    the food, on which a score power-up lies as well; the tick goes on
    [PLAYING] and the score grows by 60, not by 10. *)
Lemma food_under_score_powerup :
  reachable bonus_game ∧ state bonus_game = PLAYING ∧
  landing (next_head (direction bonus_game) (22, 15)) = food bonus_game ∧
  ∃ g', update 1 bonus_game = Ok g' ∧ state g' = PLAYING ∧
    score g' = score bonus_game + 60 ∧ score g' ≠ score bonus_game + 10.
Proof.
  split; [apply bonus_game_reachable|].
  split; [reflexivity|]. split; [reflexivity|].
  eexists. split; [vm_compute; reflexivity|].
  split; [reflexivity|]. split; [reflexivity|]. discriminate.
Qed.

(** C8, as the code has it.  [generate_food] returns the first drawn cell
    that is not on the snake: as soon as one of the cells drawn within the
    fuel is free, it terminates, and what it returns is that first free
    cell, inside the grid and on no segment. *)
Theorem generate_food_first_free fuel body r k :
  (k < fuel)%nat → drawn_cell r k ∉ body →
  ∃ j r', (j ≤ k)%nat ∧
    generate_food fuel body r = Ok (drawn_cell r j, r') ∧
    (∀ i, (i < j)%nat → drawn_cell r i ∈ body) ∧
    (drawn_cell r j ∉ body) ∧ in_grid (drawn_cell r j).
Proof.
  intros Hk Hfree.
  destruct (generate_food_first fuel body r k Hk Hfree)
    as (j & r' & Hj & Hgen & Hbefore).
  exists j, r'. split; [done|]. split; [done|]. split; [done|].
  by apply (generate_food_sound fuel body r _ r').
Qed.

Lemma generate_food_first_free_witness :
  (1 < 2)%nat ∧ (drawn_cell (replay [20; 15; 3; 4]) 1 ∉ [(20, 15)]) ∧
  ∃ j r', (j ≤ 1)%nat ∧
    generate_food 2 [(20, 15)] (replay [20; 15; 3; 4])
      = Ok (drawn_cell (replay [20; 15; 3; 4]) j, r') ∧
    (∀ i, (i < j)%nat → drawn_cell (replay [20; 15; 3; 4]) i ∈ [(20, 15)]) ∧
    (drawn_cell (replay [20; 15; 3; 4]) j ∉ [(20, 15)]) ∧
    in_grid (drawn_cell (replay [20; 15; 3; 4]) j).
Proof.
  assert (Hk : (1 < 2)%nat) by lia.
  assert (Hfree : drawn_cell (replay [20; 15; 3; 4]) 1 ∉ [(20, 15)])
    by (apply (bool_decide_unpack _); vm_compute; exact I).
  split; [exact Hk|]. split; [exact Hfree|].
  exact (generate_food_first_free 2 [(20, 15)] (replay [20; 15; 3; 4]) 1
           Hk Hfree).
Defined.

(** C8 fails as stated: when the snake covers the whole grid,
    [generate_food] returns on no sequence of draws and with no amount of
    fuel; there is no outcome that reports the missing space. *)
Lemma generate_food_full_board_never_returns :
  ¬ ∃ fuel r p r', generate_food fuel full_board r = Ok (p, r').
Proof.
  intros (fuel & r & p & r' & Hgen).
  destruct (generate_food_sound _ _ _ _ _ Hgen) as [Hfree Hgrid].
  by apply Hfree, full_board_full.
Qed.

End SnakeProofs.

(** * Proofs: the Game of Life *)

Module LifeProofs.
Import Life LifeSpec.

(** ** Python list operations inside the bounds *)

Lemma py_index_lookup {A} (l : list A) (i : Z) (a : A) :
  0 ≤ i → l !! Z.to_nat i = Some a → py_index l i = Ok a.
Proof.
  intros Hi Hl. pose proof (lookup_lt_Some _ _ _ Hl) as Hlen.
  unfold py_index, py_position. cbv zeta.
  rewrite (bool_decide_eq_false_2 (i < 0)) by lia.
  rewrite bool_decide_eq_true_2 by lia.
  cbn [mbind result_bind]. by rewrite Hl.
Qed.

Lemma py_store_insert {A} (l : list A) (i : Z) (v : A) :
  0 ≤ i < Z.of_nat (length l) → py_store l i v = Ok (<[Z.to_nat i := v]> l).
Proof.
  intros Hi. unfold py_store, py_position. cbv zeta.
  rewrite (bool_decide_eq_false_2 (i < 0)) by lia.
  by rewrite bool_decide_eq_true_2 by lia.
Qed.

Lemma py_mod_nonzero a b : b ≠ 0 → py_mod a b = Ok (a `mod` b).
Proof. intros Hb. unfold py_mod. by rewrite bool_decide_eq_false_2. Qed.

(** ** Reading a well-formed grid *)

Lemma width_head grid row0 : grid !! 0%nat = Some row0 →
  width grid = Z.of_nat (length row0).
Proof. destruct grid as [|r grid]; [done|]. by intros [= ->]. Qed.

Lemma well_formed_row0 grid : well_formed grid →
  ∃ row0, grid !! 0%nat = Some row0 ∧ width grid = Z.of_nat (length row0).
Proof.
  intros (Hne & _). destruct grid as [|row0 grid]; [done|].
  exists row0. split; [done|]. by apply width_head.
Qed.

(** The rows of a grid of the shape of [grid]. *)
Lemma shaped_row grid g y : shaped grid g → 0 ≤ y < height grid →
  ∃ row, g !! Z.to_nat y = Some row ∧ Z.of_nat (length row) = width grid.
Proof.
  intros [Hlen Hrows] Hy. unfold height in Hy.
  destruct (lookup_lt_is_Some_2 g (Z.to_nat y)) as [row Hrow]; [lia|].
  exists row. split; [done|]. by apply (Forall_lookup_1 _ _ _ _ Hrows Hrow).
Qed.

Lemma shaped_cell grid g x y : shaped grid g → in_range grid x y →
  ∃ row, g !! Z.to_nat y = Some row ∧ Z.of_nat (length row) = width grid ∧
         row !! Z.to_nat x = Some (cell_at g x y).
Proof.
  intros Hsh [Hx Hy]. destruct (shaped_row grid g y Hsh Hy) as (row & Hrow & Hw).
  exists row. split; [done|]. split; [done|].
  destruct (lookup_lt_is_Some_2 row (Z.to_nat x)) as [c Hc]; [lia|].
  unfold cell_at. rewrite Hrow. simpl. by rewrite Hc.
Qed.

Lemma well_formed_shaped grid : well_formed grid → shaped grid grid.
Proof. by intros (_ & Hrows & _). Qed.

Lemma well_formed_binary grid x y : well_formed grid → in_range grid x y →
  cell_at grid x y = 0 ∨ cell_at grid x y = 1.
Proof.
  intros Hwf Hin.
  destruct (shaped_cell grid grid x y (well_formed_shaped _ Hwf) Hin)
    as (row & Hrow & _ & Hc).
  destruct Hwf as (_ & _ & Hbin).
  pose proof (Forall_lookup_1 _ _ _ _ Hbin Hrow) as Hrowbin.
  by apply (Forall_lookup_1 _ _ _ _ Hrowbin Hc).
Qed.

(** Reading [grid[y][x]]. *)
Lemma read_cell {B} grid g x y (k : Z → result B) :
  shaped grid g → in_range grid x y →
  (row ← py_index g y; cell ← py_index row x; k cell) = k (cell_at g x y).
Proof.
  intros Hsh Hin. destruct (shaped_cell grid g x y Hsh Hin) as (row & Hrow & _ & Hc).
  destruct Hin as [Hx Hy].
  rewrite (py_index_lookup g y row) by (done || lia). cbn [mbind result_bind].
  by rewrite (py_index_lookup row x _) by (done || lia).
Qed.

(** ** [count_neighbors] *)

Lemma wrapped_in_range grid x y a b :
  in_range grid x y → in_range grid (a `mod` width grid) (b `mod` height grid).
Proof. intros [Hx Hy]. split; apply Z.mod_pos_bound; lia. Qed.

Lemma add_neighbor_self grid w h x y count :
  add_neighbor grid w h x y 0 count 0 = Ok count.
Proof. done. Qed.

Lemma add_neighbor_read grid x y dx dy count :
  well_formed grid → in_range grid x y → dx ≠ 0 ∨ dy ≠ 0 →
  add_neighbor grid (width grid) (height grid) x y dx count dy =
    Ok (count + cell_at grid ((x + dx) `mod` width grid)
                  ((y + dy) `mod` height grid)).
Proof.
  intros Hwf Hin Hd. unfold add_neighbor.
  assert (bool_decide (dx = 0) && bool_decide (dy = 0) = false) as ->.
  { destruct Hd; [rewrite (bool_decide_eq_false_2 (dx = 0)) by done|
                  rewrite (bool_decide_eq_false_2 (dy = 0)) by done];
      [done|apply andb_false_r]. }
  destruct Hin as [Hx Hy].
  rewrite !py_mod_nonzero by lia. cbn [mbind result_bind].
  apply (read_cell grid grid _ _ (λ cell, Ok (count + cell))).
  - by apply well_formed_shaped.
  - by apply (wrapped_in_range grid x y).
Qed.

Lemma sum_live grid x y ds : ∀ a,
  (∀ d, d ∈ ds →
     cell_at grid ((x + d.1) `mod` width grid) ((y + d.2) `mod` height grid) = 0 ∨
     cell_at grid ((x + d.1) `mod` width grid) ((y + d.2) `mod` height grid) = 1) →
  foldl (λ acc d, acc + cell_at grid ((x + d.1) `mod` width grid)
                          ((y + d.2) `mod` height grid)) a ds
  = a + Z.of_nat (length (filter
      (λ d, alive grid ((x + d.1) `mod` width grid)
              ((y + d.2) `mod` height grid) = true) ds)).
Proof.
  induction ds as [|d ds IH]; intros a Hbin; [simpl; lia|].
  cbn [foldl]. rewrite IH by (intros d' Hd'; apply Hbin; by right).
  rewrite filter_cons.
  destruct (decide _) as [Ha|Ha]; unfold alive in Ha.
  - apply bool_decide_eq_true in Ha. rewrite Ha. cbn [length]. lia.
  - apply not_true_is_false, bool_decide_eq_false in Ha.
    destruct (Hbin d) as [H0|H1]; [by left| |done]. rewrite H0. lia.
Qed.

Lemma count_neighbors_live grid x y :
  well_formed grid → in_range grid x y →
  count_neighbors grid x y = Ok (live_neighbors grid x y).
Proof.
  intros Hwf Hin. unfold count_neighbors.
  destruct (well_formed_row0 grid Hwf) as (row0 & H0 & Hw).
  rewrite (py_index_lookup grid 0 row0) by done.
  cbn [mbind result_bind]. rewrite <- Hw. fold (height grid).
  cbn [for_each].
  repeat (first [ rewrite add_neighbor_self
                | rewrite add_neighbor_read by (done || (left; done) || (right; done)) ];
          cbn [mbind result_bind]).
  f_equal. unfold live_neighbors.
  rewrite <- (Z.add_0_l (Z.of_nat _)).
  apply (sum_live grid x y offsets 0).
  intros d _. apply well_formed_binary; [done|].
  by apply (wrapped_in_range grid x y).
Qed.

(** ** Writing a cell of the new grid *)

Lemma store_cell_insert grid g x y row v :
  shaped grid g → in_range grid x y → g !! Z.to_nat y = Some row →
  store_cell g y x v = Ok (<[Z.to_nat y := <[Z.to_nat x := v]> row]> g).
Proof.
  intros Hsh [Hx Hy] Hrow. unfold store_cell.
  pose proof (lookup_lt_Some _ _ _ Hrow) as Hlen.
  destruct (shaped_row grid g y Hsh Hy) as (row' & Hrow' & Hw).
  assert (row' = row) as -> by congruence.
  rewrite (py_index_lookup g y row) by (done || lia).
  cbn [mbind result_bind]. rewrite py_store_insert by lia.
  cbn [mbind result_bind]. by rewrite py_store_insert by lia.
Qed.

Lemma shaped_insert grid g x y row v :
  shaped grid g → g !! Z.to_nat y = Some row →
  shaped grid (<[Z.to_nat y := <[Z.to_nat x := v]> row]> g).
Proof.
  intros [Hlen Hrows] Hrow. split; [by rewrite length_insert|].
  apply Forall_insert; [done|]. rewrite length_insert.
  by apply (Forall_lookup_1 _ _ _ _ Hrows Hrow).
Qed.

Lemma cell_at_insert g x y x' y' row v :
  0 ≤ x → 0 ≤ y → 0 ≤ x' → 0 ≤ y' →
  g !! Z.to_nat y = Some row → (Z.to_nat x < length row)%nat →
  cell_at (<[Z.to_nat y := <[Z.to_nat x := v]> row]> g) x' y' =
    if decide (x' = x ∧ y' = y) then v else cell_at g x' y'.
Proof.
  intros Hx Hy Hx' Hy' Hrow Hlen. unfold cell_at.
  pose proof (lookup_lt_Some _ _ _ Hrow) as Hleny.
  destruct (decide (y' = y)) as [->|Hny].
  - rewrite list_lookup_insert_eq by done. rewrite Hrow. simpl.
    destruct (decide (x' = x)) as [->|Hnx].
    + rewrite list_lookup_insert_eq by done. by rewrite decide_True.
    + rewrite list_lookup_insert_ne by lia.
      by rewrite decide_False by (by intros [? _]).
  - rewrite list_lookup_insert_ne by lia.
    by rewrite decide_False by (by intros [_ ?]).
Qed.

(** ** The loops of [next_generation] *)

Lemma next_state_rule grid x y :
  well_formed grid → in_range grid x y →
  (bool_decide (cell_at grid x y = 1)
     && bool_decide (live_neighbors grid x y ∈ [2; 3])
   = true → next_state grid x y = 1) ∧
  (bool_decide (cell_at grid x y = 1)
     && bool_decide (live_neighbors grid x y ∈ [2; 3])
   = false →
   bool_decide (cell_at grid x y = 0)
     && bool_decide (live_neighbors grid x y = 3)
   = true → next_state grid x y = 1) ∧
  (bool_decide (cell_at grid x y = 1)
     && bool_decide (live_neighbors grid x y ∈ [2; 3])
   = false →
   bool_decide (cell_at grid x y = 0)
     && bool_decide (live_neighbors grid x y = 3)
   = false → next_state grid x y = 0).
Proof.
  intros Hwf Hin. unfold next_state, rule, alive.
  destruct (well_formed_binary grid x y Hwf Hin) as [-> | ->];
    rewrite ?(bool_decide_eq_true_2 (1 = 1)), ?(bool_decide_eq_true_2 (0 = 0)),
      ?(bool_decide_eq_false_2 (0 = 1)), ?(bool_decide_eq_false_2 (1 = 0))
      by done; cbn [andb].
  - split; [done|]. split.
    + intros _ ->. done.
    + intros _ ->. done.
  - assert (bool_decide (live_neighbors grid x y ∈ [2; 3])
            = bool_decide (live_neighbors grid x y = 2
                           ∨ live_neighbors grid x y = 3)) as ->.
    { apply bool_decide_ext. rewrite !elem_of_cons, elem_of_nil. tauto. }
    split; [by intros ->|]. split; [done|]. by intros ->.
Qed.

Lemma painted_weaken grid g (D D' : Z → Z → Prop) :
  painted grid g D → (∀ x y, in_range grid x y → D' x y → D x y) →
  painted grid g D'.
Proof.
  intros [Hsh Hp] Himp. split; [done|]. intros x y Hin.
  destruct (Hp x y Hin) as [Hd Hz]. split; [|done].
  intros HD'. by apply Hd, Himp.
Qed.

(** One turn of the inner loop paints the cell [(x, y)]. *)
Lemma next_cell_paints grid g D x y :
  well_formed grid → in_range grid x y → painted grid g D →
  ∃ g', next_cell grid y g x = Ok g' ∧
        painted grid g' (λ x' y', D x' y' ∨ (x' = x ∧ y' = y)).
Proof.
  intros Hwf Hin [Hsh Hp]. unfold next_cell.
  rewrite (count_neighbors_live grid x y Hwf Hin). cbn [mbind result_bind].
  rewrite (read_cell grid grid x y _ (well_formed_shaped _ Hwf) Hin).
  destruct (next_state_rule grid x y Hwf Hin) as (Hlive & Hborn & Hdead).
  destruct (shaped_cell grid g x y Hsh Hin) as (row & Hrow & Hw & Hc).
  pose proof (lookup_lt_Some _ _ _ Hc) as Hlen.
  assert (Hset : next_state grid x y = 1 →
    ∃ g', store_cell g y x 1 = Ok g' ∧
          painted grid g' (λ x' y', D x' y' ∨ (x' = x ∧ y' = y))).
  { intros Hnext. eexists. split; [by apply (store_cell_insert grid)|].
    split; [by apply shaped_insert|]. intros x' y' Hin'.
    rewrite (cell_at_insert g x y x' y' row 1)
      by (done || apply Hin || apply Hin').
    destruct (decide (x' = x ∧ y' = y)) as [[-> ->]|Hne].
    - split; [done|by right].
    - destruct (Hp x' y' Hin') as [Hd Hz]. split; [|done].
      intros [HD|Heq]; [by apply Hd|done]. }
  destruct (bool_decide (cell_at grid x y = 1)
            && bool_decide (live_neighbors grid x y ∈ [2; 3])) eqn:H1;
    [by apply Hset, Hlive|].
  destruct (bool_decide (cell_at grid x y = 0)
            && bool_decide (live_neighbors grid x y = 3)) eqn:H2;
    [by apply Hset, Hborn|].
  exists g. split; [done|]. split; [done|]. intros x' y' Hin'.
  destruct (Hp x' y' Hin') as [Hd Hz]. split; [|done].
  intros [HD|[-> ->]]; [by apply Hd|].
  specialize (Hdead eq_refl eq_refl). rewrite Hdead.
  destruct Hz as [Hz|Hz]; [done|]. by rewrite Hz.
Qed.

(** The inner loop paints the cells of row [y] whose column is in [xs]. *)
Lemma inner_loop_paints grid y xs : ∀ g D,
  well_formed grid → 0 ≤ y < height grid →
  (∀ x, x ∈ xs → 0 ≤ x < width grid) → painted grid g D →
  ∃ g', for_each (next_cell grid y) g xs = Ok g' ∧
        painted grid g' (λ x' y', D x' y' ∨ (x' ∈ xs ∧ y' = y)).
Proof.
  induction xs as [|x xs IH]; intros g D Hwf Hy Hxs Hp.
  - exists g. split; [done|]. apply (painted_weaken grid g D); [done|].
    intros x' y' _ [HD|[Hin _]]; [done|by apply elem_of_nil in Hin].
  - cbn [for_each].
    destruct (next_cell_paints grid g D x y Hwf) as (g1 & -> & Hp1); [|done|].
    { split; [apply Hxs; by left|done]. }
    cbn [mbind result_bind].
    assert (Hxs' : ∀ x', x' ∈ xs → 0 ≤ x' < width grid)
      by (intros x' Hx'; apply Hxs; by right).
    destruct (IH g1 _ Hwf Hy Hxs' Hp1) as (g' & -> & Hp').
    exists g'. split; [done|]. apply (painted_weaken grid g' _ _ Hp').
    intros x' y' _ [HD|[Hin ->]]; [by left; left|].
    apply elem_of_cons in Hin as [->|Hin]; [left; by right|right; done].
Qed.

(** The outer loop paints the rows of [ys]. *)
Lemma outer_loop_paints grid ys : ∀ g D,
  well_formed grid → (∀ y, y ∈ ys → 0 ≤ y < height grid) → painted grid g D →
  ∃ g', for_each
          (λ new_grid y,
             for_each (next_cell grid y) new_grid (range (width grid)))
          g ys = Ok g' ∧
        painted grid g'
          (λ x' y', D x' y' ∨ (x' ∈ range (width grid) ∧ y' ∈ ys)).
Proof.
  induction ys as [|y ys IH]; intros g D Hwf Hys Hp.
  - exists g. split; [done|]. apply (painted_weaken grid g D); [done|].
    intros x' y' _ [HD|[_ Hin]]; [done|by apply elem_of_nil in Hin].
  - cbn [for_each].
    destruct (inner_loop_paints grid y (range (width grid)) g D Hwf)
      as (g1 & -> & Hp1); [| |done|].
    { apply Hys. by left. }
    { intros x Hx. unfold range in Hx. apply elem_of_seqZ in Hx. lia. }
    cbn [mbind result_bind].
    assert (Hys' : ∀ y', y' ∈ ys → 0 ≤ y' < height grid)
      by (intros y' Hy'; apply Hys; by right).
    destruct (IH g1 _ Hwf Hys' Hp1) as (g' & -> & Hp').
    exists g'. split; [done|]. apply (painted_weaken grid g' _ _ Hp').
    intros x' y' _ [HD|[Hx Hin]]; [by left; left|].
    apply elem_of_cons in Hin as [->|Hin]; [left; by right|right; done].
Qed.

(** The grid of zeros the loops start from. *)
Lemma zeros_painted grid :
  painted grid
    (replicate (Z.to_nat (height grid))
       (replicate (Z.to_nat (width grid)) 0))
    (λ _ _, False).
Proof.
  assert (Hw : 0 ≤ width grid) by (unfold width; lia).
  split.
  - split; [rewrite length_replicate; unfold height; lia|].
    apply Forall_replicate. rewrite length_replicate. lia.
  - intros x y [Hx Hy]. split; [done|]. left. unfold cell_at.
    rewrite lookup_replicate_2 by lia. simpl.
    by rewrite lookup_replicate_2 by lia.
Qed.

(** C9.  [next_generation] applies the rule to every cell of the grid it was
    given: on a well-formed grid it returns a grid of the same dimensions in
    which a cell holds [1] if, in the given grid, it was alive with exactly
    2 or 3 live neighbours among the eight toroidal ones, or dead with
    exactly 3, and holds [0] in every other case. *)
Theorem next_generation_rule grid :
  well_formed grid →
  ∃ new_grid, next_generation grid = Ok new_grid ∧
    length new_grid = length grid ∧
    Forall (λ row, Z.of_nat (length row) = width grid) new_grid ∧
    ∀ x y, 0 ≤ x < width grid → 0 ≤ y < height grid →
      cell_at new_grid x y =
        if rule (alive grid x y) (live_neighbors grid x y) then 1 else 0.
Proof.
  intros Hwf. unfold next_generation.
  destruct (well_formed_row0 grid Hwf) as (row0 & H0 & Hw).
  rewrite (py_index_lookup grid 0 row0) by done.
  cbn [mbind result_bind]. rewrite <- Hw. fold (height grid).
  assert (Hys : ∀ y, y ∈ range (height grid) → 0 ≤ y < height grid).
  { intros y Hy. unfold range in Hy. apply elem_of_seqZ in Hy. lia. }
  destruct (outer_loop_paints grid (range (height grid)) _ _ Hwf Hys
              (zeros_painted grid)) as (g' & Hloop & [[Hlen Hrows] Hp]).
  exists g'. split; [done|]. split; [done|]. split; [done|].
  intros x y Hx Hy. destruct (Hp x y) as [Hd _]; [done|]. apply Hd.
  right. split; unfold range; apply elem_of_seqZ; lia.
Qed.

(** The vertical blinker turns into the horizontal one. *)
Example blinker_turns :
  next_generation blinker =
    Ok [[0; 0; 0; 0; 0];
        [0; 0; 0; 0; 0];
        [0; 1; 1; 1; 0];
        [0; 0; 0; 0; 0];
        [0; 0; 0; 0; 0]].
Proof. vm_compute. reflexivity. Qed.

Lemma next_generation_rule_witness :
  well_formed blinker ∧
  ∃ new_grid, next_generation blinker = Ok new_grid ∧
    length new_grid = length blinker ∧
    Forall (λ row, Z.of_nat (length row) = width blinker) new_grid ∧
    ∀ x y, 0 ≤ x < width blinker → 0 ≤ y < height blinker →
      cell_at new_grid x y =
        if rule (alive blinker x y) (live_neighbors blinker x y) then 1 else 0.
Proof.
  assert (Hwf : well_formed blinker).
  { split; [discriminate|].
    split; apply (bool_decide_unpack _); vm_compute; exact I. }
  split; [exact Hwf|]. exact (next_generation_rule blinker Hwf).
Defined.

End LifeProofs.

(** * Proofs: the game while it runs *)

Module SnakeInvariants.
Import Snake SnakeSpec SnakeExamples SnakeProofs.

Lemma outside_grid_false p : outside_grid p = false ↔ in_grid p.
Proof.
  unfold outside_grid, in_grid, GRID_WIDTH, GRID_HEIGHT.
  rewrite !orb_false_iff, !bool_decide_eq_false. lia.
Qed.

Lemma wrap_in_grid p : in_grid (wrap p).
Proof. split; apply Z.mod_pos_bound; reflexivity. Qed.

Lemma wrap_id p : in_grid p → wrap p = p.
Proof.
  destruct p as [x y]. intros [Hx Hy]. simpl in *. unfold wrap. simpl.
  by rewrite !Z.mod_small by lia.
Qed.

Lemma landing_wrap n : landing n = wrap n.
Proof.
  unfold landing. destruct (outside_grid n) eqn:Hout; [done|].
  symmetry. by apply wrap_id, outside_grid_false.
Qed.

Lemma torus_path_removelast l : torus_path l → torus_path (removelast l).
Proof.
  induction l as [|a l IH]; [done|]. intros [Ha Hl].
  destruct l as [|b l]; [done|].
  change (removelast (a :: b :: l)) with (a :: removelast (b :: l)).
  split; [|by apply IH].
  destruct l as [|c l]; [done|]. exact Ha.
Qed.

Lemma elem_of_removelast {A} (x : A) l : x ∈ removelast l → x ∈ l.
Proof.
  induction l as [|a l IH]; [done|]. destruct l as [|b l].
  - simpl. by intros ?%elem_of_nil.
  - change (removelast (a :: b :: l)) with (a :: removelast (b :: l)).
    intros [->|Hin]%elem_of_cons; [by left|]. right. by apply IH.
Qed.

Lemma Forall_removelast {A} (P : A → Prop) l :
  Forall P l → Forall P (removelast l).
Proof.
  rewrite !Forall_forall. intros H x Hx. by apply H, elem_of_removelast.
Qed.

Lemma ticking_weaken b b' g : b ≤ b' → ticking b g → ticking b' g.
Proof.
  intros Hb [H1 H2 H3 [H4 H4'] H5 H6 H7 H8 H9]. split; try done.
  - split; [done|]. eapply Forall_impl; [exact H4'|].
    simpl. intros p [? ?]. split; [done|lia].
  - destruct (invincible g); lia.
Qed.

(** ** A fresh game *)

Lemma reset_game_ticking fuel g g' :
  reset_game fuel g = Ok g' →
  invariant g' ∧ high_score_txt g' = high_score_txt g ∧
  snake g' = [(20, 15)] ∧ score g' = 0 ∧ state g' = PLAYING ∧
  powerups g' = [] ∧ invincible g' = false ∧ speed g' = FPS ∧
  direction g' = RIGHT ∧ high_score g' = load_high_score g.
Proof.
  unfold reset_game. cbn [snake rng set_snake set_direction].
  destruct (generate_food _ _ _) as [[f r]| |] eqn:Hgen;
    cbn [mbind result_bind]; try done.
  intros [= <-].
  destruct (generate_food_sound _ _ _ _ _ Hgen) as [Hfree Hgrid].
  split; [|done]. split; cbn.
  - split; [done|]. repeat constructor; done.
  - done.
  - done.
  - split; [lia|constructor].
  - done.
  - done.
  - exists 0. lia.
  - exists 0. lia.
  - split; intros [=].
Qed.

(** ** Input *)

Lemma ticking_set_direction b d g : ticking b g → ticking b (set_direction d g).
Proof. by intros []. Qed.

Lemma ticking_set_state b s g :
  s = PLAYING ∨ s = PAUSED → ticking b g → ticking b (set_state s g).
Proof.
  intros Hs [H1 H2 H3 H4 H5 H6 H7 H8 H9]. split; try done.
  cbn. split; intros ->; by destruct Hs.
Qed.

Lemma handle_event_invariant fuel g e flow g' :
  invariant g → handle_event fuel g e = Ok (flow, g') → invariant g'.
Proof.
  intros Hinv. unfold handle_event. destruct e as [|key|].
  - by intros [= _ <-].
  - repeat (case_match; try (intros [= _ <-]; first
      [ done
      | by apply ticking_set_direction
      | apply ticking_set_state; [tauto|done] ])).
    destruct (reset_game fuel g) as [g1| |] eqn:Hreset;
      cbn [mbind result_bind]; try done.
    intros [= _ <-]. by apply reset_game_ticking in Hreset as [? _].
  - by intros [= _ <-].
Qed.

Lemma handle_input_invariant fuel events : ∀ g b g',
  invariant g → handle_input fuel events g = Ok (b, g') → invariant g'.
Proof.
  induction events as [|e events IH]; intros g b g' Hinv; cbn [handle_input].
  - by intros [= _ <-].
  - destruct (handle_event fuel g e) as [[flow g1]| |] eqn:He;
      cbn [mbind result_bind]; try done.
    apply handle_event_invariant in He; [|done].
    destruct flow; [by intros [= _ <-]|]. by apply IH.
Qed.

(** ** The end of a game *)

Lemma game_over_ticking b g : ticking b g → ticking b (game_over g).
Proof.
  intros [H1 H2 H3 H4 H5 H6 H7 H8 H9].
  unfold game_over, save_high_score. case_bool_decide as Hgt.
  - split; done.
  - split; done.
Qed.

(** ** The move *)

Lemma generate_powerup_cases g :
  let g' := generate_powerup g in
  powerups g' = powerups g ∨
  ((length (powerups g) < 2)%nat ∧
   ∃ p, powerups g' = powerups g ++ [p] ∧ in_grid (pu_x p, pu_y p) ∧
        ((pu_x p, pu_y p) ∉ snake g) ∧ (pu_x p, pu_y p) ≠ food g ∧
        lifetime p = 300).
Proof.
  unfold generate_powerup.
  destruct (random_lt _ _ _) as [lucky r0].
  destruct lucky; [|by left]. cbn [andb powerups set_rng rng].
  case_bool_decide as Hlen; [|by left].
  destruct (draw_turn r0) as [-> ->].
  destruct (drawn_cell r0 0) as [x y] eqn:Hcell. cbn [fst snd snake food set_rng].
  destruct (bool_decide ((x, y) ∉ _)) eqn:Hs; [|by left].
  destruct (bool_decide ((x, y) ≠ _)) eqn:Hf; [|by left].
  apply bool_decide_eq_true in Hs, Hf. cbn [andb rng set_rng].
  destruct (random_choice _ _ _) as [t r3]. right. split; [done|].
  exists (new_powerup x y t). cbn. split; [done|]. split; [|done].
  rewrite <- Hcell. apply drawn_cell_in_grid.
Qed.

Lemma foldl_effect_fields c l : ∀ g,
  let g' := foldl (effect c) g l in
  (∃ j, 0 ≤ j ∧ speed g' = speed g + 2 * j) ∧
  ((invincible g' = invincible g ∧ invincible_timer g' = invincible_timer g) ∨
   (invincible g' = true ∧ invincible_timer g' = 300)).
Proof.
  induction l as [|p l IH]; intros g; simpl.
  { split; [exists 0; lia|by left]. }
  destruct (IH (effect c g p)) as ((j & Hj & ->) & Hinv).
  unfold effect in *. case_bool_decide as Hon.
  - destruct (pu_type p); cbn in *.
    + split; [exists (j + 1); lia|done].
    + split; [exists j; lia|done].
    + split; [exists j; lia|]. right. destruct Hinv as [[-> ->]|]; done.
  - split; [exists j; lia|done].
Qed.


Lemma load_high_score_txt g g' :
  high_score_txt g' = high_score_txt g → load_high_score g' = load_high_score g.
Proof. unfold load_high_score. by intros ->. Qed.

Lemma check_food_ticking fuel d h t g g1 :
  ticking 300 g → state g = PLAYING → snake g = h :: t →
  check_food fuel (wrap (next_head d h))
    (set_snake (wrap (next_head d h) :: snake g) g) = Ok g1 →
  ticking 300 g1 ∧ state g1 = PLAYING.
Proof.
  intros [[_ Hgrid] Hpath [Hfg Hfs] [Hlen Hps] Htimer Hhigh (k & Hk & Hscore)
            Hspeed _] Hst Hb.
  set (c := wrap (next_head d h)).
  assert (Hstep : torus_step c h) by by exists d.
  unfold check_food. cbn [food set_snake snake rng score set_score].
  case_bool_decide as Hfood.
  - destruct (generate_food _ _ _) as [[f r]| |] eqn:Hgen;
      cbn [mbind result_bind]; try done.
    intros [= <-].
    destruct (generate_food_sound _ _ _ _ _ Hgen) as [Hfree Hfgrid].
    set (g2 := set_food f _).
    destruct (generate_powerup_frame g2)
      as (Hs & _ & Hf & Hsc & Hh & Hst' & Hi & Hit & Hsp & Htxt).
    assert (Hpu : (length (powerups (generate_powerup g2)) ≤ 2)%nat ∧
              Forall (λ p, in_grid (pu_x p, pu_y p) ∧ 0 < lifetime p ≤ 300)
                (powerups (generate_powerup g2))).
    { destruct (generate_powerup_cases g2)
        as [->|(Hlt & p & -> & Hpg & _ & _ & Hlife)]; [done|].
      change (powerups g2) with (powerups g) in *.
      rewrite length_app. cbn [length]. split; [lia|].
      apply Forall_app. split; [done|]. constructor; [|done].
      split; [done|lia]. }
    split; [|by rewrite Hst'].
    split; rewrite ?Hs, ?Hf, ?Hsc, ?Hh, ?Hst', ?Hi, ?Hit, ?Hsp,
             ?(load_high_score_txt _ _ Htxt); try exact Hpu; subst g2;
      cbn [snake food score high_score state invincible invincible_timer speed
           set_food set_rng set_score set_snake load_high_score high_score_txt].
    + split; [done|]. constructor; [apply wrap_in_grid|done].
    + rewrite Hb. split; [done|]. by rewrite <- Hb.
    + done.
    + done.
    + done.
    + exists k. split; [done|]. rewrite Hscore. cbn [length]. lia.
    + done.
    + by rewrite Hst.
  - cbn [list_pop mbind result_bind]. intros Heq.
    replace g1 with (set_snake (removelast (c :: snake g))
                       (set_snake (c :: snake g) g)) by congruence.
    clear Heq. split; [|done].
    split;
      cbn [snake food score high_score state invincible invincible_timer speed
           powerups set_snake load_high_score high_score_txt].
    + split.
      * rewrite Hb. by destruct t.
      * apply Forall_removelast. constructor; [apply wrap_in_grid|done].
    + apply torus_path_removelast. rewrite Hb. split; [done|]. by rewrite <- Hb.
    + split; [done|]. intros Hin%elem_of_removelast.
      apply elem_of_cons in Hin as [Heq|Hin]; [|done]. by apply Hfood.
    + done.
    + done.
    + done.
    + exists k. split; [done|]. rewrite length_removelast_cons. lia.
    + done.
    + by rewrite Hst.
Qed.

Lemma check_powerups_ticking c g g2 :
  ticking 300 g → state g = PLAYING → check_powerups c g = Ok g2 →
  ticking 300 g2 ∧ state g2 = PLAYING.
Proof.
  intros [Hsn Hpath Hfood [Hlen Hps] Htimer Hhigh (k & Hk & Hscore)
            (j & Hj & Hspeed) _] Hst.
  rewrite check_powerups_spec. intros [= <-].
  destruct (foldl_effect_frame c (powerups g) g)
    as (Hs & _ & Hf & Hh & Hst' & Htxt & _ & Hsc).
  destruct (foldl_effect_fields c (powerups g) g) as ((j' & Hj' & Hsp) & Hinv).
  split; [|cbn; congruence].
  unfold load_high_score in *.
  split;
    cbn [snake food score high_score state invincible invincible_timer speed
         powerups set_powerups high_score_txt];
    rewrite ?Hs, ?Hf, ?Hh, ?Hst', ?Hsc, ?Hsp, ?Htxt.
  - done.
  - done.
  - done.
  - split; [etrans; [apply length_filter|done]|].
    apply Forall_forall. intros p [_ Hp]%list_elem_of_filter.
    rewrite Forall_forall in Hps. by apply Hps.
  - destruct Hinv as [[-> ->]|[-> ->]]; [done|lia].
  - unfold load_high_score. cbn [high_score_txt set_powerups]. by rewrite Htxt.
  - unfold score_bonus.
    match goal with
    | |- context [Z.of_nat (length (filter ?P ?l))] =>
        exists (k + Z.of_nat (length (filter P l)))
    end.
    split; [lia|]. rewrite Hscore. lia.
  - exists (j + j'). split; [lia|]. rewrite Hspeed. lia.
  - by rewrite Hst.
Qed.

Lemma update_powerups_aged g p' :
  p' ∈ powerups (update_powerups g) →
  ∃ p, p ∈ powerups g ∧ pu_x p' = pu_x p ∧ pu_y p' = pu_y p ∧
       pu_type p' = pu_type p ∧ lifetime p' = lifetime p - 1 ∧ 0 < lifetime p'.
Proof.
  unfold update_powerups. cbn [powerups set_powerups].
  intros ([q b] & -> & Hin)%list_elem_of_fmap.
  apply list_elem_of_filter in Hin as [Hb Hin]. simpl in Hb. subst b.
  apply list_elem_of_fmap in Hin as (p & Heq & Hp).
  unfold powerup_update in Heq. injection Heq as -> Hpos.
  symmetry in Hpos. apply bool_decide_eq_true in Hpos. cbn in *.
  exists p. repeat split; try done. lia.
Qed.

Lemma end_of_move_ticking g :
  ticking 300 g → state g = PLAYING →
  invariant (update_powerups (update_invincible_timer g)) ∧
  state (update_powerups (update_invincible_timer g)) = PLAYING.
Proof.
  intros [Hsn Hpath Hfood [Hlen Hps] Htimer Hhigh Hscore Hspeed _] Hst.
  assert (Hfr : ∀ g', snake g' = snake g → food g' = food g →
            powerups g' = powerups g → score g' = score g →
            high_score g' = high_score g → state g' = state g →
            speed g' = speed g → high_score_txt g' = high_score_txt g →
            (if invincible g' then 0 < invincible_timer g' ≤ 299
             else invincible_timer g' = 0) →
            invariant (update_powerups g') ∧ state (update_powerups g') = PLAYING).
  { intros g' Hs Hf Hp Hsc Hh Hst' Hsp Htxt Hti. split; [|cbn; congruence].
    split; cbn [update_powerups snake food score high_score state speed
                 invincible invincible_timer set_powerups];
      rewrite ?Hs, ?Hf, ?Hsc, ?Hh, ?Hst', ?Hsp; try done.
    - split.
      + unfold update_powerups. cbn [powerups set_powerups]. rewrite length_fmap.
        etrans; [apply length_filter|]. rewrite length_fmap. by rewrite Hp.
      + apply Forall_forall. intros p' Hp'.
        apply update_powerups_aged in Hp' as (p & Hin & Hx & Hy & _ & Hl & Hpos).
        rewrite Hp in Hin. rewrite Forall_forall in Hps.
        destruct (Hps p Hin) as [Hg Hlife]. rewrite Hx, Hy. split; [done|lia].
    - unfold load_high_score. cbn. rewrite Htxt. exact Hhigh.
    - by rewrite Hst. }
  unfold update_invincible_timer. destruct (invincible g) eqn:Hinv.
  - cbn [invincible_timer set_invincible_timer]. case_bool_decide as Hz.
    + apply Hfr; try done. cbn. lia.
    + apply Hfr; try done. cbn. rewrite Hinv. lia.
  - apply Hfr; try done. by rewrite Hinv.
Qed.

Lemma move_invariant fuel d h t g g' :
  invariant g → state g = PLAYING → snake g = h :: t →
  move fuel (wrap (next_head d h)) g = Ok g' →
  invariant g' ∧ state g' = PLAYING.
Proof.
  intros Hinv Hst Hb. apply (ticking_weaken 299 300) in Hinv; [|lia].
  unfold move.
  destruct (check_food _ _ _) as [g1| |] eqn:Hfood;
    cbn [mbind result_bind]; try done.
  apply (check_food_ticking fuel d h t g g1 Hinv Hst Hb) in Hfood as [H1 Hst1].
  destruct (check_powerups _ g1) as [g2| |] eqn:Hpu;
    cbn [mbind result_bind]; try done.
  apply (check_powerups_ticking _ g1 g2 H1 Hst1) in Hpu as [H2 Hst2].
  intros [= <-]. by apply end_of_move_ticking.
Qed.

Lemma update_invariant fuel g g' :
  invariant g → update fuel g = Ok g' → invariant g'.
Proof.
  intros Hinv. destruct (decide (state g = PLAYING)) as [Hst|Hst].
  - destruct (snake g) as [|h t] eqn:Hb.
    { by destruct Hinv as [[? _]]. }
    rewrite (update_playing fuel g h t Hst Hb).
    destruct (hit _).
    + intros [= <-]. by apply game_over_ticking.
    + rewrite landing_wrap. intros Hmove.
      by apply (move_invariant fuel _ h t g g' Hinv Hst Hb) in Hmove as [? _].
  - rewrite update_not_playing by done. by intros [= <-].
Qed.

Lemma reachable_invariant g : reachable g → invariant g.
Proof.
  induction 1 as [fuel file r g Hnew|fuel events g g' _ IH Hin|fuel g g' _ IH Hup].
  - unfold new_game in Hnew. by apply reset_game_ticking in Hnew as [? _].
  - by apply (handle_input_invariant fuel events g true g').
  - by apply (update_invariant fuel g g').
Qed.


(** ** Exceptions *)

Lemma square_over_reachable : reachable square_over.
Proof.
  apply (reachable_update 1 square_game); [apply square_game_reachable|].
  vm_compute. reflexivity.
Qed.

Lemma bonus_game_played :
  ∃ g0, new_game 1 None (replay bonus_draws) = Ok g0 ∧
        run 1 [[]; []] g0 = Ok (true, bonus_game).
Proof.
  eexists. split.
  - vm_compute. reflexivity.
  - vm_compute. reflexivity.
Qed.

Lemma square_over_played :
  ∃ g0, new_game 1 None (replay square_draws) = Ok g0 ∧
        run 1 (square_inputs ++ [[KEYDOWN K_DOWN]]) g0 = Ok (true, square_over).
Proof.
  eexists. split.
  - vm_compute. reflexivity.
  - vm_compute. reflexivity.
Qed.











(** ** The invariants of a running game *)

(** X1.  The snake is never empty and all its segments are cells of the
    grid. *)
Theorem snake_stays_on_board g :
  reachable g → snake g ≠ [] ∧ Forall in_grid (snake g).
Proof. by intros [H _]%reachable_invariant. Qed.

(** X2.  The food is a cell of the grid that no segment of the snake
    occupies. *)
Theorem food_stays_free g :
  reachable g → in_grid (food g) ∧ food g ∉ snake g.
Proof. by intros [_ _ H _]%reachable_invariant. Qed.

Lemma torus_path_lookup l : torus_path l →
  ∀ i a b, l !! i = Some a → l !! S i = Some b → torus_step a b.
Proof.
  induction l as [|x l IH]; intros Hpath i a b Ha Hb; [done|].
  destruct Hpath as [Hx Hl]. destruct i as [|i].
  - injection Ha as ->. destruct l as [|y l]; [done|]. by injection Hb as ->.
  - by apply (IH Hl i).
Qed.


Lemma food_stays_free_witness :
  reachable bonus_game ∧ in_grid (food bonus_game) ∧
  food bonus_game ∉ snake bonus_game.
Proof.
  split; [exact bonus_game_reachable|].
  exact (food_stays_free bonus_game bonus_game_reachable).
Defined.

Lemma snake_stays_on_board_witness :
  reachable loop_game ∧ snake loop_game ≠ [] ∧ Forall in_grid (snake loop_game).
Proof.
  split; [exact loop_game_reachable|].
  exact (snake_stays_on_board loop_game loop_game_reachable).
Defined.

(** X3.  The snake is connected: every segment is the cell next to the
    segment that follows it, in one of the four directions, taken modulo
    the dimensions of the grid. *)
Theorem snake_stays_connected g i a b :
  reachable g → snake g !! i = Some a → snake g !! S i = Some b →
  ∃ d, a = wrap (next_head d b).
Proof.
  intros [_ H _]%reachable_invariant Ha Hb.
  by apply (torus_path_lookup _ H i).
Qed.

Lemma snake_stays_connected_witness :
  reachable square_game ∧ snake square_game !! 0%nat = Some (22, 14) ∧
  snake square_game !! 1%nat = Some (23, 14) ∧
  ∃ d, (22, 14) = wrap (next_head d (23, 14)).
Proof.
  split; [exact square_game_reachable|]. split; [reflexivity|].
  split; [reflexivity|].
  exact (snake_stays_connected square_game 0 (22, 14) (23, 14)
           square_game_reachable eq_refl eq_refl).
Defined.

(** X4.  There are never more than two power-ups on the board; each lies
    on a cell of the grid and has between 1 and 299 frames left. *)
Theorem powerups_stay_bounded g :
  reachable g →
  (length (powerups g) ≤ 2)%nat ∧
  ∀ p, p ∈ powerups g → in_grid (pu_x p, pu_y p) ∧ 0 < lifetime p < 300.
Proof.
  intros [_ _ _ [Hlen Hps] _]%reachable_invariant. split; [done|].
  intros p Hp. rewrite Forall_forall in Hps.
  destruct (Hps p Hp) as [Hg Hl]. split; [done|lia].
Qed.

Lemma powerups_stay_bounded_witness :
  reachable bonus_game ∧ (length (powerups bonus_game) ≤ 2)%nat ∧
  ∀ p, p ∈ powerups bonus_game →
    in_grid (pu_x p, pu_y p) ∧ 0 < lifetime p < 300.
Proof.
  split; [exact bonus_game_reachable|].
  exact (powerups_stay_bounded bonus_game bonus_game_reachable).
Defined.

(** X6.  The invincibility timer is between 1 and 299 while the snake is
    invincible and is 0 while it is not. *)
Theorem invincible_timer_bounds g :
  reachable g →
  if invincible g then 0 < invincible_timer g < 300
  else invincible_timer g = 0.
Proof.
  intros [_ _ _ _ H _]%reachable_invariant.
  destruct (invincible g); [lia|done].
Qed.

Lemma invincible_timer_bounds_witness :
  reachable loop_game ∧ invincible loop_game = true ∧
  0 < invincible_timer loop_game < 300.
Proof.
  split; [exact loop_game_reachable|]. split; [reflexivity|].
  exact (invincible_timer_bounds loop_game loop_game_reachable).
Defined.

(** X8.  The high score of the object is what the file holds, 0 when there is
    no readable file; a game that ended [GAME_OVER] has a score that is at
    most the high score, and one that ended [NEW_HIGH_SCORE] has its score
    as the high score and in the file. *)
Theorem high_score_matches_file g :
  reachable g →
  high_score g = default 0 (high_score_txt g) ∧
  (state g = GAME_OVER → score g ≤ high_score g) ∧
  (state g = NEW_HIGH_SCORE →
     score g = high_score g ∧ high_score_txt g = Some (score g)).
Proof. by intros [_ _ _ _ _ H _ _ H']%reachable_invariant. Qed.

(** X10.  The score counts the meals: it is 10 for each segment the snake has
    grown by, plus 50 for each score power-up taken; the speed is [FPS]
    plus 2 for each speed power-up taken. *)
Theorem score_counts_meals g :
  reachable g →
  (∃ k, 0 ≤ k ∧
     score g = 10 * (Z.of_nat (length (snake g)) - 1) + 50 * k) ∧
  (∃ j, 0 ≤ j ∧ speed g = FPS + 2 * j).
Proof. by intros [_ _ _ _ _ _ H H' _]%reachable_invariant. Qed.

(** ** Frames in which nothing happens *)

Lemma handle_event_ignored fuel g e :
  state g ≠ PLAYING → ignored (state g) e →
  handle_event fuel g e = Ok (Next, g).
Proof.
  intros Hst Hig. unfold handle_event. destruct e as [|key|]; try done.
  destruct Hig as [Hesc Hkey].
  rewrite (bool_decide_eq_false_2 (key = K_ESCAPE)) by done.
  rewrite (bool_decide_eq_false_2 (state g = PLAYING)) by done.
  destruct (state g) eqn:Hs; try done.
  - rewrite bool_decide_eq_false_2.
    2:{ intros Hin. repeat (apply elem_of_cons in Hin as [Hin|Hin]; [done|]).
        by apply elem_of_nil in Hin. }
    cbn [andb]. by rewrite (bool_decide_eq_false_2 (key = K_p)).
  - rewrite bool_decide_eq_true_2 by (apply list_elem_of_here).
    rewrite !not_elem_of_cons in Hkey. destruct Hkey as (Hr & Hret & Hq & _).
    by rewrite !bool_decide_eq_false_2.
  - rewrite bool_decide_eq_true_2
      by (apply list_elem_of_further, list_elem_of_here).
    rewrite !not_elem_of_cons in Hkey. destruct Hkey as (Hr & Hret & Hq & _).
    by rewrite !bool_decide_eq_false_2.
Qed.

Lemma score_counts_meals_witness :
  reachable bonus_game ∧ score bonus_game = 20 ∧
  length (snake bonus_game) = 3%nat ∧
  (∃ k, 0 ≤ k ∧
     score bonus_game
     = 10 * (Z.of_nat (length (snake bonus_game)) - 1) + 50 * k) ∧
  (∃ j, 0 ≤ j ∧ speed bonus_game = FPS + 2 * j).
Proof.
  split; [exact bonus_game_reachable|]. split; [reflexivity|].
  split; [reflexivity|].
  exact (score_counts_meals bonus_game bonus_game_reachable).
Defined.

Lemma high_score_matches_file_witness :
  reachable square_over ∧ state square_over = NEW_HIGH_SCORE ∧
  high_score square_over = default 0 (high_score_txt square_over) ∧
  (state square_over = GAME_OVER → score square_over ≤ high_score square_over) ∧
  (state square_over = NEW_HIGH_SCORE →
     score square_over = high_score square_over ∧
     high_score_txt square_over = Some (score square_over)).
Proof.
  split; [exact square_over_reachable|]. split; [reflexivity|].
  exact (high_score_matches_file square_over square_over_reachable).
Defined.

Lemma handle_input_ignored fuel events g :
  state g ≠ PLAYING → Forall (ignored (state g)) events →
  handle_input fuel events g = Ok (true, g).
Proof.
  intros Hst. induction 1 as [|e events He _ IH]; [done|].
  cbn [handle_input]. by rewrite handle_event_ignored.
Qed.

(** X14.  A game that is paused or over is frozen: a frame whose events are
    all passed over by the handler (no quit, no [K_ESCAPE], no [K_p] while
    paused, none of [K_r], [K_RETURN], [K_q] once the game is over) leaves
    the game exactly as it was and the loop running. *)
Theorem frozen_frame fuel g events :
  state g ≠ PLAYING → Forall (ignored (state g)) events →
  tick fuel events g = Ok (true, g).
Proof.
  intros Hst Hig. unfold tick. rewrite handle_input_ignored by done.
  cbn [mbind result_bind]. by rewrite update_not_playing.
Qed.

Lemma frozen_frame_witness :
  state paused_game ≠ PLAYING ∧
  Forall (ignored (state paused_game)) [KEYDOWN K_UP; OTHER_EVENT] ∧
  tick 0 [KEYDOWN K_UP; OTHER_EVENT] paused_game = Ok (true, paused_game).
Proof.
  assert (Hst : state paused_game ≠ PLAYING) by discriminate.
  assert (Hig : Forall (ignored (state paused_game))
                  [KEYDOWN K_UP; OTHER_EVENT]).
  { repeat constructor; discriminate. }
  split; [exact Hst|]. split; [exact Hig|].
  exact (frozen_frame 0 paused_game _ Hst Hig).
Defined.

Lemma frozen_run fuel frames : ∀ g,
  state g ≠ PLAYING → Forall (Forall (ignored (state g))) frames →
  run fuel frames g = Ok (true, g).
Proof.
  induction frames as [|events frames IH]; intros g Hst Hig; [done|].
  apply Forall_cons in Hig as [He Hfr]. cbn [run]. unfold tick.
  rewrite handle_input_ignored by done.
  cbn [mbind result_bind]. rewrite update_not_playing by done.
  cbn [mbind result_bind]. by apply IH.
Qed.

(** X15.  Pause and resume is a round trip: [K_p] pauses the game before the
    update of that very frame, the game then stays as it is for any number
    of frames, and a second [K_p] gives back the game as it was when it was
    paused. *)
Theorem pause_resume_round_trip fuel g frames :
  state g = PLAYING → Forall (Forall (ignored PAUSED)) frames →
  run fuel ([KEYDOWN K_p] :: frames) g = Ok (true, set_state PAUSED g) ∧
  handle_input fuel [KEYDOWN K_p] (set_state PAUSED g) = Ok (true, g).
Proof.
  intros Hst Hfr. split.
  - cbn [run]. unfold tick. cbn [handle_input].
    assert (He : handle_event fuel g (KEYDOWN K_p) = Ok (Next, set_state PAUSED g)).
    { unfold handle_event. rewrite Hst. by destruct (direction g). }
    rewrite He. cbn [mbind result_bind].
    rewrite update_not_playing by done. cbn [mbind result_bind].
    by apply frozen_run.
  - cbn [handle_input]. unfold handle_event. cbn.
    destruct g; simpl in *; by subst.
Qed.

Lemma pause_resume_round_trip_witness :
  state (edge_game false) = PLAYING ∧
  Forall (Forall (ignored PAUSED)) [[KEYDOWN K_UP]; []] ∧
  run 0 [[KEYDOWN K_p]; [KEYDOWN K_UP]; []] (edge_game false)
    = Ok (true, set_state PAUSED (edge_game false)) ∧
  handle_input 0 [KEYDOWN K_p] (set_state PAUSED (edge_game false))
    = Ok (true, edge_game false).
Proof.
  assert (Hfr : Forall (Forall (ignored PAUSED)) [[KEYDOWN K_UP]; []]).
  { repeat constructor; discriminate. }
  split; [reflexivity|]. split; [exact Hfr|].
  exact (pause_resume_round_trip 0 (edge_game false) _ eq_refl Hfr).
Defined.

(** X16.  [handle_input] answers [False] only on a request to quit: one of the
    events it was given is [QUIT], [K_ESCAPE] or [K_q]. *)
Theorem quit_only_on_request fuel events g g' :
  handle_input fuel events g = Ok (false, g') →
  ∃ e, e ∈ events ∧ quitting e.
Proof.
  revert g. induction events as [|event events IH]; intros g; cbn [handle_input].
  { done. }
  destruct (handle_event fuel g event) as [[flow g1]| |] eqn:He;
    cbn [mbind result_bind]; try done.
  destruct flow as [b|].
  - intros [= -> ->]. exists event. split; [by left|].
    unfold quitting. destruct event as [|key|]; [by left| |done].
    destruct key; try (by right; left); try (by right; right);
      exfalso; revert He; unfold handle_event; cbn [bool_decide decide_rel];
      repeat (case_match; try done);
      destruct (reset_game fuel g); cbn [mbind result_bind]; done.
  - intros Hrest. destruct (IH g1 Hrest) as (e & Hin & Hq).
    exists e. split; [by right|done].
Qed.

Lemma quit_only_on_request_witness :
  handle_input 0 [KEYDOWN K_UP; QUIT] (edge_game false)
    = Ok (false, set_direction UP (edge_game false)) ∧
  ∃ e, e ∈ [KEYDOWN K_UP; QUIT] ∧ quitting e.
Proof.
  split; [reflexivity|].
  exact (quit_only_on_request 0 [KEYDOWN K_UP; QUIT] (edge_game false) _
           eq_refl).
Defined.

(** X17.  The frame in which the player quits still runs its update, and no
    later frame is played. *)
Theorem quit_frame_still_updates fuel events rest g g1 :
  handle_input fuel events g = Ok (false, g1) →
  run fuel (events :: rest) g = (g' ← update fuel g1; Ok (false, g')).
Proof.
  intros Hin. cbn [run]. unfold tick. rewrite Hin. cbn [mbind result_bind].
  by destruct (update fuel g1).
Qed.

Lemma quit_frame_still_updates_witness :
  handle_input 0 [KEYDOWN K_UP; QUIT] (edge_game false)
    = Ok (false, set_direction UP (edge_game false)) ∧
  run 0 [[KEYDOWN K_UP; QUIT]; []] (edge_game false)
    = (g' ← update 0 (set_direction UP (edge_game false)); Ok (false, g')).
Proof.
  split; [reflexivity|].
  exact (quit_frame_still_updates 0 [KEYDOWN K_UP; QUIT] [[]]
           (edge_game false) _ eq_refl).
Defined.

(** ** Two keys in one frame *)

(** X18.  The reversal test looks at the direction set by the previous
    event, not at the direction of the last move: a key for a turn followed,
    in the same frame, by the key for the reverse of the direction of
    travel is accepted, and the update then runs the head into the segment
    behind it, which ends the game of a snake that is not invincible. *)
Theorem double_turn_reverses fuel g h n t k1 k2 d1 :
  state g = PLAYING → invincible g = false → snake g = h :: n :: t →
  n = next_head (reverse_of (direction g)) h → in_grid n →
  requested k1 = Some d1 → d1 ≠ direction g → d1 ≠ reverse_of (direction g) →
  requested k2 = Some (reverse_of (direction g)) →
  tick fuel [KEYDOWN k1; KEYDOWN k2] g =
    Ok (true, game_over (set_direction (reverse_of (direction g)) g)).
Proof.
  intros Hst Hinv Hb Hn Hgrid Hk1 Hd1 Hd1' Hk2.
  assert (He1 : handle_event fuel g (KEYDOWN k1) = Ok (Next, set_direction d1 g)).
  { unfold handle_event. rewrite Hst.
    destruct k1; try discriminate Hk1; injection Hk1 as <-;
      destruct (direction g); done. }
  assert (He2 : handle_event fuel (set_direction d1 g) (KEYDOWN k2) =
                Ok (Next, set_direction (reverse_of (direction g)) g)).
  { unfold handle_event. cbn [state direction set_direction]. rewrite Hst.
    destruct k2; try discriminate Hk2; injection Hk2 as Hk2;
      destruct (direction g), d1; done. }
  unfold tick. cbn [handle_input]. rewrite He1. cbn [mbind result_bind].
  rewrite He2. cbn [mbind result_bind].
  set (g2 := set_direction _ g).
  rewrite (update_playing fuel g2 h (n :: t)) by done.
  cbn [direction set_direction g2 snake invincible]. rewrite <- Hn, Hinv, Hb.
  unfold classify. apply outside_grid_false in Hgrid. rewrite Hgrid.
  rewrite bool_decide_eq_true_2 by (right; left). done.
Qed.

Lemma double_turn_reverses_witness :
  state (edge_game false) = PLAYING ∧ invincible (edge_game false) = false ∧
  snake (edge_game false) = [(0, 2); (1, 2)] ∧
  (1, 2) = next_head (reverse_of (direction (edge_game false))) (0, 2) ∧
  in_grid (1, 2) ∧
  tick 0 [KEYDOWN K_UP; KEYDOWN K_RIGHT] (edge_game false)
    = Ok (true, game_over (set_direction RIGHT (edge_game false))).
Proof.
  assert (Hgrid : in_grid (1, 2)) by (split; done).
  split; [reflexivity|]. split; [reflexivity|]. split; [reflexivity|].
  split; [reflexivity|]. split; [exact Hgrid|].
  refine (double_turn_reverses 0 (edge_game false) (0, 2) (1, 2) [] K_UP
            K_RIGHT UP eq_refl eq_refl eq_refl eq_refl Hgrid eq_refl _ _
            eq_refl); discriminate.
Defined.

(** ** Restart *)





(** ** What a completed tick does *)

Lemma update_moves fuel g h t g' :
  state g = PLAYING → snake g = h :: t →
  update fuel g = Ok g' → state g' = PLAYING →
  move fuel (landing (next_head (direction g) h)) g = Ok g'.
Proof.
  intros Hst Hb Hup Hst'. rewrite (update_playing fuel g h t Hst Hb) in Hup.
  destruct (hit _); [|done]. injection Hup as <-.
  by apply game_over_not_playing in Hst'.
Qed.

Lemma move_inv_food fuel c g g' :
  move fuel c g = Ok g' →
  c = food g → ∃ f r, generate_food fuel (c :: snake g) (rng g) = Ok (f, r).
Proof.
  intros Hmove Hfood. revert Hmove. unfold move, check_food.
  cbn [food set_snake snake rng score set_score].
  rewrite bool_decide_eq_true_2 by done.
  destruct (generate_food _ _ _) as [[f r]| |];
    cbn [mbind result_bind]; [eauto|done|done].
Qed.

(** X11.  A tick that goes on playing moves the snake by one cell: the head
    lands on the cell in front of it, wrapped when it left the grid; when
    that cell is the food the old snake follows in full, otherwise the old
    snake follows without its last segment and the food stays where it
    is.  The direction is that of before. *)
Theorem update_shifts_snake fuel g h t g' :
  state g = PLAYING → snake g = h :: t →
  update fuel g = Ok g' → state g' = PLAYING →
  direction g' = direction g ∧
  (landing (next_head (direction g) h) = food g →
     snake g' = landing (next_head (direction g) h) :: snake g) ∧
  (landing (next_head (direction g) h) ≠ food g →
     snake g' = landing (next_head (direction g) h) :: removelast (snake g) ∧
     food g' = food g).
Proof.
  intros Hst Hb Hup Hst'.
  apply (update_moves fuel g h t g' Hst Hb) in Hup; [|done].
  destruct (move_found fuel _ g (move_inv_food _ _ _ _ Hup))
    as (g1 & Hg1 & _ & Hd & Heat & Hpass).
  rewrite Hup in Hg1. injection Hg1 as <-.
  split; [done|]. split.
  - intros He. by destruct (Heat He) as (-> & _).
  - intros Hne. destruct (Hpass Hne) as (-> & -> & _). by rewrite Hb.
Qed.

Lemma update_shifts_snake_witness :
  state bonus_game = PLAYING ∧
  landing (next_head (direction bonus_game) (22, 15)) = food bonus_game ∧
  ∃ g', update 1 bonus_game = Ok g' ∧ state g' = PLAYING ∧
    direction g' = RIGHT ∧
    snake g' = [(23, 15); (22, 15); (21, 15); (20, 15)].
Proof.
  split; [reflexivity|]. split; [reflexivity|].
  eexists. split; [vm_compute; reflexivity|]. split; [reflexivity|].
  match goal with
  | |- direction ?g' = _ ∧ _ =>
      assert (Hup : update 1 bonus_game = Ok g') by (vm_compute; reflexivity);
      destruct (update_shifts_snake 1 bonus_game (22, 15) _ g'
                  eq_refl eq_refl Hup eq_refl) as (Hd & Heat & _)
  end.
  split; [exact Hd|]. exact (Heat eq_refl).
Defined.

Lemma move_phases fuel c g g' :
  move fuel c g = Ok g' →
  ∃ g1, check_food fuel c (set_snake (c :: snake g) g) = Ok g1 ∧
    g' = update_powerups (update_invincible_timer
           (set_powerups (filter (λ p, ¬ on_cell c p) (powerups g1))
              (foldl (effect c) g1 (powerups g1)))).
Proof.
  unfold move.
  destruct (check_food _ _ _) as [g1| |]; cbn [mbind result_bind]; try done.
  rewrite check_powerups_spec. cbn [mbind result_bind].
  intros [= <-]. by exists g1.
Qed.

Lemma check_food_powerups fuel c g h t g1 :
  snake g = h :: t →
  check_food fuel c (set_snake (c :: snake g) g) = Ok g1 →
  invincible g1 = invincible g ∧ invincible_timer g1 = invincible_timer g ∧
  (∃ t, snake g1 = c :: t ∧ ∀ x, x ∈ t → x ∈ snake g) ∧
  (powerups g1 = powerups g ∨
   ∃ p, powerups g1 = powerups g ++ [p] ∧ (pu_x p, pu_y p) ∉ snake g1).
Proof.
  intros Hb. unfold check_food. cbn [food set_snake snake rng score set_score].
  case_bool_decide as Hfood.
  - destruct (generate_food _ _ _) as [[f r]| |];
      cbn [mbind result_bind]; try done.
    intros [= <-]. set (g2 := set_food f _).
    destruct (generate_powerup_frame g2) as (Hs & _ & _ & _ & _ & _ & Hi & Hit & _).
    rewrite Hs, Hi, Hit. split; [done|]. split; [done|]. split.
    { exists (snake g). by split. }
    destruct (generate_powerup_cases g2) as [->|(_ & p & -> & _ & Hoff & _)].
    + by left.
    + right. by exists p.
  - cbn [list_pop mbind result_bind]. intros Heq.
    replace g1 with (set_snake (removelast (c :: snake g))
                       (set_snake (c :: snake g) g)) by congruence.
    split; [done|]. split; [done|]. split; [|by left].
    cbn [snake set_snake]. rewrite Hb.
    change (removelast (c :: h :: t)) with (c :: removelast (h :: t)).
    exists (removelast (h :: t)). split; [done|].
    intros x. apply elem_of_removelast.
Qed.

Lemma foldl_effect_invincible c l : ∀ g,
  let g' := foldl (effect c) g l in
  ((∃ p, p ∈ l ∧ on_cell c p ∧ pu_type p = invincible_type) →
     invincible g' = true ∧ invincible_timer g' = 300) ∧
  ((∀ p, p ∈ l → on_cell c p → pu_type p ≠ invincible_type) →
     invincible g' = invincible g ∧ invincible_timer g' = invincible_timer g).
Proof.
  induction l as [|p l IH]; intros g; cbn [foldl].
  { split; [intros (p & Hp & _); by apply elem_of_nil in Hp|done]. }
  destruct (IH (effect c g p)) as [Hyes Hno]. split.
  - intros (q & Hq & Hon & Hty).
    destruct (decide (Exists (λ p', on_cell c p' ∧ pu_type p' = invincible_type) l))
      as [Hl|Hl]; rewrite Exists_exists in Hl; [by apply Hyes|].
    apply elem_of_cons in Hq as [->|Hq]; [|exfalso; apply Hl; eauto].
    destruct Hno as [-> ->].
    { intros p' Hp' Hon' Hty'. apply Hl. eauto. }
    unfold effect. rewrite bool_decide_eq_true_2 by done. by rewrite Hty.
  - intros Hnone. destruct Hno as [-> ->].
    { intros p' Hp'. apply Hnone. by right. }
    unfold effect. case_bool_decide as Hon; [|done].
    specialize (Hnone p (list_elem_of_here _ _) Hon).
    by destruct (pu_type p).
Qed.

(** X7.  The invincibility of a snake is counted in ticks.  On a tick that
    goes on playing: taking an invincibility power-up leaves the snake
    invincible with 299 on the timer; without one, the timer of an invincible
    snake goes down by one and the snake stays invincible exactly as long as
    the timer has not reached 0. *)
Theorem invincibility_counts_down fuel g h t g' :
  state g = PLAYING → snake g = h :: t →
  update fuel g = Ok g' → state g' = PLAYING →
  ((∃ p, p ∈ powerups g ∧ on_cell (landing (next_head (direction g) h)) p ∧
         pu_type p = invincible_type) →
     invincible g' = true ∧ invincible_timer g' = 299) ∧
  ((∀ p, p ∈ powerups g → on_cell (landing (next_head (direction g) h)) p →
         pu_type p ≠ invincible_type) →
   invincible g = true →
     invincible_timer g' = invincible_timer g - 1 ∧
     (invincible g' = true ↔ 1 < invincible_timer g)).
Proof.
  intros Hst Hb Hup Hst'.
  apply (update_moves fuel g h t g' Hst Hb) in Hup; [|done].
  set (c := landing _) in *.
  apply move_phases in Hup as (g1 & Hfood & ->).
  apply (check_food_powerups _ _ _ h t) in Hfood
    as (Hi & Hit & (tl & Hs1 & _) & Hps); [|done].
  destruct (foldl_effect_invincible c (powerups g1) g1) as [Hyes Hno].
  destruct (foldl_effect_frame c (powerups g1) g1) as (Hs & _).
  cbn [update_powerups invincible invincible_timer set_powerups].
  assert (Hnew : ∀ p, powerups g1 = powerups g ++ [p] →
            ((pu_x p, pu_y p) ∉ snake g1) → ¬ on_cell c p).
  { intros p _ Hoff Hon. apply Hoff. rewrite Hs1, <- Hon. by left. }
  split.
  - intros (p & Hp & Hon & Hty). destruct Hyes as [Hy Hy'].
    { exists p. split; [|done].
      destruct Hps as [->|(q & -> & _)]; [done|].
      apply elem_of_app. by left. }
    unfold update_invincible_timer.
    cbn [invincible invincible_timer set_powerups]. rewrite Hy.
    cbn [invincible_timer set_invincible_timer invincible set_powerups].
    rewrite Hy'. by rewrite bool_decide_eq_false_2 by lia.
  - intros Hnone Hinv. destruct Hno as [Hn Hn'].
    { intros p Hp Hon. destruct Hps as [Heq|(q & Heq & Hoff)]; rewrite Heq in Hp.
      - by apply Hnone.
      - apply elem_of_app in Hp as [Hp|Hp]; [by apply Hnone|].
        apply list_elem_of_singleton in Hp as ->. by apply Hnew in Hon. }
    unfold update_invincible_timer.
    cbn [invincible invincible_timer set_powerups]. rewrite Hn, Hi, Hinv.
    cbn [invincible_timer set_invincible_timer invincible set_powerups].
    rewrite Hn', Hit. case_bool_decide as Hz; cbn; (split; [done|]).
    + split; [done|lia].
    + rewrite Hn, Hi, Hinv. split; [lia|done].
Qed.

Lemma invincibility_counts_down_witness :
  state loop_game = PLAYING ∧ invincible loop_game = true ∧
  invincible_timer loop_game = 297 ∧
  ∃ g', update 1 loop_game = Ok g' ∧ state g' = PLAYING ∧
    invincible_timer g' = 296 ∧ (invincible g' = true ↔ 1 < 297).
Proof.
  split; [reflexivity|]. split; [reflexivity|]. split; [reflexivity|].
  eexists. split; [vm_compute; reflexivity|]. split; [reflexivity|].
  match goal with
  | |- invincible_timer ?g' = _ ∧ _ =>
      assert (Hup : update 1 loop_game = Ok g') by (vm_compute; reflexivity)
  end.
  assert (Hnone : ∀ p, p ∈ powerups loop_game →
            on_cell (landing (next_head (direction loop_game) (24, 14))) p →
            pu_type p ≠ invincible_type).
  { intros p Hp. by apply elem_of_nil in Hp. }
  exact (proj2 (invincibility_counts_down 1 loop_game (24, 14) _ _
                  eq_refl eq_refl Hup eq_refl) Hnone eq_refl).
Defined.

(** ** Power-ups and the snake *)

Lemma move_clear fuel c g h t g' :
  snake g = h :: t →
  powerups_clear g → move fuel c g = Ok g' → powerups_clear g'.
Proof.
  intros Hb Hclear Hmove. apply move_phases in Hmove as (g1 & Hfood & ->).
  apply (check_food_powerups _ _ _ h t) in Hfood
    as (_ & _ & (tl & Hs1 & Htl) & Hps); [|done].
  destruct (foldl_effect_frame c (powerups g1) g1) as (Hs & _).
  intros p' Hp'. apply update_powerups_aged in Hp' as (p & Hp & Hx & Hy & _).
  rewrite Hx, Hy.
  destruct (update_invincible_timer_frame
              (set_powerups (filter (λ p, ¬ on_cell c p) (powerups g1))
                 (foldl (effect c) g1 (powerups g1))))
    as (Hs' & _ & _ & Hps' & _).
  rewrite Hps' in Hp. cbn [powerups set_powerups] in Hp.
  apply list_elem_of_filter in Hp as [Hoff Hp].
  cbn [update_powerups snake set_powerups]. rewrite Hs'.
  cbn [snake set_powerups]. rewrite Hs, Hs1.
  intros [Hc|Hin]%elem_of_cons; [by apply Hoff|].
  destruct Hps as [Heq|(q & Heq & Hq)]; rewrite Heq in Hp.
  - apply (Hclear p Hp). by apply Htl.
  - apply elem_of_app in Hp as [Hp|Hp].
    + apply (Hclear p Hp). by apply Htl.
    + apply list_elem_of_singleton in Hp as ->. apply Hq. rewrite Hs1. by right.
Qed.

Lemma update_clear fuel g g' :
  powerups_clear g → update fuel g = Ok g' → powerups_clear g'.
Proof.
  intros Hclear. destruct (decide (state g = PLAYING)) as [Hst|Hst].
  - destruct (snake g) as [|h t] eqn:Hb.
    { unfold update. rewrite bool_decide_eq_false_2 by (intros Hn; by apply Hn).
      by rewrite Hb. }
    rewrite (update_playing fuel g h t Hst Hb).
    destruct (hit _).
    + intros [= <-]. unfold powerups_clear.
      destruct (game_over_frame g) as (-> & _ & _ & -> & _). done.
    + by apply (move_clear fuel _ g h t).
  - rewrite update_not_playing by done. by intros [= <-].
Qed.

Lemma reset_game_clear fuel g g' : reset_game fuel g = Ok g' → powerups_clear g'.
Proof.
  intros (_ & _ & _ & _ & _ & Hps & _)%reset_game_ticking p Hp.
  rewrite Hps in Hp. by apply elem_of_nil in Hp.
Qed.

Lemma handle_event_clear fuel g e flow g' :
  powerups_clear g → handle_event fuel g e = Ok (flow, g') → powerups_clear g'.
Proof.
  intros Hclear. unfold handle_event. destruct e as [|key|].
  - by intros [= _ <-].
  - repeat (case_match; try (intros [= _ <-]; done)).
    destruct (reset_game fuel g) as [g1| |] eqn:Hreset;
      cbn [mbind result_bind]; try done.
    intros [= _ <-]. by apply reset_game_clear in Hreset.
  - by intros [= _ <-].
Qed.

Lemma handle_input_clear fuel events : ∀ g b g',
  powerups_clear g → handle_input fuel events g = Ok (b, g') → powerups_clear g'.
Proof.
  induction events as [|e events IH]; intros g b g' Hclear; cbn [handle_input].
  - by intros [= _ <-].
  - destruct (handle_event fuel g e) as [[flow g1]| |] eqn:He;
      cbn [mbind result_bind]; try done.
    apply handle_event_clear in He; [|done].
    destruct flow; [by intros [= _ <-]|]. by apply IH.
Qed.

(** X5.  No power-up ever lies under the snake: a power-up is spawned off the
    snake, and the power-ups the head lands on are taken in that very
    tick. *)
Theorem powerups_never_under_snake g p :
  reachable g → p ∈ powerups g → (pu_x p, pu_y p) ∉ snake g.
Proof.
  intros Hg. revert p.
  induction Hg as [fuel file r g Hnew|fuel events g g' _ IH Hin
                   |fuel g g' _ IH Hup].
  - by apply reset_game_clear in Hnew.
  - by apply (handle_input_clear fuel events g true g').
  - by apply (update_clear fuel g g').
Qed.

Lemma powerups_never_under_snake_witness :
  reachable bonus_game ∧
  mkPowerUp 23 15 score_type 298 ∈ powerups bonus_game ∧
  (23, 15) ∉ snake bonus_game.
Proof.
  assert (Hp : mkPowerUp 23 15 score_type 298 ∈ powerups bonus_game)
    by apply list_elem_of_here.
  split; [exact bonus_game_reachable|]. split; [exact Hp|].
  exact (powerups_never_under_snake bonus_game _ bonus_game_reachable Hp).
Defined.

(** ** Drawing *)

Lemma cell_rect_on_screen x y : in_grid (x, y) → on_screen (cell_rect x y).
Proof.
  intros [Hx Hy]. unfold on_screen, cell_rect, GRID_WIDTH, GRID_HEIGHT in *.
  cbn in *. change CELL_SIZE with 20. change WINDOW_WIDTH with 800.
  change WINDOW_HEIGHT with 600.
  change (WINDOW_WIDTH `div` CELL_SIZE) with 40 in Hx.
  change (WINDOW_HEIGHT `div` CELL_SIZE) with 30 in Hy.
  rewrite !Z.mod_mul by lia. lia.
Qed.

Lemma run_invariant fuel inputs : ∀ g b g',
  invariant g → run fuel inputs g = Ok (b, g') → invariant g'.
Proof.
  induction inputs as [|events inputs IH]; intros g b g' Hinv; cbn [run].
  - by intros [= _ <-].
  - destruct (tick fuel events g) as [[b1 g1]| |] eqn:Htick;
      cbn [mbind result_bind]; try done.
    apply tick_inv in Htick as (g0 & Hin & Hup).
    apply handle_input_invariant in Hin; [|done].
    apply update_invariant in Hup; [|done].
    destruct b1; [by apply IH|]. by intros [= _ <-].
Qed.

Lemma played_invariant fuel file r inputs g0 b g :
  new_game fuel file r = Ok g0 → run fuel inputs g0 = Ok (b, g) → invariant g.
Proof.
  intros Hnew Hrun. apply (run_invariant fuel inputs g0 b); [|done].
  unfold new_game in Hnew. by apply reset_game_ticking in Hnew as [? _].
Qed.

(** X19.  Nothing is drawn off the screen: after any number of frames of a
    game, that of the quit included, every rectangle that [draw] paints is
    one cell of the 800 x 600 window, 20 pixels wide and high and placed on
    a multiple of 20. *)
Theorem draw_stays_on_screen fuel file r inputs g0 b g color rect width :
  new_game fuel file r = Ok g0 → run fuel inputs g0 = Ok (b, g) →
  draw_rect color rect width ∈ draw g → on_screen rect.
Proof.
  intros Hnew Hrun.
  destruct (played_invariant _ _ _ _ _ _ _ Hnew Hrun)
    as [[_ Hsnake] _ [Hfood _] [_ Hps] _ _ _ _ _].
  unfold draw. rewrite !elem_of_app, !list_elem_of_singleton.
  intros [Hc|[Hbody|Hc]]; [done| |done].
  destruct (_ || _).
  - revert Hbody.
    rewrite !elem_of_app, !list_elem_of_singleton.
    intros [Hin|[Hin|[Hin|[Hin|[Hin|[Hin|Hin]]]]]]; try done.
    + apply list_elem_of_join in Hin as (l & Hin & Hl).
      apply elem_of_lookup_imap_1 in Hl as (i & seg & -> & Hseg).
      assert (Hg : in_grid seg).
      { rewrite Forall_forall in Hsnake. apply Hsnake.
        by apply list_elem_of_lookup_2 in Hseg. }
      unfold draw_segment in Hin. destruct seg as [x y].
      apply elem_of_cons in Hin as [[= _ -> _]|Hin];
        [by apply cell_rect_on_screen|].
      destruct (bool_decide _); [|by apply elem_of_nil in Hin].
      apply list_elem_of_singleton in Hin as [= _ -> _].
      by apply cell_rect_on_screen.
    + injection Hin as _ -> _. destruct (food g). by apply cell_rect_on_screen.
    + apply list_elem_of_join in Hin as (l & Hin & Hl).
      apply list_elem_of_fmap in Hl as (p & -> & Hp).
      rewrite Forall_forall in Hps. destruct (Hps p Hp) as [Hg _].
      unfold draw_powerup in Hin.
      repeat (apply elem_of_cons in Hin as [[= _ -> _]|Hin];
              [by apply cell_rect_on_screen|]).
      by apply elem_of_nil in Hin.
    + destruct (invincible g); [|by apply elem_of_nil in Hin].
      by apply list_elem_of_singleton in Hin.
    + destruct (bool_decide _); [|by apply elem_of_nil in Hin].
      by apply list_elem_of_singleton in Hin.
  - destruct (bool_decide (state g = GAME_OVER)).
    { repeat (apply elem_of_cons in Hbody as [?|Hbody]; [done|]).
      by apply elem_of_nil in Hbody. }
    destruct (bool_decide (state g = NEW_HIGH_SCORE)).
    { repeat (apply elem_of_cons in Hbody as [?|Hbody]; [done|]).
      by apply elem_of_nil in Hbody. }
    by apply elem_of_nil in Hbody.
Qed.

Lemma draw_stays_on_screen_witness :
  ∃ g0, new_game 1 None (replay bonus_draws) = Ok g0 ∧
    run 1 [[]; []] g0 = Ok (true, bonus_game) ∧
    draw_rect RED (cell_rect 23 15) 0 ∈ draw bonus_game ∧
    on_screen (cell_rect 23 15).
Proof.
  destruct bonus_game_played as (g0 & Hnew & Hrun).
  assert (Hin : draw_rect RED (cell_rect 23 15) 0 ∈ draw bonus_game)
    by (apply (bool_decide_unpack _); vm_compute; exact I).
  exists g0. split; [exact Hnew|]. split; [exact Hrun|]. split; [exact Hin|].
  exact (draw_stays_on_screen 1 None _ _ g0 true bonus_game _ _ _
           Hnew Hrun Hin).
Defined.

(** X20.  The number written on the [NEW HIGH SCORE] screen is the score of
    the game that just ended: [draw] writes the high score, which is then
    that score. *)
Theorem new_high_score_screen_shows_score fuel file r inputs g0 b g :
  new_game fuel file r = Ok g0 → run fuel inputs g0 = Ok (b, g) →
  state g = NEW_HIGH_SCORE →
  draw g =
    [screen_fill BLACK;
     blit_text FONT_LARGE (text "NEW HIGH SCORE!") YELLOW (200, 250);
     blit_text FONT_MEDIUM (py_str (score g)) WHITE (370, 300);
     blit_text FONT_MEDIUM (text "R to restart, Q to quit") WHITE (260, 350);
     display_flip].
Proof.
  intros Hnew Hrun Hst.
  destruct (played_invariant _ _ _ _ _ _ _ Hnew Hrun)
    as [_ _ _ _ _ _ _ _ [_ Hover]].
  destruct (Hover Hst) as [-> _]. unfold draw. by rewrite Hst.
Qed.

Lemma new_high_score_screen_shows_score_witness :
  ∃ g0, new_game 1 None (replay square_draws) = Ok g0 ∧
    run 1 (square_inputs ++ [[KEYDOWN K_DOWN]]) g0 = Ok (true, square_over) ∧
    state square_over = NEW_HIGH_SCORE ∧ score square_over = 30 ∧
    draw square_over =
      [screen_fill BLACK;
       blit_text FONT_LARGE (text "NEW HIGH SCORE!") YELLOW (200, 250);
       blit_text FONT_MEDIUM (py_str (score square_over)) WHITE (370, 300);
       blit_text FONT_MEDIUM (text "R to restart, Q to quit") WHITE (260, 350);
       display_flip].
Proof.
  destruct square_over_played as (g0 & Hnew & Hrun).
  exists g0. split; [exact Hnew|]. split; [exact Hrun|].
  split; [reflexivity|]. split; [reflexivity|].
  exact (new_high_score_screen_shows_score 1 None _ _ g0 true square_over
           Hnew Hrun eq_refl).
Defined.

End SnakeInvariants.

(** * Proofs: grids and the demo *)

Module LifeGrids.
Import Life LifeSpec LifeProofs.

(** ** Grids are determined by their cells *)

Lemma grid_ext grid g1 g2 :
  shaped grid g1 → shaped grid g2 →
  (∀ x y, in_range grid x y → cell_at g1 x y = cell_at g2 x y) → g1 = g2.
Proof.
  intros Hs1 Hs2 Hcells. apply list_eq. intros j.
  destruct (decide (j < length grid)%nat) as [Hj|Hj].
  - assert (Hy : 0 ≤ Z.of_nat j < height grid) by (unfold height; lia).
    destruct (shaped_row grid g1 _ Hs1 Hy) as (r1 & Hr1 & Hw1).
    destruct (shaped_row grid g2 _ Hs2 Hy) as (r2 & Hr2 & Hw2).
    rewrite Nat2Z.id in Hr1, Hr2. rewrite Hr1, Hr2. f_equal.
    apply list_eq. intros i.
    destruct (decide (i < length r1)%nat) as [Hi|Hi].
    + assert (Hin : in_range grid (Z.of_nat i) (Z.of_nat j)) by (split; lia).
      specialize (Hcells _ _ Hin). unfold cell_at in Hcells.
      rewrite !Nat2Z.id, Hr1, Hr2 in Hcells. simpl in Hcells.
      destruct (lookup_lt_is_Some_2 r1 i) as [c1 Hc1]; [lia|].
      destruct (lookup_lt_is_Some_2 r2 i) as [c2 Hc2]; [lia|].
      rewrite Hc1, Hc2 in *. simpl in Hcells. by rewrite Hcells.
    + rewrite !lookup_ge_None_2 by lia. done.
  - destruct Hs1 as [Hl1 _], Hs2 as [Hl2 _].
    rewrite !lookup_ge_None_2 by lia. done.
Qed.

(** [next_generation] on a well-formed grid, cell by cell. *)
Lemma next_generation_cells grid :
  well_formed grid →
  ∃ new_grid, next_generation grid = Ok new_grid ∧ shaped grid new_grid ∧
    ∀ x y, in_range grid x y → cell_at new_grid x y = next_state grid x y.
Proof.
  intros Hwf. unfold next_generation.
  destruct (well_formed_row0 grid Hwf) as (row0 & H0 & Hw).
  rewrite (py_index_lookup grid 0 row0) by done.
  cbn [mbind result_bind]. rewrite <- Hw. fold (height grid).
  assert (Hys : ∀ y, y ∈ range (height grid) → 0 ≤ y < height grid).
  { intros y Hy. unfold range in Hy. apply elem_of_seqZ in Hy. lia. }
  destruct (outer_loop_paints grid (range (height grid)) _ _ Hwf Hys
              (zeros_painted grid)) as (g' & Hloop & [Hsh Hp]).
  exists g'. split; [done|]. split; [done|].
  intros x y [Hx Hy]. destruct (Hp x y) as [Hd _]; [done|]. apply Hd.
  right. split; unfold range; apply elem_of_seqZ; lia.
Qed.

Lemma shaped_width grid g : grid ≠ [] → shaped grid g → width g = width grid.
Proof.
  intros Hne [Hlen Hrows]. destruct g as [|row g].
  { destruct grid; [done|discriminate Hlen]. }
  apply Forall_cons in Hrows as [Hrow _]. done.
Qed.

Lemma next_state_binary grid x y : next_state grid x y = 0 ∨ next_state grid x y = 1.
Proof. unfold next_state. destruct (rule _ _); [by right|by left]. Qed.

Lemma shaped_well_formed grid g :
  grid ≠ [] → shaped grid g →
  (∀ x y, in_range grid x y → cell_at g x y = 0 ∨ cell_at g x y = 1) →
  well_formed g ∧ width g = width grid ∧ height g = height grid.
Proof.
  intros Hne Hsh Hbin. pose proof (shaped_width grid g Hne Hsh) as Hw.
  destruct Hsh as [Hlen Hrows]. split; [|split; [done|unfold height; lia]].
  split; [|split].
  - destruct g; [|done]. destruct grid; [done|discriminate Hlen].
  - by rewrite Hw.
  - apply Forall_lookup. intros j row Hrow. apply Forall_lookup. intros i c Hc.
    pose proof (lookup_lt_Some _ _ _ Hrow) as Hj.
    pose proof (lookup_lt_Some _ _ _ Hc) as Hi.
    pose proof (Forall_lookup_1 _ _ _ _ Hrows Hrow) as Hlr. simpl in Hlr.
    assert (Hin : in_range grid (Z.of_nat i) (Z.of_nat j)).
    { split; [lia|unfold height; lia]. }
    specialize (Hbin _ _ Hin). unfold cell_at in Hbin.
    rewrite !Nat2Z.id, Hrow in Hbin. simpl in Hbin. by rewrite Hc in Hbin.
Qed.

(** The next generation of a well-formed grid is well-formed, with the same
    dimensions. *)
Lemma next_generation_closed grid :
  well_formed grid →
  ∃ new_grid, next_generation grid = Ok new_grid ∧ well_formed new_grid ∧
    width new_grid = width grid ∧ height new_grid = height grid.
Proof.
  intros Hwf. destruct (next_generation_cells grid Hwf) as (g' & Hg' & Hsh & Hc).
  exists g'. split; [done|]. apply shaped_well_formed; [by destruct Hwf|done|].
  intros x y Hin. rewrite (Hc x y Hin). apply next_state_binary.
Qed.


Lemma blinker_well_formed : well_formed blinker.
Proof.
  split; [discriminate|].
  split; apply (bool_decide_unpack _); vm_compute; exact I.
Qed.

(** ** [create_grid] *)

Lemma random_choice_bit r :
  ((random_choice 0 [1] r).1 = 0 ∨ (random_choice 0 [1] r).1 = 1) ∧
  (random_choice 0 [1] r).2 = mkRng (draws r) (S (cursor r)).
Proof.
  unfold random_choice, next_draw. cbn [fst snd length].
  split; [|done].
  assert (Hd : 0 ≤ draws r (cursor r) `mod` 2 < 2)
    by (apply Z.mod_pos_bound; lia).
  change (Z.of_nat 2) with 2.
  destruct (Z.to_nat (draws r (cursor r) `mod` 2)) as [|[|n]] eqn:Hn;
    cbn; [by left|by right|lia].
Qed.

Lemma create_row l : ∀ r,
  let res := comprehension (λ (_ : Z) r, random_choice 0 [1] r) l r in
  length res.1 = length l ∧ Forall (λ cell, cell = 0 ∨ cell = 1) res.1 ∧
  res.2 = mkRng (draws r) (cursor r + length l).
Proof.
  induction l as [|a l IH]; intros r; cbn [comprehension].
  { cbn. split; [done|]. split; [done|]. destruct r; cbn. f_equal. lia. }
  destruct (random_choice_bit r) as [Hbit Hr].
  destruct (random_choice 0 [1] r) as [b r1]. cbn [fst snd] in *. subst r1.
  specialize (IH (mkRng (draws r) (S (cursor r)))).
  destruct (comprehension _ l _) as [bs r2]. cbn [fst snd] in *.
  destruct IH as (Hlen & Hbin & ->). cbn [length draws cursor].
  split; [by rewrite Hlen|]. split; [by constructor|]. f_equal. lia.
Qed.

Lemma create_rows w l : ∀ r,
  let res :=
    comprehension
      (λ (_ : Z) r, comprehension (λ (_ : Z) r, random_choice 0 [1] r) (range w) r)
      l r in
  length res.1 = length l ∧
  Forall (λ row, length row = length (range w)
                 ∧ Forall (λ cell, cell = 0 ∨ cell = 1) row) res.1 ∧
  res.2 = mkRng (draws r) (cursor r + length (range w) * length l).
Proof.
  induction l as [|a l IH]; intros r; cbn [comprehension].
  { cbn. split; [done|]. split; [done|]. destruct r; cbn. f_equal. lia. }
  destruct (create_row (range w) r) as (Hlen & Hbin & Hr).
  destruct (comprehension _ (range w) r) as [row r1]. cbn [fst snd] in *.
  subst r1. specialize (IH (mkRng (draws r) (cursor r + length (range w)))).
  destruct (comprehension _ l _) as [rows r2]. cbn [fst snd] in *.
  destruct IH as (Hlen' & Hrows & ->). cbn [length draws cursor].
  split; [by rewrite Hlen'|]. split; [by constructor|]. f_equal. lia.
Qed.

Lemma length_range n : length (range n) = Z.to_nat n.
Proof. unfold range. by rewrite length_seqZ. Qed.

Lemma create_grid_shape w h r :
  0 < h →
  well_formed (create_grid w h r).1 ∧
  width (create_grid w h r).1 = Z.max 0 w ∧
  height (create_grid w h r).1 = h ∧
  (create_grid w h r).2 =
    mkRng (draws r) (cursor r + Z.to_nat w * Z.to_nat h).
Proof.
  intros Hh. unfold create_grid.
  destruct (create_rows w (range h) r) as (Hlen & Hrows & Hr).
  destruct (comprehension _ (range h) r) as [grid r']. cbn [fst snd] in *.
  rewrite !length_range in Hr. rewrite length_range in Hlen.
  assert (Hw : width grid = Z.max 0 w).
  { destruct grid as [|row grid]; [cbn in Hlen; lia|].
    apply Forall_cons in Hrows as [[Hrow _] _]. unfold width. cbn.
    rewrite Hrow, length_range. lia. }
  split; [|split; [done|split; [unfold height; lia|done]]].
  split; [|split].
  - destruct grid; [cbn in Hlen; lia|done].
  - rewrite Hw. eapply Forall_impl; [exact Hrows|].
    intros row [Hrow _]. rewrite Hrow, length_range. lia.
  - eapply Forall_impl; [exact Hrows|]. by intros row [_ Hbin].
Qed.

(** X21.  [create_grid] makes a well-formed grid: for a positive [height] it
    has [height] rows of [width] cells (no cell when [width] is negative),
    each [0] or [1]; it takes one draw for each cell, row after row. *)
Theorem create_grid_well_formed w h r :
  0 < h →
  well_formed (create_grid w h r).1 ∧
  height (create_grid w h r).1 = h ∧
  Forall (λ row, Z.of_nat (length row) = Z.max 0 w) (create_grid w h r).1 ∧
  draws (create_grid w h r).2 = draws r ∧
  cursor (create_grid w h r).2 = (cursor r + Z.to_nat w * Z.to_nat h)%nat.
Proof.
  intros Hh. destruct (create_grid_shape w h r Hh) as (Hwf & Hw & Hht & ->).
  split; [done|]. split; [done|]. split; [|done].
  destruct Hwf as (_ & Hrows & _). by rewrite <- Hw.
Qed.

Lemma create_grid_well_formed_witness :
  0 < 2 ∧
  create_grid 3 2 (replay [1; 0; 1; 1; 1; 0]) =
    ([[1; 0; 1]; [1; 1; 0]], mkRng (draws (replay [1; 0; 1; 1; 1; 0])) 6) ∧
  well_formed (create_grid 3 2 (replay [1; 0; 1; 1; 1; 0])).1 ∧
  height (create_grid 3 2 (replay [1; 0; 1; 1; 1; 0])).1 = 2 ∧
  Forall (λ row, Z.of_nat (length row) = Z.max 0 3)
    (create_grid 3 2 (replay [1; 0; 1; 1; 1; 0])).1 ∧
  draws (create_grid 3 2 (replay [1; 0; 1; 1; 1; 0])).2
    = draws (replay [1; 0; 1; 1; 1; 0]) ∧
  cursor (create_grid 3 2 (replay [1; 0; 1; 1; 1; 0])).2 = 6%nat.
Proof.
  assert (Hh : 0 < 2) by lia.
  split; [exact Hh|]. split; [reflexivity|].
  exact (create_grid_well_formed 3 2 (replay [1; 0; 1; 1; 1; 0]) Hh).
Defined.

(** ** [print_grid] *)

Lemma print_row row :
  concat (glyph <$> row) =
    (λ cell, if bool_decide (cell ≠ 0) then 9608 else 9617) <$> row.
Proof.
  induction row as [|c row IH]; [done|]. cbn [fmap list_fmap concat].
  rewrite IH. unfold glyph, ALIVE, DEAD. by destruct (bool_decide _).
Qed.

Lemma print_row_inj r1 r2 :
  Forall (λ cell, cell = 0 ∨ cell = 1) r1 →
  Forall (λ cell, cell = 0 ∨ cell = 1) r2 →
  concat (glyph <$> r1) = concat (glyph <$> r2) → r1 = r2.
Proof.
  rewrite !print_row. intros H1. revert r2.
  induction H1 as [|c1 r1 Hc1 _ IH]; intros r2 H2 Heq.
  { by destruct r2. }
  destruct H2 as [|c2 r2 Hc2 H2]; [done|].
  cbn [fmap list_fmap] in Heq. injection Heq as Hc Hrest.
  f_equal; [|by apply IH].
  destruct Hc1 as [-> | ->], Hc2 as [-> | ->]; done.
Qed.

(** X27.  [print_grid] writes one line for each row and one character, ['█']
    or ['░'], for each cell; on grids of [0] and [1] the lines written
    determine the grid. *)
Theorem print_grid_faithful g1 g2 :
  binary g1 → binary g2 →
  (print_grid g1 = print_grid g2 ↔ g1 = g2) ∧
  length (print_grid g1) = length g1 ∧
  ∀ y row, g1 !! y = Some row →
    ∃ line, print_grid g1 !! y = Some line ∧ length line = length row ∧
            Forall (λ ch, ch = 9608 ∨ ch = 9617) line.
Proof.
  intros Hb1 Hb2. split; [|split].
  - split; [|by intros ->]. unfold print_grid. revert g2 Hb2.
    induction Hb1 as [|r1 g1 Hr1 _ IH]; intros g2 Hb2 Heq.
    { by destruct g2. }
    destruct Hb2 as [|r2 g2 Hr2 Hb2]; [done|].
    cbn [fmap list_fmap] in Heq. injection Heq as Hrow Hrest.
    f_equal; [by apply print_row_inj|by apply IH].
  - unfold print_grid. by rewrite length_fmap.
  - intros y row Hrow. exists (concat (glyph <$> row)).
    unfold print_grid. rewrite list_lookup_fmap, Hrow. split; [done|].
    rewrite print_row, length_fmap. split; [done|].
    apply Forall_fmap, Forall_forall. intros c _. cbn.
    destruct (bool_decide _); [by left|by right].
Qed.

Lemma print_grid_faithful_witness :
  binary blinker ∧ binary (uniform 5 5 0) ∧
  (print_grid blinker = print_grid (uniform 5 5 0) ↔ blinker = uniform 5 5 0) ∧
  length (print_grid blinker) = length blinker ∧
  ∀ y row, blinker !! y = Some row →
    ∃ line, print_grid blinker !! y = Some line ∧
            length line = length row ∧
            Forall (λ ch, ch = 9608 ∨ ch = 9617) line.
Proof.
  assert (Hb1 : binary blinker)
    by (apply (bool_decide_unpack _); vm_compute; exact I).
  assert (Hb2 : binary (uniform 5 5 0))
    by (apply (bool_decide_unpack _); vm_compute; exact I).
  split; [exact Hb1|]. split; [exact Hb2|].
  exact (print_grid_faithful blinker (uniform 5 5 0) Hb1 Hb2).
Defined.

(** ** Counting the neighbours of any cell *)

Lemma filter_ext_in {A} (P Q : A → Prop) `{∀ x, Decision (P x)}
    `{∀ x, Decision (Q x)} (l : list A) :
  (∀ x, x ∈ l → P x ↔ Q x) → filter P l = filter Q l.
Proof.
  induction l as [|a l IH]; intros Hext; [done|].
  rewrite !filter_cons.
  rewrite IH by (intros x Hx; apply Hext; by right).
  destruct (decide (P a)) as [Hp|Hp], (decide (Q a)) as [Hq|Hq]; try done.
  - exfalso. apply Hq, (Hext a); [by left|done].
  - exfalso. apply Hp, (Hext a); [by left|done].
Qed.

Lemma add_neighbor_wraps grid x y dx dy count :
  well_formed grid → 0 < width grid → dx ≠ 0 ∨ dy ≠ 0 →
  add_neighbor grid (width grid) (height grid) x y dx count dy =
    Ok (count + cell_at grid ((x + dx) `mod` width grid)
                  ((y + dy) `mod` height grid)).
Proof.
  intros Hwf Hw Hd. unfold add_neighbor.
  assert (Hh : 0 < height grid).
  { destruct Hwf as (Hne & _). unfold height. destruct grid; [done|cbn; lia]. }
  assert (bool_decide (dx = 0) && bool_decide (dy = 0) = false) as ->.
  { destruct Hd; [rewrite (bool_decide_eq_false_2 (dx = 0)) by done|
                  rewrite (bool_decide_eq_false_2 (dy = 0)) by done];
      [done|apply andb_false_r]. }
  rewrite !py_mod_nonzero by lia. cbn [mbind result_bind].
  apply (read_cell grid grid _ _ (λ cell, Ok (count + cell))).
  - by apply well_formed_shaped.
  - split; apply Z.mod_pos_bound; lia.
Qed.

Lemma live_neighbors_bounds grid x y : 0 ≤ live_neighbors grid x y ≤ 8.
Proof.
  unfold live_neighbors. split; [lia|].
  match goal with |- context [filter ?P offsets] =>
    pose proof (length_filter P offsets) as Hlen end.
  change (length offsets) with 8%nat in Hlen. lia.
Qed.

(** X22.  [count_neighbors] is defined for every pair of integers [x], [y],
    inside the grid or not, on a well-formed grid that has a column: it
    returns the number of live cells among the eight wrapped neighbours, a
    number from 0 to 8, and it is periodic in both coordinates. *)
Theorem count_neighbors_wraps grid x y :
  well_formed grid → 0 < width grid →
  count_neighbors grid x y = Ok (live_neighbors grid x y) ∧
  0 ≤ live_neighbors grid x y ≤ 8 ∧
  count_neighbors grid (x + width grid) y = count_neighbors grid x y ∧
  count_neighbors grid x (y + height grid) = count_neighbors grid x y.
Proof.
  intros Hwf Hw.
  assert (Hh : 0 < height grid).
  { destruct Hwf as (Hne & _). unfold height. destruct grid; [done|cbn; lia]. }
  assert (Hcount : ∀ x y, count_neighbors grid x y = Ok (live_neighbors grid x y)).
  { clear x y. intros x y. unfold count_neighbors.
    destruct (well_formed_row0 grid Hwf) as (row0 & H0 & Hw0).
    rewrite (py_index_lookup grid 0 row0) by done.
    cbn [mbind result_bind]. rewrite <- Hw0. fold (height grid).
    cbn [for_each].
    repeat (first [ rewrite add_neighbor_self
                  | rewrite add_neighbor_wraps
                      by (done || (left; done) || (right; done)) ];
            cbn [mbind result_bind]).
    f_equal. unfold live_neighbors.
    rewrite <- (Z.add_0_l (Z.of_nat _)).
    apply (sum_live grid x y offsets 0).
    intros d _. apply well_formed_binary; [done|].
    split; apply Z.mod_pos_bound; lia. }
  split; [apply Hcount|]. split; [apply live_neighbors_bounds|].
  rewrite !Hcount. unfold live_neighbors. split; do 3 f_equal.
  - apply filter_ext_in. intros d _.
    replace (x + width grid + d.1) with (x + d.1 + 1 * width grid) by lia.
    by rewrite Z.mod_add by lia.
  - apply filter_ext_in. intros d _.
    replace (y + height grid + d.2) with (y + d.2 + 1 * height grid) by lia.
    by rewrite Z.mod_add by lia.
Qed.

Lemma count_neighbors_wraps_witness :
  well_formed blinker ∧ 0 < width blinker ∧
  count_neighbors blinker (-4) 7 = Ok (live_neighbors blinker (-4) 7) ∧
  0 ≤ live_neighbors blinker (-4) 7 ≤ 8 ∧
  count_neighbors blinker (-4 + width blinker) 7 = count_neighbors blinker (-4) 7 ∧
  count_neighbors blinker (-4) (7 + height blinker) = count_neighbors blinker (-4) 7.
Proof.
  assert (Hw : 0 < width blinker) by reflexivity.
  split; [exact blinker_well_formed|]. split; [exact Hw|].
  exact (count_neighbors_wraps blinker (-4) 7 blinker_well_formed Hw).
Defined.


(** ** Uniform grids *)

Lemma uniform_shaped w h c c' :
  (0 < h)%nat → shaped (uniform w h c) (uniform w h c').
Proof.
  intros Hh. unfold uniform. split; [by rewrite !length_replicate|].
  destruct h as [|h]; [lia|]. unfold width. cbn [replicate head default].
  unfold id. apply Forall_cons. rewrite !length_replicate. split; [done|].
  apply Forall_replicate. by rewrite !length_replicate.
Qed.

Lemma uniform_dims w h c :
  (0 < h)%nat →
  width (uniform w h c) = Z.of_nat w ∧ height (uniform w h c) = Z.of_nat h.
Proof.
  intros Hh. unfold width, height, uniform. rewrite length_replicate.
  destruct h as [|h]; [lia|]. cbn [replicate head default]. unfold id.
  by rewrite length_replicate.
Qed.

Lemma uniform_cell w h c x y :
  0 ≤ x < Z.of_nat w → 0 ≤ y < Z.of_nat h → cell_at (uniform w h c) x y = c.
Proof.
  intros Hx Hy. unfold cell_at, uniform.
  rewrite lookup_replicate_2 by lia. simpl.
  by rewrite lookup_replicate_2 by lia.
Qed.

Lemma uniform_well_formed w h c :
  (0 < h)%nat → c = 0 ∨ c = 1 → well_formed (uniform w h c).
Proof.
  intros Hh Hc. split; [|split].
  - unfold uniform. destruct h; [lia|done].
  - by destruct (uniform_shaped w h c c Hh).
  - unfold uniform. apply Forall_replicate. by apply Forall_replicate.
Qed.

Lemma uniform_live_neighbors w h c x y :
  (0 < w)%nat → (0 < h)%nat →
  live_neighbors (uniform w h c) x y = if bool_decide (c = 1) then 8 else 0.
Proof.
  intros Hw Hh. destruct (uniform_dims w h c Hh) as [Hwd Hht].
  unfold live_neighbors.
  rewrite (filter_ext_in _ (λ _, bool_decide (c = 1) = true)).
  - by destruct (bool_decide (c = 1)).
  - intros d _. unfold alive. rewrite uniform_cell; [done| |].
    + rewrite Hwd. apply Z.mod_pos_bound. lia.
    + rewrite Hht. apply Z.mod_pos_bound. lia.
Qed.

(** X25.  A grid whose cells are all alike, all dead or all alive, is all dead
    in the next generation, whatever its dimensions: on the torus every
    cell of a full grid has eight live neighbours, a grid of one cell
    included. *)
Theorem uniform_grid_dies w h c :
  (0 < h)%nat → c = 0 ∨ c = 1 →
  next_generation (uniform w h c) = Ok (uniform w h 0).
Proof.
  intros Hh Hc.
  destruct (next_generation_cells _ (uniform_well_formed w h c Hh Hc))
    as (g' & -> & Hsh & Hcells).
  f_equal. apply (grid_ext (uniform w h c)); [done|by apply uniform_shaped|].
  intros x y Hin. rewrite (Hcells x y Hin).
  destruct (uniform_dims w h c Hh) as [Hwd Hht].
  destruct Hin as [Hx Hy]. rewrite Hwd in Hx. rewrite Hht in Hy.
  rewrite uniform_cell by done.
  unfold next_state, rule, alive. rewrite uniform_cell by done.
  rewrite uniform_live_neighbors by lia.
  by destruct Hc as [-> | ->].
Qed.

Lemma uniform_grid_dies_witness :
  (0 < 3)%nat ∧ (1 = 0 ∨ 1 = 1) ∧
  next_generation (uniform 3 3 1) = Ok (uniform 3 3 0).
Proof.
  assert (Hh : (0 < 3)%nat) by lia.
  split; [exact Hh|]. split; [right; reflexivity|].
  exact (uniform_grid_dies 3 3 1 Hh (or_intror eq_refl)).
Defined.

(** ** Moving the grid on the torus *)

Lemma shift_shaped grid g kx ky : shaped grid g → shaped grid (shift kx ky g).
Proof.
  intros [Hlen Hrows]. unfold shift. split.
  - by rewrite length_rotate, length_fmap.
  - apply Forall_lookup. intros j row Hrow.
    apply lookup_rotate_r_Some in Hrow as [Hrow _].
    rewrite list_lookup_fmap in Hrow.
    destruct (g !! _) as [row0|] eqn:Hrow0; [|done].
    injection Hrow as <-. rewrite length_rotate.
    by apply (Forall_lookup_1 _ _ _ _ Hrows Hrow0).
Qed.

Lemma shift_cell grid g kx ky x y :
  shaped grid g → in_range grid x y →
  cell_at (shift kx ky g) x y =
    cell_at g ((x + Z.of_nat kx) `mod` width grid)
      ((y + Z.of_nat ky) `mod` height grid).
Proof.
  intros Hsh [Hx Hy]. pose proof Hsh as [Hlen Hrows].
  unfold cell_at, shift, height in *.
  rewrite lookup_rotate_r by (rewrite length_fmap; lia).
  rewrite length_fmap, list_lookup_fmap. unfold rotate_nat_add.
  rewrite Z2Nat.id by lia. rewrite Hlen.
  replace (Z.of_nat ky + y) with (y + Z.of_nat ky) by lia.
  set (Y := (y + Z.of_nat ky) `mod` Z.of_nat (length grid)).
  assert (HY : 0 ≤ Y < Z.of_nat (length grid))
    by (apply Z.mod_pos_bound; lia).
  destruct (lookup_lt_is_Some_2 g (Z.to_nat Y)) as [row Hrow]; [lia|].
  rewrite Hrow. cbn [fmap option_fmap option_map mbind option_bind].
  pose proof (Forall_lookup_1 _ _ _ _ Hrows Hrow) as Hw. simpl in Hw.
  rewrite lookup_rotate_r by lia. unfold rotate_nat_add.
  rewrite Z2Nat.id by lia. rewrite Hw.
  by replace (Z.of_nat kx + x) with (x + Z.of_nat kx) by lia.
Qed.

Lemma shift_well_formed grid kx ky :
  well_formed grid →
  well_formed (shift kx ky grid) ∧ width (shift kx ky grid) = width grid ∧
  height (shift kx ky grid) = height grid.
Proof.
  intros Hwf. pose proof (well_formed_shaped grid Hwf) as Hsh.
  apply shaped_well_formed; [by destruct Hwf|by apply shift_shaped|].
  intros x y Hin. rewrite (shift_cell grid grid) by done.
  apply well_formed_binary; [done|]. by apply (wrapped_in_range grid x y).
Qed.

Lemma shift_next_state grid kx ky x y :
  well_formed grid → in_range grid x y →
  next_state (shift kx ky grid) x y =
    next_state grid ((x + Z.of_nat kx) `mod` width grid)
      ((y + Z.of_nat ky) `mod` height grid).
Proof.
  intros Hwf Hin. pose proof (well_formed_shaped grid Hwf) as Hsh.
  destruct (shift_well_formed grid kx ky Hwf) as (_ & Hw & Hh).
  unfold next_state, alive, live_neighbors. rewrite Hw, Hh.
  rewrite (shift_cell grid grid) by done.
  rewrite (filter_ext_in _
    (λ d, alive grid
            (((x + Z.of_nat kx) `mod` width grid + d.1) `mod` width grid)
            (((y + Z.of_nat ky) `mod` height grid + d.2) `mod` height grid)
          = true)); [done|].
  intros d _. unfold alive.
  rewrite (shift_cell grid grid) by (done || by apply (wrapped_in_range grid x y)).
  rewrite !Zplus_mod_idemp_l.
  replace (x + d.1 + Z.of_nat kx) with (x + Z.of_nat kx + d.1) by lia.
  by replace (y + d.2 + Z.of_nat ky) with (y + Z.of_nat ky + d.2) by lia.
Qed.

(** X26.  The automaton has no edge: moving a well-formed grid on the torus,
    by [kx] columns and [ky] rows, and then computing the next generation
    gives the next generation of the grid, moved in the same way. *)
Theorem next_generation_shift grid new_grid kx ky :
  well_formed grid → next_generation grid = Ok new_grid →
  next_generation (shift kx ky grid) = Ok (shift kx ky new_grid).
Proof.
  intros Hwf Hnext.
  destruct (next_generation_cells grid Hwf) as (g1 & Hg1 & Hsh1 & Hc1).
  rewrite Hnext in Hg1. injection Hg1 as <-.
  destruct (shift_well_formed grid kx ky Hwf) as (Hwf' & Hw & Hh).
  destruct (next_generation_cells _ Hwf') as (g2 & -> & Hsh2 & Hc2).
  f_equal. apply (grid_ext grid).
  - destruct Hsh2 as [Hlen Hrows]. split.
    + rewrite Hlen. unfold height in Hh. lia.
    + by rewrite <- Hw.
  - by apply shift_shaped.
  - intros x y Hin. rewrite Hc2 by (split; rewrite ?Hw, ?Hh; apply Hin).
    rewrite shift_next_state by done.
    rewrite (shift_cell grid new_grid) by done.
    symmetry. apply Hc1. by apply (wrapped_in_range grid x y).
Qed.

Lemma next_generation_shift_witness :
  well_formed blinker ∧
  next_generation blinker =
    Ok [[0; 0; 0; 0; 0];
        [0; 0; 0; 0; 0];
        [0; 1; 1; 1; 0];
        [0; 0; 0; 0; 0];
        [0; 0; 0; 0; 0]] ∧
  next_generation (shift 1 2 blinker) =
    Ok (shift 1 2 [[0; 0; 0; 0; 0];
                   [0; 0; 0; 0; 0];
                   [0; 1; 1; 1; 0];
                   [0; 0; 0; 0; 0];
                   [0; 0; 0; 0; 0]]).
Proof.
  assert (Hnext : next_generation blinker =
            Ok [[0; 0; 0; 0; 0];
                [0; 0; 0; 0; 0];
                [0; 1; 1; 1; 0];
                [0; 0; 0; 0; 0];
                [0; 0; 0; 0; 0]]) by (vm_compute; reflexivity).
  split; [exact blinker_well_formed|]. split; [exact Hnext|].
  exact (next_generation_shift blinker _ 1 2 blinker_well_formed Hnext).
Defined.


(** ** The main loop *)

Lemma demo_loop gens : ∀ out grid,
  well_formed grid →
  ∃ grids last,
    for_each generation (out, grid) gens =
      Ok (out ++ concat (zip_with block gens grids), last) ∧
    length grids = length gens ∧ default last (head grids) = grid ∧
    ∀ i g, grids !! i = Some g →
      well_formed g ∧ width g = width grid ∧ height g = height grid ∧
      next_generation g = Ok (default last (grids !! S i)).
Proof.
  induction gens as [|gen gens IH]; intros out grid Hwf.
  { exists [], grid. cbn. rewrite app_nil_r. by repeat split. }
  destruct (next_generation_closed grid Hwf) as (g1 & Hg1 & Hwf1 & Hw1 & Hh1).
  cbn [for_each generation]. rewrite Hg1. cbn [mbind result_bind].
  destruct (IH ((((out ++ [banner gen]) ++ print_grid grid)
                   ++ [concat (replicate (Z.to_nat WIDTH) (text "-"))]) ++ [[]])
               g1 Hwf1) as (grids & last & -> & Hlen & Hhead & Hchain).
  exists (grid :: grids), last. split; [|split; [|split]].
  - f_equal. f_equal. cbn [zip_with concat]. unfold block.
    rewrite <- !app_assoc. f_equal. cbn [app]. f_equal.
    by rewrite <- app_assoc.
  - cbn. by rewrite Hlen.
  - done.
  - intros [|i] g Hg.
    + injection Hg as <-. cbn [lookup list_lookup].
      split; [done|]. split; [done|]. split; [done|]. rewrite Hg1. f_equal.
      rewrite <- Hhead. by destruct grids.
    + destruct (Hchain i g Hg) as (Hwfg & Hwg & Hhg & Hnext).
      split; [done|]. split; [congruence|]. split; [congruence|done].
Qed.

(** X28.  The demo never raises: whatever the random draws, the main loop
    runs its 20 turns and writes, for each, the banner, the grid and a
    ruler; the grids written are the one [create_grid] made and its
    successive generations, all of them 15 rows of 60 cells. *)
Theorem demo_runs r :
  ∃ grids last,
    demo r = Ok (concat (zip_with block (range GENERATIONS) grids), last) ∧
    length grids = 20%nat ∧
    head grids = Some (create_grid WIDTH HEIGHT r).1 ∧
    ∀ i g, grids !! i = Some g →
      well_formed g ∧ width g = WIDTH ∧ height g = HEIGHT ∧
      next_generation g = Ok (default last (grids !! S i)).
Proof.
  unfold demo.
  destruct (create_grid_shape WIDTH HEIGHT r) as (Hwf & Hw & Hh & _);
    [done|].
  destruct (create_grid WIDTH HEIGHT r) as [grid r']. cbn [fst] in *.
  change (Z.max 0 WIDTH) with WIDTH in Hw.
  destruct (demo_loop (range GENERATIONS) [] grid Hwf)
    as (grids & last & Hrun & Hlen & Hhead & Hchain).
  exists grids, last. split; [done|]. split; [done|]. split.
  - destruct grids; [discriminate Hlen|]. cbn in *. by subst.
  - intros i g Hg. destruct (Hchain i g Hg) as (? & ? & ? & ?).
    split; [done|]. split; [congruence|]. split; [congruence|done].
Qed.

(** X23.  [count_neighbors] on a grid without cells: it raises
    [IndexError] on the empty grid, where there is no [grid[0]], and
    [ZeroDivisionError] on a grid whose first row is empty, where the
    column is taken modulo 0. *)
Theorem count_neighbors_degenerate grid x y :
  (grid = [] → count_neighbors grid x y = Raise IndexError) ∧
  (head grid = Some [] → count_neighbors grid x y = Raise ZeroDivisionError).
Proof.
  split; [by intros ->|].
  destruct grid as [|row rest]; [done|]. intros [= ->].
  unfold count_neighbors.
  rewrite (py_index_lookup ([] :: rest) 0 []) by done.
  reflexivity.
Qed.

(** ** Grids that are not rectangles *)

Lemma index_only_bind {A B} (m : result A) (f : A → result B) :
  index_only m → (∀ a, m = Ok a → index_only (f a)) → index_only (m ≫= f).
Proof. destruct m; cbn; [by intros _ H; apply H|done|done]. Qed.

Lemma index_only_for_each {A St} (body : St → A → result St) l : ∀ s,
  (∀ s a, a ∈ l → index_only (body s a)) → index_only (for_each body s l).
Proof.
  induction l as [|a l IH]; intros s Hbody; [done|]. cbn [for_each].
  apply index_only_bind; [apply Hbody; by left|].
  intros s' _. apply IH. intros s0 a0 Ha0. apply Hbody. by right.
Qed.

Lemma index_only_py_index {A} (l : list A) i : index_only (py_index l i).
Proof.
  unfold py_index, py_position. cbv zeta.
  destruct (bool_decide (0 ≤ _ < _)); cbn; [|done].
  by destruct (l !! _).
Qed.

Lemma index_only_py_store {A} (l : list A) i v : index_only (py_store l i v).
Proof.
  unfold py_store, py_position. cbv zeta.
  by destruct (bool_decide (0 ≤ _ < _)).
Qed.

Lemma py_index_ok_inv {A} (l : list A) i a :
  py_index l i = Ok a → 0 ≤ i →
  l !! Z.to_nat i = Some a.
Proof.
  unfold py_index, py_position. cbv zeta. intros Hidx Hi. revert Hidx.
  rewrite (bool_decide_eq_false_2 (i < 0)) by lia.
  case_bool_decide; cbn; [|done]. by destruct (l !! _); [intros [= ->]|].
Qed.

Lemma index_only_count_neighbors grid x y :
  (∀ row0, grid !! 0%nat = Some row0 → row0 ≠ []) →
  index_only (count_neighbors grid x y).
Proof.
  intros Hrow0. unfold count_neighbors.
  apply index_only_bind; [apply index_only_py_index|].
  intros row0 Hr0.
  assert (Hw : Z.of_nat (length row0) ≠ 0 ∧ Z.of_nat (length grid) ≠ 0).
  { apply py_index_ok_inv in Hr0; [|done].
    change (Z.to_nat 0) with 0%nat in Hr0.
    pose proof (lookup_lt_Some _ _ _ Hr0). specialize (Hrow0 _ Hr0).
    split; [by destruct row0|lia]. }
  destruct Hw as [Hw Hh].
  apply index_only_for_each. intros count dx _.
  apply index_only_for_each. intros count' dy _.
  unfold add_neighbor. destruct (_ && _); [done|].
  rewrite !py_mod_nonzero by done. cbn [mbind result_bind].
  apply index_only_bind; [apply index_only_py_index|]. intros row _.
  apply index_only_bind; [apply index_only_py_index|]. done.
Qed.

Lemma index_only_next_generation grid : index_only (next_generation grid).
Proof.
  unfold next_generation.
  apply index_only_bind; [apply index_only_py_index|].
  intros row0 Hr0.
  assert (Hg0 : grid !! 0%nat = Some row0).
  { by apply py_index_ok_inv in Hr0. }
  apply index_only_for_each. intros g y _.
  apply index_only_for_each. intros g' x Hx.
  assert (Hne : row0 ≠ []).
  { intros ->. unfold range in Hx. by apply elem_of_nil in Hx. }
  unfold next_cell.
  apply index_only_bind.
  { apply index_only_count_neighbors. intros r Hr. congruence. }
  intros n _.
  apply index_only_bind; [apply index_only_py_index|]. intros row _.
  apply index_only_bind; [apply index_only_py_index|]. intros cell _.
  assert (Hstore : index_only (store_cell g' y x 1)).
  { unfold store_cell.
    apply index_only_bind; [apply index_only_py_index|]. intros r _.
    apply index_only_bind; [apply index_only_py_store|]. intros r' _.
    apply index_only_py_store. }
  destruct (_ && _); [done|]. by destruct (_ && _).
Qed.

Lemma for_each_ok_inv {A St} (body : St → A → result St) l : ∀ s s' a,
  for_each body s l = Ok s' → a ∈ l → ∃ s1 s2, body s1 a = Ok s2.
Proof.
  induction l as [|b l IH]; intros s s' a Hrun Ha.
  { by apply elem_of_nil in Ha. }
  cbn [for_each] in Hrun.
  destruct (body s b) as [s1| |] eqn:Hb; cbn [mbind result_bind] in Hrun;
    try done.
  apply elem_of_cons in Ha as [->|Ha]; [eauto|]. by apply (IH s1 s').
Qed.

Lemma bind_ok_inv {A B} (m : result A) (f : A → result B) b :
  m ≫= f = Ok b → ∃ a, m = Ok a ∧ f a = Ok b.
Proof. destruct m as [a| |]; cbn; [eauto|done|done]. Qed.

(** Reading a cell of a grid whose rows reach the width. *)
Lemma read_reach {B} grid x y (k : Z → result B) :
  rows_reach grid → in_range grid x y →
  (row ← py_index grid y; cell ← py_index row x; k cell) = k (cell_at grid x y).
Proof.
  intros Hreach [Hx Hy]. unfold height in Hy.
  destruct (lookup_lt_is_Some_2 grid (Z.to_nat y)) as [row Hrow]; [lia|].
  pose proof (Forall_lookup_1 _ _ _ _ Hreach Hrow) as Hlen. simpl in Hlen.
  destruct (lookup_lt_is_Some_2 row (Z.to_nat x)) as [c Hc]; [lia|].
  rewrite (py_index_lookup grid y row) by (done || lia).
  cbn [mbind result_bind].
  rewrite (py_index_lookup row x c) by (done || lia).
  cbn [mbind result_bind]. unfold cell_at. rewrite Hrow. cbn. by rewrite Hc.
Qed.

Lemma count_neighbors_reach grid x y :
  grid ≠ [] → rows_reach grid → 0 < width grid →
  ∃ n, count_neighbors grid x y = Ok n.
Proof.
  intros Hne Hreach Hw. unfold count_neighbors.
  destruct grid as [|row0 rest] eqn:Hgrid; [done|]. rewrite <- Hgrid in *.
  assert (H0 : grid !! 0%nat = Some row0) by by rewrite Hgrid.
  rewrite (py_index_lookup grid 0 row0) by done.
  cbn [mbind result_bind]. rewrite <- (width_head grid row0 H0).
  fold (height grid).
  assert (Hh : 0 < height grid) by (unfold height; rewrite Hgrid; cbn; lia).
  assert (Hadd : ∀ dx dy count,
            ∃ n, add_neighbor grid (width grid) (height grid) x y dx count dy
                 = Ok n).
  { intros dx dy count. unfold add_neighbor. destruct (_ && _); [eauto|].
    rewrite !py_mod_nonzero by lia. cbn [mbind result_bind].
    rewrite (read_reach grid _ _ (λ cell, Ok (count + cell))); [eauto|done|].
    split; apply Z.mod_pos_bound; lia. }
  cbn [for_each].
  repeat (match goal with
          | |- context [add_neighbor grid (width grid) (height grid) x y ?dx ?c ?dy] =>
              let n := fresh "n" in let Hn := fresh "Hn" in
              destruct (Hadd dx dy c) as [n Hn]; rewrite Hn;
              cbn [mbind result_bind]
          end).
  eauto.
Qed.

Lemma next_cell_reach grid g x y :
  grid ≠ [] → rows_reach grid → in_range grid x y → shaped grid g →
  ∃ g', next_cell grid y g x = Ok g' ∧ shaped grid g'.
Proof.
  intros Hne Hreach Hin Hsh. unfold next_cell.
  destruct (count_neighbors_reach grid x y Hne Hreach) as [n ->];
    [destruct Hin; lia|].
  cbn [mbind result_bind]. rewrite (read_reach grid x y) by done.
  destruct (shaped_cell grid g x y Hsh Hin) as (row & Hrow & Hw & Hc).
  assert (Hstore : ∃ g', store_cell g y x 1 = Ok g' ∧ shaped grid g').
  { eexists. split; [by apply (store_cell_insert grid)|].
    by apply shaped_insert. }
  destruct (_ && _); [done|]. destruct (_ && _); [done|]. eauto.
Qed.

Lemma inner_loop_reach grid y xs : ∀ g,
  grid ≠ [] → rows_reach grid → 0 ≤ y < height grid →
  (∀ x, x ∈ xs → 0 ≤ x < width grid) → shaped grid g →
  ∃ g', for_each (next_cell grid y) g xs = Ok g' ∧ shaped grid g'.
Proof.
  induction xs as [|x xs IH]; intros g Hne Hreach Hy Hxs Hsh; [eauto|].
  cbn [for_each].
  destruct (next_cell_reach grid g x y Hne Hreach) as (g1 & -> & Hsh1);
    [split; [apply Hxs; by left|done]|done|].
  cbn [mbind result_bind]. apply IH; try done.
  intros x' Hx'. apply Hxs. by right.
Qed.

Lemma outer_loop_reach grid ys : ∀ g,
  grid ≠ [] → rows_reach grid → (∀ y, y ∈ ys → 0 ≤ y < height grid) →
  shaped grid g →
  ∃ g', for_each
          (λ new_grid y,
             for_each (next_cell grid y) new_grid (range (width grid)))
          g ys = Ok g' ∧ shaped grid g'.
Proof.
  induction ys as [|y ys IH]; intros g Hne Hreach Hys Hsh; [eauto|].
  cbn [for_each].
  destruct (inner_loop_reach grid y (range (width grid)) g Hne Hreach)
    as (g1 & -> & Hsh1); [apply Hys; by left| |done|].
  { intros x Hx. unfold range in Hx. apply elem_of_seqZ in Hx. lia. }
  cbn [mbind result_bind]. apply IH; try done.
  intros y' Hy'. apply Hys. by right.
Qed.

Lemma next_generation_reach grid :
  grid ≠ [] → rows_reach grid →
  ∃ new_grid, next_generation grid = Ok new_grid ∧ shaped grid new_grid.
Proof.
  intros Hne Hreach. unfold next_generation.
  destruct grid as [|row0 rest] eqn:Hgrid; [done|]. rewrite <- Hgrid in *.
  assert (H0 : grid !! 0%nat = Some row0) by by rewrite Hgrid.
  rewrite (py_index_lookup grid 0 row0) by done.
  cbn [mbind result_bind]. rewrite <- (width_head grid row0 H0).
  fold (height grid).
  apply outer_loop_reach; try done.
  - intros y Hy. unfold range in Hy. apply elem_of_seqZ in Hy. lia.
  - by destruct (zeros_painted grid).
Qed.

Lemma next_generation_short grid new_grid :
  next_generation grid = Ok new_grid → grid ≠ [] ∧ rows_reach grid.
Proof.
  intros Hnext. unfold next_generation in Hnext.
  apply bind_ok_inv in Hnext as (row0 & Hr0 & Hloop).
  apply py_index_ok_inv in Hr0; [|done]. change (Z.to_nat 0) with 0%nat in Hr0.
  split; [by intros ->|].
  rewrite <- (width_head grid row0 Hr0) in Hloop. fold (height grid) in Hloop.
  apply Forall_lookup. intros j row Hrow.
  destruct (decide (width grid ≤ Z.of_nat (length row))) as [|Hshort]; [done|].
  exfalso. pose proof (lookup_lt_Some _ _ _ Hrow) as Hj.
  assert (Hw : 0 < width grid) by lia.
  assert (Hh : 0 < height grid) by (unfold height; lia).
  destruct (for_each_ok_inv _ _ _ _ (Z.of_nat j) Hloop) as (s1 & s2 & Hin).
  { unfold range. apply elem_of_seqZ. unfold height. lia. }
  destruct (for_each_ok_inv _ _ _ _ 0 Hin) as (s3 & s4 & Hcell).
  { unfold range. apply elem_of_seqZ. lia. }
  unfold next_cell in Hcell. apply bind_ok_inv in Hcell as (n & Hcount & _).
  unfold count_neighbors in Hcount.
  rewrite (py_index_lookup grid 0 row0) in Hcount by done.
  cbn [mbind result_bind] in Hcount.
  rewrite <- (width_head grid row0 Hr0) in Hcount. fold (height grid) in Hcount.
  destruct (for_each_ok_inv _ _ _ _ (-1) Hcount) as (c1 & c2 & Hdx);
    [by left|].
  destruct (for_each_ok_inv _ _ _ _ 0 Hdx) as (c3 & c4 & Hadd);
    [by right; left|].
  unfold add_neighbor in Hadd. cbn [bool_decide decide_rel andb] in Hadd.
  rewrite !py_mod_nonzero in Hadd by lia. cbn [mbind result_bind] in Hadd.
  apply bind_ok_inv in Hadd as (row' & Hrow' & Hadd).
  apply py_index_ok_inv in Hrow'; [|by apply Z.mod_pos_bound].
  rewrite Z.add_0_r, Z.mod_small, Nat2Z.id in Hrow' by (unfold height; lia).
  assert (row' = row) as -> by congruence.
  apply bind_ok_inv in Hadd as (cell & Hcellr & _).
  apply py_index_ok_inv in Hcellr; [|by apply Z.mod_pos_bound].
  apply lookup_lt_Some in Hcellr.
  replace ((0 + -1) `mod` width grid) with (width grid - 1) in Hcellr; [lia|].
  apply (Z.mod_unique _ _ (-1)); lia.
Qed.

(** X24.  [next_generation] needs a grid with a first row that no row is
    shorter than: on such a grid, longer rows included, it returns a grid
    of as many rows, each of the length of the first row; on every other
    grid, the empty one included, it raises [IndexError]. *)
Theorem next_generation_needs_rectangle grid :
  (grid ≠ [] ∧ rows_reach grid →
     ∃ new_grid, next_generation grid = Ok new_grid ∧ shaped grid new_grid) ∧
  (¬ (grid ≠ [] ∧ rows_reach grid) → next_generation grid = Raise IndexError).
Proof.
  split.
  - intros [Hne Hreach]. by apply next_generation_reach.
  - intros Hbad. pose proof (index_only_next_generation grid) as Honly.
    destruct (next_generation grid) as [g'|e|] eqn:Hnext; cbn in Honly.
    + exfalso. apply Hbad. by apply (next_generation_short grid g').
    + by rewrite Honly.
    + done.
Qed.

(** A row shorter than the first one is an [IndexError]; a longer one is
    read up to the length of the first. *)
Example short_row_raises : next_generation [[0; 1]; [0]] = Raise IndexError.
Proof. reflexivity. Qed.

Example long_row_accepted :
  next_generation [[1; 1]; [1; 0; 1]] = Ok [[0; 0]; [0; 0]].
Proof. vm_compute. reflexivity. Qed.

End LifeGrids.
